(** * forego [start]: concurrency-spec parsing, replica fan-out and the
      shutdown coordination of supervised processes (start.go). *)

From Stdlib Require Import ZArith Ascii String List Lia Bool DecimalString.
From stdpp Require Import base gmap strings list.

Local Open Scope Z_scope.

(** ** Go strings

    A Go string is a sequence of bytes; [string] is exactly that (one
    [ascii] per byte).  Non-ASCII runes appear as their UTF-8 bytes. *)

Definition byte_code (c : ascii) : Z := Z.of_N (N_of_ascii c).

Module Strings.

(** [strings.Contains(s, sep)] for a one-byte separator. *)
Fixpoint Contains (s : string) (sep : ascii) : bool :=
  match s with
  | EmptyString => false
  | String c r => if Ascii.eqb c sep then true else Contains r sep
  end.

(** [strings.Split(s, sep)] for a one-byte separator: the pieces between
    the occurrences of [sep]; a string without [sep] gives that one piece,
    and the empty string gives one empty piece. *)
Fixpoint Split (s : string) (sep : ascii) : list string :=
  match s with
  | EmptyString => [EmptyString]
  | String c r =>
      if Ascii.eqb c sep then EmptyString :: Split r sep
      else match Split r sep with
           | p :: ps => String c p :: ps
           | [] => [String c EmptyString]
           end
  end.

(** White space as [unicode.IsSpace] has it, on the UTF-8 bytes:
    U+0009..U+000D and U+0020 (one byte), U+0085 and U+00A0 (two bytes),
    U+1680, U+2000..U+200A, U+2028, U+2029, U+202F, U+205F and U+3000
    (three bytes). *)
Definition space1 (a : ascii) : bool :=
  let x := byte_code a in ((9 <=? x) && (x <=? 13)) || (x =? 32).

Definition space2 (a b : ascii) : bool :=
  (byte_code a =? 194) && ((byte_code b =? 133) || (byte_code b =? 160)).

Definition space3 (a b c : ascii) : bool :=
  let x := byte_code a in
  let y := byte_code b in
  let z := byte_code c in
  ((x =? 225) && (y =? 154) && (z =? 128))
  || ((x =? 226) && (y =? 128)
      && (((128 <=? z) && (z <=? 138)) || (z =? 168) || (z =? 169) || (z =? 175)))
  || ((x =? 226) && (y =? 129) && (z =? 159))
  || ((x =? 227) && (y =? 128) && (z =? 128)).

(** Drop the leading white-space runes.  [fwd] tells the byte order of a
    multi-byte rune: [true] for the string itself, [false] for the
    reversed string (trailing runes of the original). *)
Fixpoint trim_lead (fwd : bool) (s : string) : string :=
  match s with
  | EmptyString => EmptyString
  | String a r1 =>
      if space1 a then trim_lead fwd r1
      else
        match r1 with
        | EmptyString => s
        | String b r2 =>
            if (if fwd then space2 a b else space2 b a) then trim_lead fwd r2
            else
              match r2 with
              | EmptyString => s
              | String c r3 =>
                  if (if fwd then space3 a b c else space3 c b a)
                  then trim_lead fwd r3
                  else s
              end
        end
  end.

Fixpoint rev_onto (s acc : string) : string :=
  match s with
  | EmptyString => acc
  | String c r => rev_onto r (String c acc)
  end.

Definition reverse (s : string) : string := rev_onto s EmptyString.

(** [strings.TrimSpace(s)]: leading, then trailing white space removed. *)
Definition TrimSpace (s : string) : string :=
  reverse (trim_lead false (reverse (trim_lead true s))).

End Strings.

(** ** Go errors met in this file *)

Inductive NumErr := ErrSyntax | ErrRange.

Inductive error :=
| ErrorString (msg : string)                       (* errors.New(msg) *)
| NumError (func num : string) (err : NumErr).     (* *strconv.NumError *)

Module Strconv.

Definition maxUint64 : Z := 2 ^ 64 - 1.
Definition wrap64 (z : Z) : Z := z mod 2 ^ 64.

(** [lower(c)]: [c | ('x' - 'X')]. *)
Definition lower (c : Z) : Z := Z.lor c 32.

(** The value of the byte [c] as a digit, as the [switch] of the digit
    loop computes it; [None] is its [default] (a syntax error). *)
Definition digit_of (c : Z) : option Z :=
  if (48 <=? c) && (c <=? 57) then Some (c - 48)
  else if (97 <=? lower c) && (lower c <=? 122) then Some (lower c - 97 + 10)
  else None.

(** The digit loop of [strconv.ParseUint] for an explicit base (no
    underscores: those exist for base 0 only).  [n] is the accumulator;
    the result is the returned value and the kind of the error, if any. *)
Fixpoint parseUint_loop (base maxVal cutoff : Z) (s : string) (n : Z)
  : Z * option NumErr :=
  match s with
  | EmptyString => (n, None)
  | String ch r =>
      match digit_of (byte_code ch) with
      | None => (0, Some ErrSyntax)
      | Some d =>
          if base <=? d then (0, Some ErrSyntax)
          else if cutoff <=? n then (maxVal, Some ErrRange)
          else
            let n' := wrap64 (n * base) in
            let n1 := wrap64 (n' + d) in
            if (n1 <? n') || (maxVal <? n1) then (maxVal, Some ErrRange)
            else parseUint_loop base maxVal cutoff r n1
      end
  end.

Definition parseUint (s : string) (base bitSize : Z) : Z * option NumErr :=
  match s with
  | EmptyString => (0, Some ErrSyntax)
  | _ => parseUint_loop base (2 ^ bitSize - 1) (maxUint64 / base + 1) s 0
  end.

(** [strconv.ParseUint(s, base, bitSize)], [2 <= base <= 36],
    [0 < bitSize <= 64]. *)
Definition ParseUint (s : string) (base bitSize : Z) : Z * option error :=
  let '(v, e) := parseUint s base bitSize in (v, NumError "ParseUint" s <$> e).

(** [strconv.ParseInt(s, base, bitSize)]: an optional sign, then
    [ParseUint]; a syntax error is passed on under the name of
    [ParseInt], a range error is decided again on the signed bound. *)
Definition ParseInt (s : string) (base bitSize : Z) : Z * option error :=
  match s with
  | EmptyString => (0, Some (NumError "ParseInt" s ErrSyntax))
  | String c r =>
      let neg := Ascii.eqb c "-" in
      let body := if Ascii.eqb c "+" || neg then r else s in
      match parseUint body base bitSize with
      | (_, Some ErrSyntax) => (0, Some (NumError "ParseInt" s ErrSyntax))
      | (un, _) =>
          let cutoff := 2 ^ (bitSize - 1) in
          if negb neg && (cutoff <=? un)
          then (cutoff - 1, Some (NumError "ParseInt" s ErrRange))
          else if neg && (cutoff <? un)
          then (- cutoff, Some (NumError "ParseInt" s ErrRange))
          else (if neg then - un else un, None)
      end
  end.

(** [strconv.Itoa(i)]: the decimal numeral of [i]. *)
Definition Itoa (i : Z) : string := NilZero.string_of_int (Z.to_int i).

End Strconv.

(** ** Go's [int]: 64 bits, two's complement *)

Definition minInt : Z := - 2 ^ 63.
Definition maxInt : Z := 2 ^ 63 - 1.
Definition wrap_int (z : Z) : Z := (z + 2 ^ 63) mod 2 ^ 64 - 2 ^ 63.
Definition int_add (a b : Z) : Z := wrap_int (a + b).
Definition int_mul (a b : Z) : Z := wrap_int (a * b).

(** ** [parseConcurrency] *)

Definition errParsing : error := ErrorString "Parsing concurency".

(** The body of [for _, part := range parts]: [inl] is an early [return]
    with the error, [inr] the mapping after the assignment
    [concurrency[n] = int(numProcs)] (16 bits fit [int]).  [nameValue[0]]
    and [nameValue[1]] exist because [part] contains ["="]
    ([Split_Contains_length] below). *)
Definition parsePart (concurrency : gmap string Z) (part : string)
  : error + gmap string Z :=
  if negb (Strings.Contains part "=") then inl errParsing
  else
    let nameValue := Strings.Split part "=" in
    let n := Strings.TrimSpace (nth 0 nameValue EmptyString) in
    let v := Strings.TrimSpace (nth 1 nameValue EmptyString) in
    if String.eqb n EmptyString || String.eqb v EmptyString then inl errParsing
    else
      match Strconv.ParseInt v 10 16 with
      | (_, Some err) => inl err
      | (numProcs, None) => inr (<[n := numProcs]> concurrency)
      end.

Fixpoint parseParts (parts : list string) (concurrency : gmap string Z)
  : gmap string Z * option error :=
  match parts with
  | [] => (concurrency, None)
  | part :: rest =>
      match parsePart concurrency part with
      | inl err => (concurrency, Some err)
      | inr concurrency' => parseParts rest concurrency'
      end
  end.

Definition parseConcurrency (value : string) : gmap string Z * option error :=
  if String.eqb (Strings.TrimSpace value) EmptyString then (∅, None)
  else parseParts (Strings.Split value ",") ∅.

(** ** Templates, replicas and what [startProcess] derives from them *)

Record ProcfileEntry := { Name : string; Command : string }.

(** The arguments of one call [f.startProcess(idx, procNum, proc, ...)]. *)
Record Replica := { r_idx : Z; r_procNum : Z; r_proc : ProcfileEntry }.

(** The options and inputs of [runStart]: the flags [-p], [-r] and [-c], the
    platform's [osHaveSigTerm], and what [ReadProcfile] and [ReadEnv]
    returned; [args] are the command-line arguments after the flags. *)
Record Config := {
  flagPort : Z;
  flagRestart : bool;
  flagConcurrency : string;
  osHaveSigTerm : bool;
  Entries : list ProcfileEntry;
  env : gmap string string;
  args : list string
}.

(** [port := flagPort + (idx * 100)] *)
Definition portOf (c : Config) (idx : Z) : Z := int_add (flagPort c) (int_mul idx 100).

(** [procName := fmt.Sprint(proc.Name, ".", procNum+1)]: no space is put
    next to a string operand. *)
Definition procNameOf (proc : ProcfileEntry) (procNum : Z) : string :=
  Name proc +:+ "." +:+ Strconv.Itoa (int_add procNum 1).

(** [fmt.Sprintf("starting %s on port %d", procName, port)] *)
Definition startingLine (procName : string) (port : Z) : string :=
  "starting " +:+ procName +:+ " on port " +:+ Strconv.Itoa port.

(** The nested loops of [runStart], as the sequence of [startProcess] calls
    they make. *)
Definition numProcsOf (concurrency : gmap string Z) (proc : ProcfileEntry) : Z :=
  match concurrency !! Name proc with
  | Some value => value
  | None => 1
  end.

Definition replicasOf (concurrency : gmap string Z) (singleton : string)
           (idx : Z) (proc : ProcfileEntry) : list Replica :=
  flat_map
    (fun i => if String.eqb singleton EmptyString || String.eqb singleton (Name proc)
              then [ {| r_idx := idx; r_procNum := i; r_proc := proc |} ]
              else [])
    (seqZ 0 (numProcsOf concurrency proc)).

(** [for idx, proc := range pf.Entries], from index [idx] on. *)
Fixpoint fanoutFrom (concurrency : gmap string Z) (singleton : string)
         (idx : Z) (entries : list ProcfileEntry) : list Replica :=
  match entries with
  | [] => []
  | proc :: rest =>
      replicasOf concurrency singleton idx proc
      ++ fanoutFrom concurrency singleton (idx + 1) rest
  end.

Definition fanout (concurrency : gmap string Z) (singleton : string)
           (entries : list ProcfileEntry) : list Replica :=
  fanoutFrom concurrency singleton 0 entries.

(** ** The supervisor as a transition system

    [Forego] with its barriers, the goroutines of [startProcess] and
    [monitorInterrupt], the children and the clock.  One label is one
    atomic action of one goroutine (or of the environment: a child exiting,
    an interrupt arriving, time passing); an execution is a sequence of
    labels, so every interleaving of the goroutines is an execution. *)

(** [const shutdownGraceTime = 3 * time.Second], in nanoseconds as
    [time.Duration] counts. *)
Definition Second : Z := 1000000000.
Definition shutdownGraceTime : Z := 3 * Second.

(** [type Forego struct]: [shutdown] is the [sync.Once] (has it run?),
    [teardown] and [teardownNow] are the channels (are they closed?),
    [wg] is the counter of the [sync.WaitGroup]. *)
Record Forego := {
  shutdown : bool;
  teardown : bool;
  teardownNow : bool;
  wg : Z
}.

(** [close(ch)]: closing a closed channel panics. *)
Definition close (closed : bool) : option bool :=
  if closed then None else Some true.

(** [func (f *Forego) SignalShutdown()]:
    [f.shutdown.Do(func() { close(f.teardown) })]; [None] is a panic. *)
Definition SignalShutdown (f : Forego) : option Forego :=
  if shutdown f then Some f
  else
    match close (teardown f) with
    | None => None
    | Some t => Some {| shutdown := true; teardown := t;
                        teardownNow := teardownNow f; wg := wg f |}
    end.

(** [f.wg.Add(delta)]; [f.wg.Done()] is [Add(-1)].  A negative counter
    panics. *)
Definition wgAdd (f : Forego) (delta : Z) : option Forego :=
  if wg f + delta <? 0 then None
  else Some {| shutdown := shutdown f; teardown := teardown f;
               teardownNow := teardownNow f; wg := wg f + delta |}.

(** Modelled from the spec: the process handle ([ps.Start()], [ps.Wait()],
    [ps.SendSigTerm()], [ps.SendSigKill()], [ps.cmd.Process.Kill()]) owns
    one child of the operating system; [wait()] "blocks until exit".  The
    child is alive, has exited but is not yet waited for, or is reaped (its
    [Wait] has returned); when it exits is up to the child, whatever signal
    it was sent. *)
Inductive Child := Alive | Zombie | Reaped.

(** Where the coordination goroutine of [startProcess] stands. *)
Inductive CoordPC :=
| AtSelect        (* the outer [select]: [<-finished] or [<-f.teardown] *)
| AtGraceSelect   (* SIGTERM sent, in the inner [select] *)
| AtDeferred      (* body left; the deferred [<-finished] is pending *)
| CoordDone.      (* [f.wg.Done()] has run: the goroutine is over *)

(** What [startProcess] fixes for the process before [ps.Start()];
    [ps_parent] records the caller: [None] for [runStart], [Some p] for the
    coordination goroutine of instance [p] (a restart). *)
Record Process := {
  ps_replica : Replica;
  ps_procName : string;
  ps_port : Z;
  ps_Env : gmap string string;
  ps_parent : option nat
}.

(** One call of [startProcess]: the process, its child, the channel
    [finished] (closed?), its coordination goroutine, the start time of the
    timer [time.After(shutdownGraceTime)] if it was created, and how often
    the child was sent SIGTERM and a forced kill. *)
Record Instance := {
  i_ps : Process;
  i_child : Child;
  i_finished : bool;
  i_pc : CoordPC;
  i_timer : option Z;
  i_sigterm : nat;
  i_kill : nat
}.

Inductive Out :=
| System (line : string)    (* [of.SystemOutput(line)] *)
| Stdout (line : string).   (* [fmt.Println(line)] *)

(** [runStart] after its set-up: in the loops with the [startProcess] calls
    still to make (with none left: at [<-f.teardown]), at [f.wg.Wait()], or
    returned, which ends the program. *)
Inductive MainPC :=
| InLoop (pending : list Replica)
| WgWait
| Returned.

Record State := {
  st_f : Forego;
  st_first : bool;          (* [first] of [monitorInterrupt] *)
  st_once : bool;           (* [once] of [monitorInterrupt]: has it run? *)
  st_procs : list Instance;
  st_main : MainPC;
  st_clock : Z;
  st_out : list Out         (* newest first *)
}.

Inductive Branch := OnFinished | OnTeardown | OnTimer | OnTeardownNow | OnDeferred.

Inductive Label :=
| LMain                       (* [runStart] takes its next step *)
| LInterrupt                  (* [monitorInterrupt] receives [os.Interrupt] *)
| LTick (d : Z)               (* [d] nanoseconds pass *)
| LChildExit (p : nat)        (* the child of instance [p] terminates *)
| LWaitReturn (p : nat)       (* [ps.Wait()] returns: the child is reaped *)
| LCloseFinished (p : nat)    (* the deferred [close(finished)] *)
| LCoord (p : nat) (b : Branch). (* the coordinator of [p] proceeds by [b] *)

Inductive Outcome :=
| Next (s : State)
| Blocked       (* the action cannot happen in this state *)
| Panic.

Definition with_f (s : State) (f : Forego) : State :=
  {| st_f := f; st_first := st_first s; st_once := st_once s;
     st_procs := st_procs s; st_main := st_main s; st_clock := st_clock s;
     st_out := st_out s |}.

Definition with_procs (s : State) (ps : list Instance) : State :=
  {| st_f := st_f s; st_first := st_first s; st_once := st_once s;
     st_procs := ps; st_main := st_main s; st_clock := st_clock s;
     st_out := st_out s |}.

Definition with_main (s : State) (m : MainPC) : State :=
  {| st_f := st_f s; st_first := st_first s; st_once := st_once s;
     st_procs := st_procs s; st_main := m; st_clock := st_clock s;
     st_out := st_out s |}.

Definition emit (s : State) (o : Out) : State :=
  {| st_f := st_f s; st_first := st_first s; st_once := st_once s;
     st_procs := st_procs s; st_main := st_main s; st_clock := st_clock s;
     st_out := o :: st_out s |}.

Definition with_child (i : Instance) (ch : Child) : Instance :=
  {| i_ps := i_ps i; i_child := ch; i_finished := i_finished i; i_pc := i_pc i;
     i_timer := i_timer i; i_sigterm := i_sigterm i; i_kill := i_kill i |}.

Definition with_finished (i : Instance) : Instance :=
  {| i_ps := i_ps i; i_child := i_child i; i_finished := true; i_pc := i_pc i;
     i_timer := i_timer i; i_sigterm := i_sigterm i; i_kill := i_kill i |}.

Definition with_pc (i : Instance) (pc : CoordPC) : Instance :=
  {| i_ps := i_ps i; i_child := i_child i; i_finished := i_finished i; i_pc := pc;
     i_timer := i_timer i; i_sigterm := i_sigterm i; i_kill := i_kill i |}.

(** [ps.SendSigTerm()], then the inner [select] is entered and
    [time.After(shutdownGraceTime)] starts its timer at time [now]. *)
Definition sigterm_sent (i : Instance) (now : Z) : Instance :=
  {| i_ps := i_ps i; i_child := i_child i; i_finished := i_finished i;
     i_pc := AtGraceSelect; i_timer := Some now;
     i_sigterm := S (i_sigterm i); i_kill := i_kill i |}.

(** [ps.SendSigKill()] or [ps.cmd.Process.Kill()]; the body is left. *)
Definition killed (i : Instance) : Instance :=
  {| i_ps := i_ps i; i_child := i_child i; i_finished := i_finished i;
     i_pc := AtDeferred; i_timer := i_timer i;
     i_sigterm := i_sigterm i; i_kill := S (i_kill i) |}.

Definition killingLine (i : Instance) : Out :=
  System ("Killing " +:+ ps_procName (i_ps i)).

Definition sigtermLine (i : Instance) : Out :=
  System ("sending SIGTERM to " +:+ ps_procName (i_ps i)).

(** Modelled from the spec: [NewProcess(proc.Command, env)] gives a process
    handle for the template's command with the environment [env].  Then, as
    [startProcess] goes on: the port, the display name and
    [ps.Env["PORT"] = strconv.Itoa(port)]. *)
Definition newProcess (c : Config) (r : Replica) (parent : option nat) : Process :=
  let port := portOf c (r_idx r) in
  {| ps_replica := r;
     ps_procName := procNameOf (r_proc r) (r_procNum r);
     ps_port := port;
     ps_Env := <["PORT" := Strconv.Itoa port]> (env c);
     ps_parent := parent |}.

Definition newInstance (c : Config) (r : Replica) (parent : option nat) : Instance :=
  {| i_ps := newProcess c r parent; i_child := Alive; i_finished := false;
     i_pc := AtSelect; i_timer := None; i_sigterm := 0; i_kill := 0 |}.

(** [f.startProcess(idx, procNum, proc, env, of)] up to the two [go]
    statements: the announcement, [ps.Start()], [f.wg.Add(1)], and the new
    coordination goroutine at its [select]. *)
Definition startProcess (c : Config) (r : Replica) (parent : option nat)
           (s : State) : Outcome :=
  let i := newInstance c r parent in
  match wgAdd (st_f s) 1 with
  | None => Panic
  | Some f' =>
      Next (with_f (with_procs (emit s (System (startingLine (ps_procName (i_ps i))
                                                             (ps_port (i_ps i)))))
                               (st_procs s ++ [i])) f')
  end.

Definition set_inst (s : State) (p : nat) (i : Instance) : State :=
  with_procs s (<[p := i]> (st_procs s)).

(** The coordination goroutine of instance [p] (now [i]) goes on by [b]. *)
Definition coord_step (c : Config) (p : nat) (i : Instance) (b : Branch)
           (s : State) : Outcome :=
  match i_pc i, b with
  | AtSelect, OnFinished =>
      if i_finished i then
        if flagRestart c then
          startProcess c (ps_replica (i_ps i)) (Some p)
                       (set_inst s p (with_pc i AtDeferred))
        else
          match SignalShutdown (st_f s) with
          | None => Panic
          | Some f' => Next (with_f (set_inst s p (with_pc i AtDeferred)) f')
          end
      else Blocked
  | AtSelect, OnTeardown =>
      if teardown (st_f s) then
        if negb (osHaveSigTerm c)
        then Next (set_inst (emit s (killingLine i)) p (killed i))
        else Next (set_inst (emit s (sigtermLine i)) p (sigterm_sent i (st_clock s)))
      else Blocked
  | AtGraceSelect, OnTimer =>
      match i_timer i with
      | Some t0 =>
          if t0 + shutdownGraceTime <=? st_clock s
          then Next (set_inst (emit s (killingLine i)) p (killed i))
          else Blocked
      | None => Blocked
      end
  | AtGraceSelect, OnTeardownNow =>
      if teardownNow (st_f s)
      then Next (set_inst (emit s (killingLine i)) p (killed i))
      else Blocked
  | AtGraceSelect, OnFinished =>
      if i_finished i then Next (set_inst s p (with_pc i AtDeferred)) else Blocked
  | AtDeferred, OnDeferred =>
      if i_finished i then
        match wgAdd (st_f s) (-1) with
        | None => Panic
        | Some f' => Next (with_f (set_inst s p (with_pc i CoordDone)) f')
        end
      else Blocked
  | _, _ => Blocked
  end.

(** One pass of the loop of [monitorInterrupt]. *)
Definition interrupt_step (s : State) : Outcome :=
  let s1 := emit s (Stdout "      | ctrl-c detected") in
  let closed :=
    if negb (st_first s) && negb (st_once s)
    then close (teardownNow (st_f s))
    else Some (teardownNow (st_f s)) in
  match closed with
  | None => Panic
  | Some tn =>
      let f1 := {| shutdown := shutdown (st_f s); teardown := teardown (st_f s);
                   teardownNow := tn; wg := wg (st_f s) |} in
      match SignalShutdown f1 with
      | None => Panic
      | Some f2 =>
          Next {| st_f := f2; st_first := false;
                  st_once := st_once s || negb (st_first s);
                  st_procs := st_procs s; st_main := st_main s;
                  st_clock := st_clock s; st_out := st_out s1 |}
      end
  end.

Definition main_step (c : Config) (s : State) : Outcome :=
  match st_main s with
  | InLoop (r :: rest) => startProcess c r None (with_main s (InLoop rest))
  | InLoop [] =>
      if teardown (st_f s)
      then Next (with_main (emit s (System "shutting down")) WgWait)
      else Blocked
  | WgWait => if wg (st_f s) =? 0 then Next (with_main s Returned) else Blocked
  | Returned => Blocked
  end.

Definition on_inst (s : State) (p : nat) (k : Instance -> Outcome) : Outcome :=
  match st_procs s !! p with
  | Some i => k i
  | None => Blocked
  end.

(** The action [l] in state [s]. *)
Definition act (c : Config) (l : Label) (s : State) : Outcome :=
  match l with
  | LMain => main_step c s
  | LInterrupt => interrupt_step s
  | LTick d =>
      if 0 <? d then
        Next {| st_f := st_f s; st_first := st_first s; st_once := st_once s;
                st_procs := st_procs s; st_main := st_main s;
                st_clock := st_clock s + d; st_out := st_out s |}
      else Blocked
  | LChildExit p =>
      on_inst s p (fun i =>
        match i_child i with
        | Alive => Next (set_inst s p (with_child i Zombie))
        | _ => Blocked
        end)
  | LWaitReturn p =>
      on_inst s p (fun i =>
        match i_child i with
        | Zombie => Next (set_inst s p (with_child i Reaped))
        | _ => Blocked
        end)
  | LCloseFinished p =>
      on_inst s p (fun i =>
        match i_child i with
        | Reaped =>
            match close (i_finished i) with
            | Some _ => Next (set_inst s p (with_finished i))
            | None => Blocked
            end
        | _ => Blocked
        end)
  | LCoord p b => on_inst s p (fun i => coord_step c p i b s)
  end.

(** Nothing happens once [runStart] has returned: the program is over. *)
Definition step (c : Config) (l : Label) (s : State) : Outcome :=
  match st_main s with
  | Returned => Blocked
  | _ => act c l s
  end.

Fixpoint run (c : Config) (ls : list Label) (s : State) : Outcome :=
  match ls with
  | [] => Next s
  | l :: ls' =>
      match step c l s with
      | Next s' => run c ls' s'
      | o => o
      end
  end.

(** ** [runStart] *)

Inductive Fatal :=
| FatalError (err : error)      (* [handleError(err)] with an error *)
| FatalOutput (msg : string).   (* [of.ErrorOutput(msg)] *)

(** Modelled from the spec: [pf.HasProcess(name)], of the Procfile reader,
    is "has process named X". *)
Definition HasProcess (entries : list ProcfileEntry) (name : string) : bool :=
  existsb (fun e => String.eqb (Name e) name) entries.

(** [singleton]: [args[0]] when there is one, else [EmptyString]. *)
Definition singletonOf (c : Config) : string :=
  match args c with
  | a :: _ => a
  | [] => EmptyString
  end.

Definition newForego : Forego :=
  {| shutdown := false; teardown := false; teardownNow := false; wg := 0 |}.

(** Modelled from the spec: [handleError(err)], defined elsewhere in the
    repository, is the path of a "fatal configuration error": with an error
    the program "does not start any processes" and ends; without one
    [runStart] goes on. *)
Definition handleError (err : option error) : option Fatal :=
  match err with
  | Some e => Some (FatalError e)
  | None => None
  end.

(** Modelled from the spec: [of.ErrorOutput(msg)] is the output router's
    "fatalMessage": "fatal immediately terminates the whole program". *)
Definition ErrorOutput (msg : string) : Fatal := FatalOutput msg.

(** [runStart] up to its loops: the state in which the loops begin, or the
    fatal end before them.  ([ReadProcfile] and [ReadEnv] have succeeded:
    their results are in [c].) *)
Definition runStart (c : Config) : Fatal + State :=
  let '(concurrency, err) := parseConcurrency (flagConcurrency c) in
  match handleError err with
  | Some fatal => inl fatal
  | None =>
      let singleton := singletonOf c in
      if match args c with [] => false | _ => negb (HasProcess (Entries c) singleton) end
      then inl (ErrorOutput ("no such process: " +:+ singleton))
      else
        inr {| st_f := newForego; st_first := true; st_once := false;
               st_procs := [];
               st_main := InLoop (fanout concurrency singleton (Entries c));
               st_clock := 0; st_out := [] |}
  end.

(** The states an execution of [start] can be in. *)
Definition Reachable (c : Config) (s : State) : Prop :=
  exists s0 ls, runStart c = inr s0 /\ run c ls s0 = Next s.

(** ** Notions the statements below use *)

(** A byte that starts no white-space rune and ends none: ASCII and not a
    space. *)
Definition plain (a : ascii) : bool :=
  (byte_code a <? 128) && negb (Strings.space1 a).

Fixpoint all_plain (s : string) : bool :=
  match s with
  | EmptyString => true
  | String a r => plain a && all_plain r
  end.

(** A string made of white-space runes only. *)
Inductive AllSpace : string -> Prop :=
| AllSpace_nil : AllSpace EmptyString
| AllSpace_1 a s : Strings.space1 a = true -> AllSpace s -> AllSpace (String a s)
| AllSpace_2 a b s :
    Strings.space2 a b = true -> AllSpace s -> AllSpace (String a (String b s))
| AllSpace_3 a b c s :
    Strings.space3 a b c = true -> AllSpace s ->
    AllSpace (String a (String b (String c s))).

(** White-space runes read in the direction [fwd] (see [trim_lead]). *)
Inductive SpaceRunes (fwd : bool) : string -> Prop :=
| SpaceRunes_nil : SpaceRunes fwd EmptyString
| SpaceRunes_1 a s :
    Strings.space1 a = true -> SpaceRunes fwd s -> SpaceRunes fwd (String a s)
| SpaceRunes_2 a b s :
    (if fwd then Strings.space2 a b else Strings.space2 b a) = true ->
    SpaceRunes fwd s -> SpaceRunes fwd (String a (String b s))
| SpaceRunes_3 a b c s :
    (if fwd then Strings.space3 a b c else Strings.space3 c b a) = true ->
    SpaceRunes fwd s -> SpaceRunes fwd (String a (String b (String c s))).

(** Decimal numerals, as the spec's "integer value" reads. *)
Definition is_digit (a : ascii) : bool :=
  (48 <=? byte_code a) && (byte_code a <=? 57).

Fixpoint all_digits (s : string) : bool :=
  match s with
  | EmptyString => true
  | String a r => is_digit a && all_digits r
  end.

(** The number a digit string denotes, continuing from [acc]. *)
Fixpoint digits_value (s : string) (acc : Z) : Z :=
  match s with
  | EmptyString => acc
  | String a r => digits_value r (acc * 10 + (byte_code a - 48))
  end.


Inductive Sign := NoSign | Plus | Minus.

Definition sign_str (sg : Sign) : string :=
  match sg with NoSign => EmptyString | Plus => "+" | Minus => "-" end.

(** The numeral with sign [sg] and digits [ds], and the integer it
    denotes. *)
Definition numeral (sg : Sign) (ds : string) : string := sign_str sg +:+ ds.
Definition numeral_value (sg : Sign) (ds : string) : Z :=
  match sg with
  | Minus => - digits_value ds 0
  | _ => digits_value ds 0
  end.

(** The cutoff of the digit loop in base 10. *)
Definition cutoff10 : Z := Strconv.maxUint64 / 10 + 1.

(** The name and the value of a part, as the loop body takes them. *)
Definition nameOf (part : string) : string :=
  Strings.TrimSpace (nth 0 (Strings.Split part "=") EmptyString).
Definition valueOf (part : string) : string :=
  Strings.TrimSpace (nth 1 (Strings.Split part "=") EmptyString).


(** A name that needs no trimming and holds no separator. *)
Definition plain_name (name : string) : bool :=
  negb (String.eqb name EmptyString) && all_plain name
  && negb (Strings.Contains name ",") && negb (Strings.Contains name "=").

(** Success of [parseConcurrency] with non-negative counts only. *)
Definition counts_nonnegative : Prop :=
  forall value m, parseConcurrency value = (m, None) ->
                  map_Forall (fun _ v => 0 <= v) m.

(** The replicas a concurrency mapping asks for over the templates: the
    count of each template's entry, 1 without one; a count below 1 asks
    for none. *)
Fixpoint totalReplicas (concurrency : gmap string Z) (entries : list ProcfileEntry)
  : nat :=
  match entries with
  | [] => 0%nat
  | proc :: rest =>
      (Z.to_nat (numProcsOf concurrency proc) + totalReplicas concurrency rest)%nat
  end.

(** The coordination goroutines that have not run [f.wg.Done()] yet. *)
Definition running (i : Instance) : Z :=
  match i_pc i with CoordDone => 0 | _ => 1 end.

Fixpoint running_count (l : list Instance) : Z :=
  match l with
  | [] => 0
  | i :: r => running i + running_count r
  end.

(** The replicas of the instances that [runStart] itself started, in the
    order of the calls. *)
Fixpoint from_main (l : list Instance) : list Replica :=
  match l with
  | [] => []
  | i :: r =>
      match ps_parent (i_ps i) with
      | None => ps_replica (i_ps i) :: from_main r
      | Some _ => from_main r
      end
  end.

Definition pending (s : State) : list Replica :=
  match st_main s with
  | InLoop p => p
  | _ => []
  end.

(** The calls the loops of [runStart] make for configuration [c]. *)
Definition planned (c : Config) : list Replica :=
  fanout (fst (parseConcurrency (flagConcurrency c))) (singletonOf c) (Entries c).

(** What holds of every instance, given the barriers and the clock. *)
Record inst_ok (c : Config) (f : Forego) (clk : Z) (i : Instance) : Prop := {
  ok_ps : exists parent, i_ps i = newProcess c (ps_replica (i_ps i)) parent;
  ok_finished : i_finished i = true -> i_child i = Reaped;
  ok_done : i_pc i = CoordDone -> i_finished i = true;
  ok_select : i_pc i = AtSelect ->
              i_sigterm i = 0%nat /\ i_kill i = 0%nat /\ i_timer i = None;
  ok_grace : i_pc i = AtGraceSelect -> i_sigterm i = 1%nat /\ i_kill i = 0%nat;
  ok_bounds : (i_sigterm i <= 1)%nat /\ (i_kill i <= 1)%nat;
  ok_sigterm : i_sigterm i = 1%nat ->
               teardown f = true /\ osHaveSigTerm c = true /\
               exists t0, i_timer i = Some t0 /\ t0 <= clk;
  ok_escalated : i_sigterm i = 1%nat -> i_kill i = 1%nat ->
                 teardownNow f = true \/
                 exists t0, i_timer i = Some t0 /\ t0 + shutdownGraceTime <= clk;
  ok_direct : i_sigterm i = 0%nat -> i_kill i = 1%nat ->
              teardown f = true /\ osHaveSigTerm c = false
}.

(** The invariant of the supervisor. *)
Record Inv (c : Config) (s : State) : Prop := {
  inv_wg : wg (st_f s) = running_count (st_procs s);
  inv_procs : Forall (inst_ok c (st_f s) (st_clock s)) (st_procs s);
  inv_once : shutdown (st_f s) = teardown (st_f s);
  inv_now : teardownNow (st_f s) = st_once s;
  inv_urgent : teardownNow (st_f s) = true -> teardown (st_f s) = true;
  inv_main : (forall p, st_main s <> InLoop p) -> teardown (st_f s) = true;
  inv_returned : st_main s = Returned -> wg (st_f s) = 0;
  inv_planned : from_main (st_procs s) ++ pending s = planned c
}.

(** The moves of one instance: its child, its waiter goroutine and its
    coordination goroutine, in a state [s] of the supervisor. *)
Inductive inst_move (c : Config) (s : State) : Instance -> Instance -> Prop :=
| mv_exit i : i_child i = Alive -> inst_move c s i (with_child i Zombie)
| mv_wait i : i_child i = Zombie -> inst_move c s i (with_child i Reaped)
| mv_close i :
    i_child i = Reaped -> i_finished i = false -> inst_move c s i (with_finished i)
| mv_natural i :
    i_pc i = AtSelect -> i_finished i = true -> inst_move c s i (with_pc i AtDeferred)
| mv_kill_now i :
    i_pc i = AtSelect -> teardown (st_f s) = true -> osHaveSigTerm c = false ->
    inst_move c s i (killed i)
| mv_sigterm i :
    i_pc i = AtSelect -> teardown (st_f s) = true -> osHaveSigTerm c = true ->
    inst_move c s i (sigterm_sent i (st_clock s))
| mv_exited i :
    i_pc i = AtGraceSelect -> i_finished i = true ->
    inst_move c s i (with_pc i AtDeferred)
| mv_timer i t0 :
    i_pc i = AtGraceSelect -> i_timer i = Some t0 ->
    t0 + shutdownGraceTime <= st_clock s ->
    inst_move c s i (killed i)
| mv_urgent i :
    i_pc i = AtGraceSelect -> teardownNow (st_f s) = true ->
    inst_move c s i (killed i)
| mv_done i :
    i_pc i = AtDeferred -> i_finished i = true -> inst_move c s i (with_pc i CoordDone).

(** The coordination goroutine has left its [select]s. *)
Definition settled (i : Instance) : Prop :=
  i_pc i = AtDeferred \/ i_pc i = CoordDone.

(** The instances after an action: at most one has moved, and at most one
    was started. *)
Definition procs_step (c : Config) (s s' : State) : Prop :=
  exists procs1 tail,
    st_procs s' = procs1 ++ tail /\
    (procs1 = st_procs s \/
     exists q i i', st_procs s !! q = Some i /\ inst_move c s i i' /\
                    procs1 = <[q := i']> (st_procs s)) /\
    (tail = [] \/ exists r parent, tail = [newInstance c r parent]).

(** [s'] is reached from [s] by actions that touch instance [p] only,
    leaving it as [i'], start nothing and leave [runStart] where it is. *)
Definition drives (c : Config) (p : nat) (s s' : State) (i' : Instance) : Prop :=
  exists ls, run c ls s = Next s' /\ st_main s' = st_main s /\
             st_procs s' = <[p := i']> (st_procs s).

(** Two instances of one replica: same [ReplicaKey] and template, same
    display name, same port, same environment. *)
Definition same_process (i j : Instance) : Prop :=
  ps_replica (i_ps j) = ps_replica (i_ps i) /\
  ps_procName (i_ps j) = ps_procName (i_ps i) /\
  ps_port (i_ps j) = ps_port (i_ps i) /\
  ps_Env (i_ps j) = ps_Env (i_ps i).

(** [n] calls of [SignalShutdown], one after the other. *)
Fixpoint SignalShutdown_times (n : nat) (f : Forego) : option Forego :=
  match n with
  | O => Some f
  | S k =>
      match SignalShutdown f with
      | Some f' => SignalShutdown_times k f'
      | None => None
      end
  end.


(** The example of the spec: templates [web] and [worker] (whatever their
    commands), concurrency ["web=2,worker=1"], base port 5000, no filter. *)
Definition exampleConfig (cmdWeb cmdWorker : string) (e : gmap string string)
           (restart sigterm : bool) : Config :=
  {| flagPort := 5000; flagRestart := restart;
     flagConcurrency := "web=2,worker=1"; osHaveSigTerm := sigterm;
     Entries := [ {| Name := "web"; Command := cmdWeb |};
                  {| Name := "worker"; Command := cmdWorker |} ];
     env := e; args := [] |}.

(** Display name, port and [PORT] variable of an instance. *)
Definition assignment (i : Instance) : string * Z * option string :=
  (ps_procName (i_ps i), ps_port (i_ps i), ps_Env (i_ps i) !! "PORT").

(** A run of the example used below: [restart] and the platform as given,
    the state after the actions [ls]. *)
Definition demo (restart sigterm : bool) : Config :=
  exampleConfig "bin/web" "bin/worker" ∅ restart sigterm.

Definition demo0 (restart sigterm : bool) : State :=
  {| st_f := newForego; st_first := true; st_once := false; st_procs := [];
     st_main := InLoop (planned (demo restart sigterm));
     st_clock := 0; st_out := [] |}.

Definition after (restart sigterm : bool) (ls : list Label) : State :=
  match run (demo restart sigterm) ls (demo0 restart sigterm) with
  | Next s => s
  | _ => demo0 restart sigterm
  end.

Definition inst_at (s : State) (p : nat) : Instance :=
  match st_procs s !! p with
  | Some i => i
  | None => newInstance (demo false true)
                        {| r_idx := 0; r_procNum := 0;
                           r_proc := {| Name := EmptyString; Command := EmptyString |} |} None
  end.

Definition started : list Label := [LMain; LMain; LMain].

(** [web.2] has exited, was reaped, and [finished] is closed. *)
Definition web2_exited : list Label :=
  started ++ [LChildExit 1; LWaitReturn 1; LCloseFinished 1].

(** An interrupt, and the coordinator of [web.1] has sent SIGTERM. *)
Definition web1_sigterm : list Label := started ++ [LInterrupt; LCoord 0 OnTeardown].

(** The three starts, the natural exit of [web.2], the group torn down. *)
Definition shutdown_run : list Label :=
  [ LMain; LMain; LMain;
    LChildExit 1; LWaitReturn 1; LCloseFinished 1; LCoord 1 OnFinished;
    LCoord 0 OnTeardown; LCoord 2 OnTeardown; LMain;
    LTick shutdownGraceTime; LCoord 0 OnTimer;
    LInterrupt; LInterrupt; LCoord 2 OnTeardownNow; LCoord 1 OnDeferred;
    LChildExit 0; LWaitReturn 0; LCloseFinished 0; LCoord 0 OnDeferred;
    LChildExit 2; LWaitReturn 2; LCloseFinished 2; LCoord 2 OnDeferred;
    LMain ].

(** ** Notions of the further properties *)

(** A field that [TrimSpace] leaves as it is: not empty, its first and its
    last byte plain. *)
Definition trimmed (s : string) : bool :=
  match s, Strings.reverse s with
  | String x _, String y _ => plain x && plain y
  | _, _ => false
  end.

(** A field without the separators of a concurrency spec. *)
Definition no_seps (s : string) : bool :=
  negb (Strings.Contains s ",") && negb (Strings.Contains s "=").

(** The [ReplicaKey] of a [startProcess] call: template index and replica
    index. *)
Definition replica_key (r : Replica) : Z * Z := (r_idx r, r_procNum r).

(** The filter of the inner loop: [singleton] is empty or is
    [proc.Name]. *)
Definition passes (singleton : string) (proc : ProcfileEntry) : bool :=
  String.eqb singleton EmptyString || String.eqb singleton (Name proc).

(** The templates of a given name. *)
Definition named (name : string) (entries : list ProcfileEntry) : list ProcfileEntry :=
  List.filter (fun e => String.eqb name (Name e)) entries.

(** [init]: the flags of [start] with their default values, [-p 5000],
    [-c] empty, [-r] off; the Procfile, the environment, the arguments and
    the platform as given. *)
Definition defaultConfig (sigterm : bool) (entries : list ProcfileEntry)
           (e : gmap string string) (arguments : list string) : Config :=
  {| flagPort := 5000; flagRestart := false; flagConcurrency := EmptyString;
     osHaveSigTerm := sigterm; Entries := entries; env := e; args := arguments |}.

(** ** The actions of the supervisor as rules *)

(** The state after [f.startProcess(...)] for replica [r], called by
    [parent], in state [s]. *)
Definition spawn (c : Config) (r : Replica) (parent : option nat) (s : State) : State :=
  {| st_f := {| shutdown := shutdown (st_f s); teardown := teardown (st_f s);
                teardownNow := teardownNow (st_f s); wg := wg (st_f s) + 1 |};
     st_first := st_first s; st_once := st_once s;
     st_procs := st_procs s ++ [newInstance c r parent];
     st_main := st_main s; st_clock := st_clock s;
     st_out := System (startingLine (procNameOf (r_proc r) (r_procNum r))
                                    (portOf c (r_idx r))) :: st_out s |}.

(** [Forego] with the graceful barrier tripped. *)
Definition tripped (f : Forego) : Forego :=
  {| shutdown := true; teardown := true; teardownNow := teardownNow f; wg := wg f |}.

(** [Forego] after [f.wg.Done()]. *)
Definition done_one (f : Forego) : Forego :=
  {| shutdown := shutdown f; teardown := teardown f;
     teardownNow := teardownNow f; wg := wg f - 1 |}.

(** The state after [monitorInterrupt] has handled one interrupt: the
    graceful barrier tripped, the urgent one too unless this was the
    first. *)
Definition interrupted (s : State) : State :=
  {| st_f := {| shutdown := true; teardown := true;
                teardownNow := teardownNow (st_f s) || negb (st_first s);
                wg := wg (st_f s) |};
     st_first := false; st_once := st_once s || negb (st_first s);
     st_procs := st_procs s; st_main := st_main s; st_clock := st_clock s;
     st_out := Stdout "      | ctrl-c detected" :: st_out s |}.

Definition ticked (s : State) (d : Z) : State :=
  {| st_f := st_f s; st_first := st_first s; st_once := st_once s;
     st_procs := st_procs s; st_main := st_main s;
     st_clock := st_clock s + d; st_out := st_out s |}.

(** One action of an execution, by the goroutine and the place in
    [start.go] it belongs to. *)
Inductive transition (c : Config) (s : State) : State -> Prop :=
| tr_start r rest :                       (* runStart: f.startProcess(idx, i, ...) *)
    st_main s = InLoop (r :: rest) ->
    transition c s (spawn c r None (with_main s (InLoop rest)))
| tr_barrier :                            (* runStart: <-f.teardown *)
    st_main s = InLoop [] -> teardown (st_f s) = true ->
    transition c s (with_main (emit s (System "shutting down")) WgWait)
| tr_return :                             (* runStart: f.wg.Wait() *)
    st_main s = WgWait -> wg (st_f s) = 0 ->
    transition c s (with_main s Returned)
| tr_interrupt :                          (* monitorInterrupt *)
    transition c s (interrupted s)
| tr_tick d : 0 < d -> transition c s (ticked s d)
| tr_exit p i :                           (* the child terminates *)
    st_procs s !! p = Some i -> i_child i = Alive ->
    transition c s (set_inst s p (with_child i Zombie))
| tr_wait p i :                           (* ps.Wait() returns *)
    st_procs s !! p = Some i -> i_child i = Zombie ->
    transition c s (set_inst s p (with_child i Reaped))
| tr_close p i :                          (* close(finished) *)
    st_procs s !! p = Some i -> i_child i = Reaped -> i_finished i = false ->
    transition c s (set_inst s p (with_finished i))
| tr_restart p i :                        (* <-finished, flagRestart *)
    st_procs s !! p = Some i -> i_pc i = AtSelect -> i_finished i = true ->
    flagRestart c = true ->
    transition c s (spawn c (ps_replica (i_ps i)) (Some p)
                          (set_inst s p (with_pc i AtDeferred)))
| tr_natural p i :                        (* <-finished, f.SignalShutdown() *)
    st_procs s !! p = Some i -> i_pc i = AtSelect -> i_finished i = true ->
    flagRestart c = false ->
    transition c s (with_f (set_inst s p (with_pc i AtDeferred)) (tripped (st_f s)))
| tr_kill_now p i :                       (* <-f.teardown, !osHaveSigTerm *)
    st_procs s !! p = Some i -> i_pc i = AtSelect -> teardown (st_f s) = true ->
    osHaveSigTerm c = false ->
    transition c s (set_inst (emit s (killingLine i)) p (killed i))
| tr_sigterm p i :                        (* <-f.teardown, ps.SendSigTerm() *)
    st_procs s !! p = Some i -> i_pc i = AtSelect -> teardown (st_f s) = true ->
    osHaveSigTerm c = true ->
    transition c s (set_inst (emit s (sigtermLine i)) p (sigterm_sent i (st_clock s)))
| tr_exited p i :                         (* inner select: <-finished *)
    st_procs s !! p = Some i -> i_pc i = AtGraceSelect -> i_finished i = true ->
    transition c s (set_inst s p (with_pc i AtDeferred))
| tr_timer p i t0 :                       (* inner select: <-time.After(...) *)
    st_procs s !! p = Some i -> i_pc i = AtGraceSelect -> i_timer i = Some t0 ->
    t0 + shutdownGraceTime <= st_clock s ->
    transition c s (set_inst (emit s (killingLine i)) p (killed i))
| tr_urgent p i :                         (* inner select: <-f.teardownNow *)
    st_procs s !! p = Some i -> i_pc i = AtGraceSelect ->
    teardownNow (st_f s) = true ->
    transition c s (set_inst (emit s (killingLine i)) p (killed i))
| tr_done p i :                           (* deferred <-finished, f.wg.Done() *)
    st_procs s !! p = Some i -> i_pc i = AtDeferred -> i_finished i = true ->
    transition c s (with_f (set_inst s p (with_pc i CoordDone)) (done_one (st_f s))).

(** The lines [monitorInterrupt] has printed, one per interrupt handled. *)
Fixpoint ctrl_c_lines (out : list Out) : nat :=
  match out with
  | [] => 0%nat
  | Stdout _ :: r => S (ctrl_c_lines r)
  | System _ :: r => ctrl_c_lines r
  end.

(** The coordinator of [i] left its outer [select] by [<-finished]: the
    process exited on its own and was sent no signal. *)
Definition natural_exit (i : Instance) : Prop :=
  i_finished i = true /\ settled i /\ i_sigterm i = 0%nat /\ i_kill i = 0%nat.

(** The process of [i] has exited and been waited for, and the coordinator
    of [i] has left its [select]s. *)
Definition over (i : Instance) : Prop := i_finished i = true /\ settled i.

(** What an action does to the list of instances: [procs1] are the old
    instances, at most one of them moved; [tail] is the instance started,
    if any, by [runStart] or by the restart of [p]. *)
Definition procs_change (c : Config) (s : State) (procs1 tail : list Instance) : Prop :=
  length procs1 = length (st_procs s) /\
  (forall q j0, st_procs s !! q = Some j0 ->
     exists j, procs1 !! q = Some j /\ (j = j0 \/ inst_move c s j0 j)) /\
  from_main procs1 = from_main (st_procs s) /\
  (tail = [] \/
   (exists r rest, st_main s = InLoop (r :: rest) /\ tail = [newInstance c r None]) \/
   (exists p i, st_procs s !! p = Some i /\ i_pc i = AtSelect /\
                i_finished i = true /\ flagRestart c = true /\
                procs1 !! p = Some (with_pc i AtDeferred) /\
                tail = [newInstance c (ps_replica (i_ps i)) (Some p)])).

(** The [ReplicaKey] of an instance. *)
Definition inst_key (i : Instance) : Z * Z := replica_key (ps_replica (i_ps i)).

(** Where restarted instances come from, and which instances of a key can
    still be running. *)
Record lineage (c : Config) (s : State) : Prop := {
  lin_parent : forall q j p,
    st_procs s !! q = Some j -> ps_parent (i_ps j) = Some p ->
    flagRestart c = true /\ (p < q)%nat /\
    exists i, st_procs s !! p = Some i /\ same_process i j /\ over i;
  lin_keys : forall q j,
    st_procs s !! q = Some j ->
    In (inst_key j) (map replica_key (from_main (st_procs s)));
  lin_latest : forall p q i j,
    (p < q)%nat -> st_procs s !! p = Some i -> st_procs s !! q = Some j ->
    inst_key i = inst_key j -> over i
}.

(** How far a child and a coordination goroutine have come. *)
Definition child_rank (ch : Child) : nat :=
  match ch with Alive => 0 | Zombie => 1 | Reaped => 2 end.

Definition pc_rank (pc : CoordPC) : nat :=
  match pc with AtSelect => 0 | AtGraceSelect => 1 | AtDeferred => 2 | CoordDone => 3 end.

(** [i'] is [i] later on: the same [Process], nothing undone. *)
Definition grown (i i' : Instance) : Prop :=
  i_ps i' = i_ps i /\
  (child_rank (i_child i) <= child_rank (i_child i'))%nat /\
  (i_finished i = true -> i_finished i' = true) /\
  (pc_rank (i_pc i) <= pc_rank (i_pc i'))%nat /\
  (i_sigterm i <= i_sigterm i')%nat /\ (i_kill i <= i_kill i')%nat.

(** The lines [startProcess] writes with [of.SystemOutput] for one
    instance, given what its coordinator has done. *)
Definition lines_of (i : Instance) : list Out :=
  System (startingLine (ps_procName (i_ps i)) (ps_port (i_ps i))) ::
  repeat (sigtermLine i) (i_sigterm i) ++ repeat (killingLine i) (i_kill i).

(** The line of [runStart], once it is past [<-f.teardown]. *)
Definition main_lines (m : MainPC) : list Out :=
  match m with InLoop _ => [] | _ => [System "shutting down"] end.

Definition is_System (o : Out) : bool :=
  match o with System _ => true | Stdout _ => false end.

(** The example started with a filter argument. *)
Definition demo_only (name : string) : Config :=
  {| flagPort := 5000; flagRestart := false;
     flagConcurrency := "web=2,worker=1"; osHaveSigTerm := true;
     Entries := [ {| Name := "web"; Command := "bin/web" |};
                  {| Name := "worker"; Command := "bin/worker" |} ];
     env := ∅; args := [name] |}.

(** The three starts and one interrupt. *)
Definition one_interrupt : list Label := started ++ [LInterrupt].

(** [web.2] has exited and its coordinator has taken [<-finished]. *)
Definition web2_finished : list Label := web2_exited ++ [LCoord 1 OnFinished].

(** * Proofs *)

Ltac zbool :=
  repeat match goal with
  | H : _ && _ = true |- _ => apply andb_true_iff in H; destruct H
  | H : _ || _ = true |- _ => apply orb_true_iff in H; destruct H
  | H : _ || _ = false |- _ => apply orb_false_iff in H; destruct H
  | H : negb _ = true |- _ => apply negb_true_iff in H
  | H : negb _ = false |- _ => apply negb_false_iff in H
  | H : (_ =? _) = true |- _ => apply Z.eqb_eq in H
  | H : (_ =? _) = false |- _ => apply Z.eqb_neq in H
  | H : (_ <=? _) = true |- _ => apply Z.leb_le in H
  | H : (_ <=? _) = false |- _ => apply Z.leb_gt in H
  | H : (_ <? _) = true |- _ => apply Z.ltb_lt in H
  | H : (_ <? _) = false |- _ => apply Z.ltb_ge in H
  end.

Section SplitFacts.
Import Strings.
Variable sep : ascii.

Lemma Split_nonempty s : Split s sep <> [].
Proof.
  destruct s as [|c r]; simpl; [discriminate|].
  destruct (Ascii.eqb c sep); [discriminate|].
  destruct (Split r sep); discriminate.
Qed.

Lemma Split_no_sep s : Contains s sep = false -> Split s sep = [s].
Proof.
  induction s as [|c r IH]; simpl; [reflexivity|].
  destruct (Ascii.eqb c sep); [discriminate|].
  intros H. rewrite (IH H). reflexivity.
Qed.

Lemma Split_Contains_length s :
  Contains s sep = true -> (2 <= length (Split s sep))%nat.
Proof.
  induction s as [|c r IH]; simpl; [discriminate|].
  destruct (Ascii.eqb c sep).
  - intros _. pose proof (Split_nonempty r).
    destruct (Split r sep); [congruence|simpl; lia].
  - intros H. specialize (IH H).
    destruct (Split r sep); simpl in *; lia.
Qed.

Lemma Split_app a b :
  Contains a sep = false ->
  Split (a +:+ String sep b) sep = a :: Split b sep.
Proof.
  induction a as [|c r IH]; simpl.
  - rewrite Ascii.eqb_refl. reflexivity.
  - destruct (Ascii.eqb c sep); [discriminate|].
    intros H. rewrite (IH H). reflexivity.
Qed.

Lemma Contains_app a b :
  Contains (a +:+ b) sep = Contains a sep || Contains b sep.
Proof.
  induction a as [|c r IH]; simpl; [reflexivity|].
  destruct (Ascii.eqb c sep); [reflexivity|exact IH].
Qed.
End SplitFacts.

Section TrimFacts.
Import Strings.

Lemma reverse_rev_onto s acc : reverse (rev_onto s acc) = rev_onto acc s.
Proof.
  revert acc. induction s as [|c r IH]; intros acc; simpl.
  - reflexivity.
  - rewrite IH. reflexivity.
Qed.

Lemma reverse_involutive s : reverse (reverse s) = s.
Proof. unfold reverse at 2. rewrite reverse_rev_onto. reflexivity. Qed.

(** The bytes of the white-space runes. *)
Lemma space1_code a :
  space1 a = true -> 9 <= byte_code a <= 13 \/ byte_code a = 32.
Proof. unfold space1. cbv zeta. intros H. zbool; lia. Qed.

Lemma space2_codes a b :
  space2 a b = true -> byte_code a = 194 /\ 133 <= byte_code b.
Proof. unfold space2. intros H. zbool; lia. Qed.

Lemma space3_codes a b c :
  space3 a b c = true -> 225 <= byte_code a <= 227 /\ 128 <= byte_code c.
Proof. unfold space3. cbv zeta. intros H. zbool; lia. Qed.

Lemma trim_lead_plain fwd a r :
  plain a = true -> trim_lead fwd (String a r) = String a r.
Proof.
  unfold plain. intros H. zbool.
  cbn [trim_lead]. rewrite H0.
  destruct r as [|b r2]; [reflexivity|].
  assert (E2 : (if fwd then space2 a b else space2 b a) = false).
  { destruct fwd.
    - destruct (space2 a b) eqn:E; [apply space2_codes in E; lia|reflexivity].
    - destruct (space2 b a) eqn:E; [apply space2_codes in E; lia|reflexivity]. }
  rewrite E2. destruct r2 as [|c r3]; [reflexivity|].
  assert (E3 : (if fwd then space3 a b c else space3 c b a) = false).
  { destruct fwd.
    - destruct (space3 a b c) eqn:E; [apply space3_codes in E; lia|reflexivity].
    - destruct (space3 c b a) eqn:E; [apply space3_codes in E; lia|reflexivity]. }
  rewrite E3. reflexivity.
Qed.

Lemma all_plain_rev_onto s acc :
  all_plain (rev_onto s acc) = all_plain s && all_plain acc.
Proof.
  revert acc. induction s as [|c r IH]; intros acc; simpl; [reflexivity|].
  rewrite IH. simpl. destruct (plain c), (all_plain r); reflexivity.
Qed.

Lemma trim_lead_all_plain fwd s : all_plain s = true -> trim_lead fwd s = s.
Proof.
  destruct s as [|a r]; [reflexivity|]. simpl all_plain. intros H. zbool.
  apply trim_lead_plain; assumption.
Qed.

Lemma TrimSpace_all_plain s : all_plain s = true -> TrimSpace s = s.
Proof.
  intros H. unfold TrimSpace.
  rewrite (trim_lead_all_plain true s H).
  rewrite trim_lead_all_plain.
  - apply reverse_involutive.
  - unfold reverse. rewrite all_plain_rev_onto, H. reflexivity.
Qed.
End TrimFacts.

Ltac zcases :=
  repeat match goal with
         | |- context [?x =? ?y] => destruct (Z.eqb_spec x y)
         | |- context [?x <=? ?y] => destruct (Z.leb_spec x y)
         | |- context [?x <? ?y] => destruct (Z.ltb_spec x y)
         | H : context [?x =? ?y] |- _ => destruct (Z.eqb_spec x y)
         | H : context [?x <=? ?y] |- _ => destruct (Z.leb_spec x y)
         | H : context [?x <? ?y] |- _ => destruct (Z.ltb_spec x y)
         end.

Section Blank.
Import Strings.

Lemma space2_not_space1 a b : space2 a b = true -> space1 a = false.
Proof.
  intros H. apply space2_codes in H.
  destruct (space1 a) eqn:E; [apply space1_code in E; lia|reflexivity].
Qed.

Lemma space3_not_space1 a b c : space3 a b c = true -> space1 a = false.
Proof.
  intros H. apply space3_codes in H.
  destruct (space1 a) eqn:E; [apply space1_code in E; lia|reflexivity].
Qed.

Lemma space3_not_space2 a b c : space3 a b c = true -> space2 a b = false.
Proof.
  intros H. apply space3_codes in H.
  destruct (space2 a b) eqn:E; [apply space2_codes in E; lia|reflexivity].
Qed.

Lemma trim_lead_AllSpace s : AllSpace s -> trim_lead true s = EmptyString.
Proof.
  induction 1 as [|a s H _ IH|a b s H _ IH|a b c s H _ IH].
  - reflexivity.
  - cbn [trim_lead]. rewrite H. exact IH.
  - cbn [trim_lead]. rewrite (space2_not_space1 _ _ H), H. exact IH.
  - cbn [trim_lead].
    rewrite (space3_not_space1 _ _ _ H), (space3_not_space2 _ _ _ H), H.
    exact IH.
Qed.

Lemma TrimSpace_AllSpace s : AllSpace s -> TrimSpace s = EmptyString.
Proof. intros H. unfold TrimSpace. rewrite (trim_lead_AllSpace s H). reflexivity. Qed.
End Blank.

Section ParseFacts.
Import Strconv.

Lemma digit_of_digit a :
  is_digit a = true -> digit_of (byte_code a) = Some (byte_code a - 48).
Proof. unfold is_digit, digit_of. intros H. rewrite H. reflexivity. Qed.


Lemma loop_result base maxVal cutoff s n v e :
  0 <= n <= maxVal ->
  parseUint_loop base maxVal cutoff s n = (v, e) ->
  match e with
  | None => 0 <= v <= maxVal
  | Some ErrRange => v = maxVal
  | Some ErrSyntax => v = 0
  end.
Proof.
  revert n. induction s as [|ch r IH]; intros n Hn; simpl.
  - intros [= <- <-]. exact Hn.
  - destruct (digit_of (byte_code ch)) as [d|]; [|intros [= <- <-]; reflexivity].
    destruct (base <=? d); [intros [= <- <-]; reflexivity|].
    destruct (cutoff <=? n); [intros [= <- <-]; reflexivity|].
    destruct ((_ <? _) || (_ <? _)) eqn:E; [intros [= <- <-]; reflexivity|].
    apply IH. zbool. unfold wrap64 in *.
    pose proof (Z.mod_pos_bound (n * base mod 2 ^ 64 + d) (2 ^ 64) ltac:(lia)).
    lia.
Qed.

(** A successful [ParseInt(_, _, 16)] stays within 16 signed bits. *)
Lemma ParseInt16_range s base z :
  ParseInt s base 16 = (z, None) -> -32768 <= z <= 32767.
Proof.
  unfold ParseInt. destruct s as [|c r]; [discriminate|].
  set (body := if _ || _ then r else String c r).
  destruct (parseUint body base 16) as [un e] eqn:E.
  assert (R : match e with
              | None => 0 <= un <= 65535
              | Some ErrRange => un = 65535
              | Some ErrSyntax => un = 0
              end).
  { unfold parseUint in E. destruct body; [injection E as <- <-; reflexivity|].
    eapply (loop_result base (2 ^ 16 - 1)); [|exact E]. lia. }
  change (2 ^ (16 - 1)) with 32768.
  destruct e as [[]|]; [discriminate| |].
  - subst un. destruct (Ascii.eqb c "-"); simpl; discriminate.
  - destruct (Ascii.eqb c "-"); simpl.
    + destruct (Z.ltb_spec 32768 un); [discriminate|]. intros [= <-]. lia.
    + destruct (Z.leb_spec 32768 un); [discriminate|]. intros [= <-]. lia.
Qed.

Lemma digits_value_ge s n : 0 <= n -> all_digits s = true -> n <= digits_value s n.
Proof.
  revert n. induction s as [|a r IH]; intros n Hn; simpl; [lia|].
  intros H. unfold is_digit in H. zbool.
  etransitivity; [|apply IH; [lia|assumption]]. lia.
Qed.

Lemma loop_digits maxVal s n :
  0 <= n <= maxVal -> maxVal * 10 + 9 < 2 ^ 64 ->
  all_digits s = true ->
  parseUint_loop 10 maxVal cutoff10 s n =
    if digits_value s n <=? maxVal then (digits_value s n, None)
    else (maxVal, Some ErrRange).
Proof.
  intros Hn Hc. assert (Hc' : cutoff10 = 1844674407370955162) by reflexivity.
  revert n Hn. induction s as [|a r IH]; intros n Hn; simpl.
  - intros _. destruct (Z.leb_spec n maxVal); [reflexivity|lia].
  - intros H. apply andb_true_iff in H as [Ha Hr].
    rewrite (digit_of_digit a Ha). unfold is_digit in Ha. zbool.
    destruct (Z.leb_spec 10 (byte_code a - 48)); [lia|].
    destruct (Z.leb_spec cutoff10 n); [lia|].
    unfold wrap64.
    rewrite (Z.mod_small (n * 10)) by lia.
    rewrite (Z.mod_small (n * 10 + _)) by lia.
    destruct (Z.ltb_spec (n * 10 + (byte_code a - 48)) (n * 10)); [lia|].
    destruct (Z.ltb_spec maxVal (n * 10 + (byte_code a - 48))); simpl.
    + pose proof (digits_value_ge r (n * 10 + (byte_code a - 48)) ltac:(lia) Hr).
      destruct (Z.leb_spec (digits_value r (n * 10 + (byte_code a - 48))) maxVal);
        [lia|reflexivity].
    + apply IH; [lia|assumption].
Qed.

End ParseFacts.

Section BlankIff.
Import Strings.

Lemma trim_lead_empty_runes fwd n : forall s,
  (String.length s <= n)%nat -> trim_lead fwd s = EmptyString -> SpaceRunes fwd s.
Proof.
  induction n as [|n IH]; intros s Hn.
  - destruct s; [constructor|simpl in Hn; lia].
  - destruct s as [|a [|b [|c r3]]]; cbn [trim_lead]; simpl in Hn.
    + constructor.
    + destruct (space1 a) eqn:A; [|discriminate].
      intros _. apply SpaceRunes_1; [exact A|constructor].
    + destruct (space1 a) eqn:A.
      * intros H. apply SpaceRunes_1; [exact A|]. apply IH; [simpl; lia|exact H].
      * destruct (if fwd then space2 a b else space2 b a) eqn:B; [|discriminate].
        intros _. apply SpaceRunes_2; [exact B|constructor].
    + destruct (space1 a) eqn:A.
      * intros H. apply SpaceRunes_1; [exact A|]. apply IH; [simpl; lia|exact H].
      * destruct (if fwd then space2 a b else space2 b a) eqn:B.
        -- intros H. apply SpaceRunes_2; [exact B|].
           apply IH; [simpl; lia|exact H].
        -- destruct (if fwd then space3 a b c else space3 c b a) eqn:C;
             [|discriminate].
           intros H. apply SpaceRunes_3; [exact C|]. apply IH; [lia|exact H].
Qed.

Lemma SpaceRunes_AllSpace s : SpaceRunes true s <-> AllSpace s.
Proof. split; induction 1; econstructor; eassumption. Qed.

Lemma append_cons x (s t : string) : String x s +:+ t = String x (s +:+ t).
Proof. reflexivity. Qed.

Lemma append_nil (t : string) : EmptyString +:+ t = t.
Proof. reflexivity. Qed.

Lemma append_assoc (s t u : string) : (s +:+ t) +:+ u = s +:+ (t +:+ u).
Proof.
  induction s as [|x s IH]; [reflexivity|].
  rewrite !append_cons, IH. reflexivity.
Qed.

Lemma AllSpace_app s t : AllSpace s -> AllSpace t -> AllSpace (s +:+ t).
Proof.
  intros Hs Ht. induction Hs; rewrite ?append_cons, ?append_nil.
  - exact Ht.
  - apply AllSpace_1; assumption.
  - apply AllSpace_2; assumption.
  - apply AllSpace_3; assumption.
Qed.

Lemma rev_onto_app s acc : rev_onto s acc = reverse s +:+ acc.
Proof.
  unfold reverse. revert acc.
  induction s as [|a r IH]; intros acc; cbn [rev_onto]; [reflexivity|].
  rewrite (IH (String a acc)), (IH (String a EmptyString)), append_assoc.
  reflexivity.
Qed.

Lemma reverse_cons a s : reverse (String a s) = reverse s +:+ String a EmptyString.
Proof. unfold reverse at 1. cbn [rev_onto]. apply rev_onto_app. Qed.

Lemma SpaceRunes_reverse u : SpaceRunes false u -> AllSpace (reverse u).
Proof.
  induction 1 as [|a s A _ IH|a b s B _ IH|a b c s C _ IH].
  - constructor.
  - rewrite reverse_cons. apply AllSpace_app; [exact IH|].
    apply AllSpace_1; [exact A|constructor].
  - rewrite !reverse_cons, append_assoc. apply AllSpace_app; [exact IH|].
    rewrite !append_cons, append_nil. apply AllSpace_2; [exact B|constructor].
  - rewrite !reverse_cons, !append_assoc. apply AllSpace_app; [exact IH|].
    rewrite !append_cons, append_nil. apply AllSpace_3; [exact C|constructor].
Qed.

Lemma trim_lead_idem fwd n : forall s,
  (String.length s <= n)%nat ->
  trim_lead fwd (trim_lead fwd s) = trim_lead fwd s.
Proof.
  induction n as [|n IH]; intros s Hn.
  - destruct s; [reflexivity|simpl in Hn; lia].
  - destruct s as [|a [|b [|c r3]]]; simpl in Hn.
    + reflexivity.
    + cbn [trim_lead]. destruct (space1 a) eqn:A; [reflexivity|].
      cbn [trim_lead]. rewrite A. reflexivity.
    + cbn [trim_lead]. destruct (space1 a) eqn:A.
      * exact (IH (String b EmptyString) ltac:(simpl; lia)).
      * destruct (if fwd then space2 a b else space2 b a) eqn:B; [reflexivity|].
        cbn [trim_lead]. rewrite A, B. reflexivity.
    + cbn [trim_lead]. destruct (space1 a) eqn:A.
      * exact (IH (String b (String c r3)) ltac:(simpl; lia)).
      * destruct (if fwd then space2 a b else space2 b a) eqn:B.
        -- exact (IH (String c r3) ltac:(simpl; lia)).
        -- destruct (if fwd then space3 a b c else space3 c b a) eqn:C.
           ++ exact (IH r3 ltac:(lia)).
           ++ cbn [trim_lead]. rewrite A, B, C. reflexivity.
Qed.

Lemma reverse_empty s : reverse s = EmptyString -> s = EmptyString.
Proof.
  intros H. rewrite <- (reverse_involutive s), H. reflexivity.
Qed.

(** [TrimSpace] gives the empty string exactly on the strings made of
    white space only. *)
Lemma TrimSpace_empty_iff s : TrimSpace s = EmptyString <-> AllSpace s.
Proof.
  split; [|apply TrimSpace_AllSpace].
  unfold TrimSpace. intros H. apply reverse_empty in H.
  set (t := trim_lead true s) in *.
  apply (trim_lead_empty_runes false _ _ (Nat.le_refl _)) in H.
  apply SpaceRunes_reverse in H. rewrite reverse_involutive in H.
  apply trim_lead_AllSpace in H. unfold t in H.
  rewrite (trim_lead_idem true _ s (Nat.le_refl _)) in H.
  apply SpaceRunes_AllSpace.
  apply (trim_lead_empty_runes true _ _ (Nat.le_refl _)). exact H.
Qed.
End BlankIff.

Section ParseConcurrencyFacts.
Import Strconv.






Lemma parseParts_values (P : Z -> Prop) parts m m' :
  (forall v z, ParseInt v 10 16 = (z, None) -> P z) ->
  map_Forall (fun _ z => P z) m ->
  parseParts parts m = (m', None) ->
  map_Forall (fun _ z => P z) m'.
Proof.
  intros HP. revert m. induction parts as [|p ps IH]; intros m Hm; simpl.
  - intros [= <-]. exact Hm.
  - destruct (parsePart m p) as [e|m1] eqn:E; [discriminate|].
    apply IH. unfold parsePart in E.
    destruct (negb _); [discriminate|].
    destruct (_ || _); [discriminate|].
    destruct (ParseInt _ 10 16) as [z [e|]] eqn:Z; [discriminate|].
    injection E as <-. apply map_Forall_insert_2; [|exact Hm].
    eapply HP. exact Z.
Qed.
End ParseConcurrencyFacts.

Section NumeralFacts.
Import Strconv.

Lemma is_digit_not_sep a sep :
  is_digit a = true -> is_digit sep = false -> Ascii.eqb a sep = false.
Proof.
  intros Ha Hs. destruct (Ascii.eqb_spec a sep); [|reflexivity]. congruence.
Qed.

Lemma all_digits_Contains s sep :
  all_digits s = true -> is_digit sep = false -> Strings.Contains s sep = false.
Proof.
  intros H Hs. induction s as [|a r IH]; simpl in *; [reflexivity|].
  apply andb_true_iff in H as [Ha Hr].
  rewrite (is_digit_not_sep a sep Ha Hs). auto.
Qed.

Lemma is_digit_plain a : is_digit a = true -> plain a = true.
Proof.
  unfold is_digit, plain, Strings.space1. cbv zeta. intros H. zbool.
  zcases; simpl; try reflexivity; lia.
Qed.

Lemma all_digits_plain s : all_digits s = true -> all_plain s = true.
Proof.
  induction s as [|a r IH]; simpl; [reflexivity|].
  intros H. apply andb_true_iff in H as [Ha Hr].
  rewrite (is_digit_plain a Ha), (IH Hr). reflexivity.
Qed.

Lemma parseUint16_digits ds :
  ds <> EmptyString -> all_digits ds = true ->
  parseUint ds 10 16 =
    if digits_value ds 0 <=? 65535 then (digits_value ds 0, None)
    else (65535, Some ErrRange).
Proof.
  intros Hne H. unfold parseUint. destruct ds as [|a r]; [congruence|].
  change (maxUint64 / 10 + 1) with cutoff10. change (2 ^ 16 - 1) with 65535.
  apply loop_digits; [lia|lia|exact H].
Qed.

Lemma ParseInt_unsigned ds base bitSize :
  all_digits ds = true -> ds <> EmptyString ->
  ParseInt ds base bitSize =
    match parseUint ds base bitSize with
    | (_, Some ErrSyntax) => (0, Some (NumError "ParseInt" ds ErrSyntax))
    | (un, _) =>
        if 2 ^ (bitSize - 1) <=? un
        then (2 ^ (bitSize - 1) - 1, Some (NumError "ParseInt" ds ErrRange))
        else (un, None)
    end.
Proof.
  destruct ds as [|a r]; [congruence|]. intros H _.
  simpl in H. apply andb_true_iff in H as [Ha _].
  unfold ParseInt.
  rewrite (is_digit_not_sep a "+" Ha eq_refl), (is_digit_not_sep a "-" Ha eq_refl).
  cbn [orb negb andb]. reflexivity.
Qed.

(** [ParseInt(_, 10, 16)] on a numeral: its value when that fits 16
    signed bits, a range error otherwise. *)
Lemma ParseInt16_numeral sg ds :
  ds <> EmptyString -> all_digits ds = true ->
  ParseInt (numeral sg ds) 10 16 =
    let z := numeral_value sg ds in
    if (-32768 <=? z) && (z <=? 32767) then (z, None)
    else (match sg with Minus => -32768 | _ => 32767 end,
          Some (NumError "ParseInt" (numeral sg ds) ErrRange)).
Proof.
  intros Hne H.
  pose proof (parseUint16_digits ds Hne H) as E.
  pose proof (digits_value_ge ds 0 ltac:(lia) H) as Hge.
  cbv zeta. unfold numeral_value.
  destruct sg; unfold numeral, sign_str.
  - change (EmptyString +:+ ds) with ds.
    rewrite (ParseInt_unsigned ds 10 16 H Hne), E.
    change (2 ^ (16 - 1)) with 32768.
    destruct (Z.leb_spec (digits_value ds 0) 65535); cbn [negb andb];
      zcases; simpl; try reflexivity; lia.
  - change ("+" +:+ ds) with (String "+" ds).
    unfold ParseInt. cbn [Ascii.eqb Bool.eqb orb]. rewrite E.
    change (2 ^ (16 - 1)) with 32768.
    destruct (Z.leb_spec (digits_value ds 0) 65535); cbn [negb andb];
      zcases; simpl; try reflexivity; lia.
  - change ("-" +:+ ds) with (String "-" ds).
    unfold ParseInt. cbn [Ascii.eqb Bool.eqb orb]. rewrite E.
    change (2 ^ (16 - 1)) with 32768.
    destruct (Z.leb_spec (digits_value ds 0) 65535); cbn [negb andb];
      zcases; simpl; try reflexivity; lia.
Qed.

Lemma numeral_plain sg ds : all_digits ds = true -> all_plain (numeral sg ds) = true.
Proof.
  intros H. apply all_digits_plain in H.
  destruct sg; cbv [numeral sign_str String.append]; fold String.append;
    cbn [all_plain]; rewrite ?H; reflexivity.
Qed.

Lemma numeral_Contains sg ds sep :
  all_digits ds = true -> is_digit sep = false ->
  Ascii.eqb "+" sep = false -> Ascii.eqb "-" sep = false ->
  Strings.Contains (numeral sg ds) sep = false.
Proof.
  intros H Hs Hp Hm. pose proof (all_digits_Contains ds sep H Hs).
  destruct sg; unfold numeral, sign_str.
  - exact H0.
  - change ("+" +:+ ds) with (String "+" ds). cbn [Strings.Contains].
    rewrite Hp. exact H0.
  - change ("-" +:+ ds) with (String "-" ds). cbn [Strings.Contains].
    rewrite Hm. exact H0.
Qed.

Lemma numeral_nonempty sg ds : ds <> EmptyString -> numeral sg ds <> EmptyString.
Proof. intros H. destruct sg, ds; cbv [numeral sign_str String.append]; congruence. Qed.

Lemma all_plain_app a b : all_plain (a +:+ b) = all_plain a && all_plain b.
Proof.
  induction a as [|c r IH]; simpl; [reflexivity|].
  rewrite IH. destruct (plain c); reflexivity.
Qed.

(** A spec of one part [name=value] whose name and value need no
    trimming and hold no separator. *)
Lemma parseConcurrency_single name v :
  name <> EmptyString -> v <> EmptyString ->
  all_plain name = true -> all_plain v = true ->
  Strings.Contains name "," = false -> Strings.Contains name "=" = false ->
  Strings.Contains v "," = false -> Strings.Contains v "=" = false ->
  parseConcurrency (name +:+ "=" +:+ v) =
    match ParseInt v 10 16 with
    | (_, Some err) => (∅, Some err)
    | (z, None) => ({[ name := z ]}, None)
    end.
Proof.
  intros Hn Hv Pn Pv Cn En Cv Ev. unfold parseConcurrency.
  assert (Pw : all_plain (name +:+ "=" +:+ v) = true).
  { rewrite !all_plain_app, Pn, Pv. reflexivity. }
  rewrite (TrimSpace_all_plain _ Pw).
  assert (Hw : String.eqb (name +:+ "=" +:+ v) EmptyString = false).
  { apply String.eqb_neq. destruct name; [congruence|].
    cbv [String.append]. congruence. }
  rewrite Hw, Split_no_sep.
  2:{ rewrite !Contains_app, Cn, Cv. reflexivity. }
  cbn [parseParts]. unfold parsePart.
  rewrite !Contains_app. change (Strings.Contains "=" "=") with true.
  rewrite orb_true_r. cbn [negb].
  change (name +:+ "=" +:+ v) with (name +:+ String "=" v).
  rewrite (Split_app "=" name v En), (Split_no_sep "=" v Ev).
  cbn [nth]. rewrite (TrimSpace_all_plain _ Pn), (TrimSpace_all_plain _ Pv).
  apply String.eqb_neq in Hn, Hv. rewrite Hn, Hv. cbn [orb].
  destruct (ParseInt v 10 16) as [z [e|]]; reflexivity.
Qed.
End NumeralFacts.

Section Counting.
Lemma running_count_app l1 l2 :
  running_count (l1 ++ l2) = running_count l1 + running_count l2.
Proof. induction l1 as [|i r IH]; simpl; lia. Qed.

Lemma running_count_insert l p i i' :
  l !! p = Some i ->
  running_count (<[p := i']> l) = running_count l - running i + running i'.
Proof.
  revert p. induction l as [|x r IH]; intros [|p]; simpl; try discriminate.
  - intros [= ->]. lia.
  - intros H. rewrite (IH _ H). lia.
Qed.

Lemma running_nonneg i : 0 <= running i <= 1.
Proof. unfold running. destruct (i_pc i); lia. Qed.

Lemma running_count_nonneg l : 0 <= running_count l.
Proof.
  induction l as [|i r IH]; simpl; [lia|]. pose proof (running_nonneg i). lia.
Qed.

Lemma running_count_lookup l p i :
  l !! p = Some i -> running i <= running_count l.
Proof.
  revert p. induction l as [|x r IH]; intros [|p]; simpl; try discriminate.
  - intros [= ->]. pose proof (running_count_nonneg r). lia.
  - intros H. specialize (IH _ H). pose proof (running_nonneg x). lia.
Qed.


Lemma from_main_app l1 l2 : from_main (l1 ++ l2) = from_main l1 ++ from_main l2.
Proof.
  induction l1 as [|i r IH]; simpl; [reflexivity|].
  destruct (ps_parent (i_ps i)); simpl; congruence.
Qed.

Lemma from_main_insert l p i i' :
  l !! p = Some i -> i_ps i' = i_ps i -> from_main (<[p := i']> l) = from_main l.
Proof.
  revert p. induction l as [|x r IH]; intros [|p]; simpl; try discriminate.
  - intros [= ->] ->. reflexivity.
  - intros H E. rewrite (IH _ H E). reflexivity.
Qed.
End Counting.

Lemma inst_ok_mono c f f' clk clk' i :
  (teardown f = true -> teardown f' = true) ->
  (teardownNow f = true -> teardownNow f' = true) ->
  clk <= clk' ->
  inst_ok c f clk i -> inst_ok c f' clk' i.
Proof.
  intros Ht Hn Hc [].
  constructor; try assumption.
  - intros H. destruct (ok_sigterm0 H) as (? & ? & t0 & ? & ?).
    repeat split; auto. exists t0. split; [assumption|lia].
  - intros H1 H2. destruct (ok_escalated0 H1 H2) as [?|(t0 & ? & ?)]; [auto|].
    right. exists t0. split; [assumption|lia].
  - intros H1 H2. destruct (ok_direct0 H1 H2). auto.
Qed.

Lemma newInstance_ok c f clk r parent : inst_ok c f clk (newInstance c r parent).
Proof.
  constructor; simpl; try discriminate; try lia; eauto.
Qed.

Lemma SignalShutdown_trips f :
  shutdown f = teardown f ->
  SignalShutdown f =
    Some {| shutdown := true; teardown := true;
            teardownNow := teardownNow f; wg := wg f |}.
Proof.
  destruct f as [sh td tn w]. simpl. intros <-.
  unfold SignalShutdown. simpl. destruct sh; reflexivity.
Qed.

Lemma wgAdd_ok f d :
  0 <= wg f + d ->
  wgAdd f d = Some {| shutdown := shutdown f; teardown := teardown f;
                      teardownNow := teardownNow f; wg := wg f + d |}.
Proof. intros H. unfold wgAdd. destruct (Z.ltb_spec (wg f + d) 0); [lia|reflexivity]. Qed.

Section Preservation.
Variable c : Config.

Lemma Inv_emit s o : Inv c s -> Inv c (emit s o).
Proof. intros []. constructor; assumption. Qed.

(** An instance changes, its coordinator neither starting nor ending. *)
Lemma Inv_set_inst s p i i' :
  Inv c s -> st_procs s !! p = Some i ->
  inst_ok c (st_f s) (st_clock s) i' ->
  i_ps i' = i_ps i -> running i' = running i ->
  Inv c (set_inst s p i').
Proof.
  intros [] Hp Hok Hps Hrun. constructor; simpl; try assumption.
  - rewrite (running_count_insert _ _ _ _ Hp). lia.
  - apply Forall_insert; assumption.
  - rewrite (from_main_insert _ _ _ _ Hp Hps). assumption.
Qed.

Lemma Forall_ok_mono f f' clk clk' l :
  (teardown f = true -> teardown f' = true) ->
  (teardownNow f = true -> teardownNow f' = true) ->
  clk <= clk' ->
  Forall (inst_ok c f clk) l -> Forall (inst_ok c f' clk') l.
Proof.
  intros Ht Hn Hc H. eapply Forall_impl; [exact H|].
  intros i. apply inst_ok_mono; assumption.
Qed.

Lemma startProcess_Next r parent s :
  0 <= wg (st_f s) ->
  startProcess c r parent s =
    Next {| st_f := {| shutdown := shutdown (st_f s); teardown := teardown (st_f s);
                       teardownNow := teardownNow (st_f s); wg := wg (st_f s) + 1 |};
            st_first := st_first s; st_once := st_once s;
            st_procs := st_procs s ++ [newInstance c r parent];
            st_main := st_main s; st_clock := st_clock s;
            st_out := System (startingLine (procNameOf (r_proc r) (r_procNum r))
                                           (portOf c (r_idx r))) :: st_out s |}.
Proof.
  intros H. unfold startProcess. rewrite wgAdd_ok by lia. reflexivity.
Qed.

Lemma Inv_wg_nonneg s : Inv c s -> 0 <= wg (st_f s).
Proof. intros I. rewrite (inv_wg c s I). apply running_count_nonneg. Qed.

Lemma Inv_lookup s p i :
  Inv c s -> st_procs s !! p = Some i -> inst_ok c (st_f s) (st_clock s) i.
Proof. intros [] H. eapply Forall_lookup_1; eassumption. Qed.

Lemma inst_ok_lookup s p i :
  Forall (inst_ok c (st_f s) (st_clock s)) (st_procs s) ->
  st_procs s !! p = Some i -> inst_ok c (st_f s) (st_clock s) i.
Proof. intros H Hp. eapply Forall_lookup_1; eassumption. Qed.

Lemma main_Inv s s' :
  Inv c s -> main_step c s = Next s' -> Inv c s'.
Proof.
  intros I. pose proof (Inv_wg_nonneg s I) as Wg.
  destruct I as [Iwg Iprocs Ionce Inow Iurg Imain Iret Iplan].
  unfold main_step, pending in *.
  destruct (st_main s) as [[|r rest]| |] eqn:M.
  - destruct (teardown (st_f s)) eqn:T; [|discriminate].
    intros [= <-]. constructor; simpl; try assumption; congruence.
  - rewrite startProcess_Next by exact Wg. intros [= <-].
    constructor; simpl; try assumption.
    + rewrite running_count_app. cbn. lia.
    + apply Forall_app. split.
      * eapply Forall_ok_mono; [| | |exact Iprocs]; simpl; auto; lia.
      * constructor; [apply newInstance_ok|constructor].
    + intros H. exfalso. eapply H. reflexivity.
    + discriminate.
    + rewrite from_main_app. simpl. rewrite <- app_assoc. assumption.
  - destruct (Z.eqb_spec (wg (st_f s)) 0); [|discriminate].
    intros [= <-]. constructor; simpl; try assumption.
    + intros _. apply Imain. discriminate.
    + intros _. assumption.
  - discriminate.
Qed.

Lemma interrupt_Inv s s' :
  Inv c s -> interrupt_step s = Next s' -> Inv c s'.
Proof.
  intros [Iwg Iprocs Ionce Inow Iurg Imain Iret Iplan].
  unfold interrupt_step.
  assert (C : (if negb (st_first s) && negb (st_once s)
               then close (teardownNow (st_f s))
               else Some (teardownNow (st_f s)))
              = Some (st_once s || negb (st_first s))).
  { rewrite Inow. destruct (st_first s), (st_once s); reflexivity. }
  rewrite C, SignalShutdown_trips by exact Ionce. simpl.
  intros [= <-]. constructor; simpl; try assumption; try reflexivity; auto.
  eapply Forall_ok_mono; [| | |exact Iprocs]; simpl; auto; try lia.
  rewrite Inow. intros ->. reflexivity.
Qed.

Lemma tick_Inv s d :
  Inv c s -> 0 < d ->
  Inv c {| st_f := st_f s; st_first := st_first s; st_once := st_once s;
           st_procs := st_procs s; st_main := st_main s;
           st_clock := st_clock s + d; st_out := st_out s |}.
Proof.
  intros [Iwg Iprocs Ionce Inow Iurg Imain Iret Iplan] Hd.
  constructor; simpl; try assumption.
  eapply Forall_ok_mono; [| | |exact Iprocs]; auto; lia.
Qed.

Ltac ok_cases H :=
  destruct H as [Ops Ofin Odone Osel Ograce Obounds Osig Oesc Odir];
  constructor; simpl; intros;
  repeat match goal with
         | H : ?a = ?a -> _ |- _ => specialize (H eq_refl)
         | H : ?P -> _, H' : ?P |- _ => specialize (H H')
         | H : _ /\ _ |- _ => destruct H
         | H : exists _, _ |- _ => destruct H
         end;
  repeat split;
  try congruence; try lia; eauto;
  try (eexists; split; [reflexivity|lia]);
  try (right; eexists; split; [eassumption|lia]).

Lemma coord_Inv p i b s s' :
  Inv c s -> st_main s <> Returned -> st_procs s !! p = Some i ->
  coord_step c p i b s = Next s' -> Inv c s'.
Proof.
  intros I NR Hp. pose proof (Inv_wg_nonneg s I) as Wg.
  pose proof (Inv_lookup s p i I Hp) as Ok.
  unfold coord_step.
  destruct (i_pc i) eqn:PC, b; try discriminate.
  - (* outer select, <-finished *)
    destruct (i_finished i) eqn:F; [|discriminate].
    destruct (flagRestart c).
    + rewrite startProcess_Next by exact Wg. intros [= <-].
      destruct I as [Iwg Iprocs Ionce Inow Iurg Imain Iret Iplan].
      constructor; simpl; try assumption.
      * rewrite running_count_app, (running_count_insert _ _ _ _ Hp).
        unfold running. cbn. rewrite PC. lia.
      * apply Forall_app. split.
        -- eapply Forall_ok_mono with (f := st_f s) (clk := st_clock s);
             simpl; auto; try lia.
           apply Forall_insert; [assumption|]. ok_cases Ok.
        -- constructor; [apply newInstance_ok|constructor].
      * intros H. contradiction.
      * rewrite from_main_app, (from_main_insert _ _ _ _ Hp) by reflexivity.
        simpl. rewrite app_nil_r. assumption.
    + destruct I as [Iwg Iprocs Ionce Inow Iurg Imain Iret Iplan].
      rewrite SignalShutdown_trips by exact Ionce. intros [= <-].
      constructor; simpl; try assumption; auto.
      * rewrite (running_count_insert _ _ _ _ Hp).
        unfold running. cbn. rewrite PC. lia.
      * eapply Forall_ok_mono with (f := st_f s) (clk := st_clock s);
          simpl; auto; try lia.
        apply Forall_insert; [assumption|]. ok_cases Ok.
      * rewrite (from_main_insert _ _ _ _ Hp) by reflexivity. assumption.
  - (* outer select, <-f.teardown *)
    destruct (teardown (st_f s)) eqn:T; [|discriminate].
    destruct (osHaveSigTerm c) eqn:O; simpl; intros [= <-].
    + apply (Inv_set_inst (emit s (sigtermLine i)) p i);
        [apply Inv_emit; assumption|assumption| |reflexivity|].
      * simpl. ok_cases Ok.
      * unfold running. simpl. rewrite PC. reflexivity.
    + apply (Inv_set_inst (emit s (killingLine i)) p i);
        [apply Inv_emit; assumption|assumption| |reflexivity|].
      * simpl. ok_cases Ok.
      * unfold running. simpl. rewrite PC. reflexivity.
  - (* inner select, <-finished *)
    destruct (i_finished i) eqn:F; [|discriminate]. intros [= <-].
    apply (Inv_set_inst s p i); [assumption|assumption| |reflexivity|].
    + ok_cases Ok.
    + unfold running. simpl. rewrite PC. reflexivity.
  - (* inner select, timer *)
    destruct (i_timer i) as [t0|] eqn:Tm; [|discriminate].
    destruct (Z.leb_spec (t0 + shutdownGraceTime) (st_clock s)); [|discriminate].
    intros [= <-].
    apply (Inv_set_inst (emit s (killingLine i)) p i);
      [apply Inv_emit; assumption|assumption| |reflexivity|].
    + simpl. ok_cases Ok.
    + unfold running. simpl. rewrite PC. reflexivity.
  - (* inner select, <-f.teardownNow *)
    destruct (teardownNow (st_f s)) eqn:Tn; [|discriminate].
    intros [= <-].
    apply (Inv_set_inst (emit s (killingLine i)) p i);
      [apply Inv_emit; assumption|assumption| |reflexivity|].
    + simpl. ok_cases Ok.
    + unfold running. simpl. rewrite PC. reflexivity.
  - (* deferred <-finished, f.wg.Done() *)
    destruct (i_finished i) eqn:F; [|discriminate].
    destruct I as [Iwg Iprocs Ionce Inow Iurg Imain Iret Iplan].
    pose proof (running_count_lookup _ _ _ Hp) as Hr.
    unfold running in Hr. rewrite PC in Hr.
    rewrite wgAdd_ok by lia. intros [= <-].
    constructor; simpl; try assumption.
    + rewrite (running_count_insert _ _ _ _ Hp).
      unfold running. cbn. rewrite PC. lia.
    + eapply Forall_ok_mono with (f := st_f s) (clk := st_clock s);
        simpl; auto; try lia.
      apply Forall_insert; [assumption|]. ok_cases Ok.
    + intros H. specialize (Iret H). lia.
    + rewrite (from_main_insert _ _ _ _ Hp) by reflexivity. assumption.
Qed.

Lemma act_Inv l s s' :
  Inv c s -> st_main s <> Returned -> act c l s = Next s' -> Inv c s'.
Proof.
  intros I NR.
  destruct l as [| |d|p|p|p|p b]; simpl; unfold on_inst.
  - apply main_Inv. exact I.
  - apply interrupt_Inv. exact I.
  - destruct (Z.ltb_spec 0 d); [|discriminate]. intros [= <-].
    apply tick_Inv; assumption.
  - destruct (st_procs s !! p) as [i|] eqn:Hp; [|discriminate].
    pose proof (Inv_lookup s p i I Hp) as Ok.
    destruct (i_child i) eqn:Ch; try discriminate. intros [= <-].
    apply (Inv_set_inst s p i); [assumption|assumption| |reflexivity|reflexivity].
    ok_cases Ok.
  - destruct (st_procs s !! p) as [i|] eqn:Hp; [|discriminate].
    pose proof (Inv_lookup s p i I Hp) as Ok.
    destruct (i_child i) eqn:Ch; try discriminate. intros [= <-].
    apply (Inv_set_inst s p i); [assumption|assumption| |reflexivity|reflexivity].
    ok_cases Ok.
  - destruct (st_procs s !! p) as [i|] eqn:Hp; [|discriminate].
    pose proof (Inv_lookup s p i I Hp) as Ok.
    destruct (i_child i) eqn:Ch; try discriminate.
    destruct (i_finished i) eqn:F; simpl; [discriminate|]. intros [= <-].
    apply (Inv_set_inst s p i); [assumption|assumption| |reflexivity|reflexivity].
    ok_cases Ok.
  - destruct (st_procs s !! p) as [i|] eqn:Hp; [|discriminate].
    apply coord_Inv; assumption.
Qed.

Lemma step_Inv l s s' : Inv c s -> step c l s = Next s' -> Inv c s'.
Proof.
  intros I. unfold step. destruct (st_main s) eqn:M; try discriminate;
    apply act_Inv; try exact I; congruence.
Qed.

Lemma run_Inv ls s s' : Inv c s -> run c ls s = Next s' -> Inv c s'.
Proof.
  revert s. induction ls as [|l ls IH]; intros s I; simpl.
  - intros [= <-]. exact I.
  - destruct (step c l s) as [s1| |] eqn:E; try discriminate.
    apply IH. eapply step_Inv; eassumption.
Qed.

Lemma runStart_Inv s0 : runStart c = inr s0 -> Inv c s0.
Proof.
  unfold runStart.
  destruct (parseConcurrency (flagConcurrency c)) as [conc [e|]] eqn:P;
    simpl; [discriminate|].
  destruct (match args c with [] => false | _ => _ end); [discriminate|].
  intros [= <-]. constructor; simpl; try reflexivity; try discriminate; auto.
  - intros H. exfalso. eapply H. reflexivity.
  - unfold planned. rewrite P. reflexivity.
Qed.

Theorem Reachable_Inv s : Reachable c s -> Inv c s.
Proof.
  intros (s0 & ls & H0 & Hrun).
  eapply run_Inv; [apply runStart_Inv; exact H0|exact Hrun].
Qed.
End Preservation.

Section Frames.
Variable c : Config.

Lemma procs_step_same s s' : st_procs s' = st_procs s -> procs_step c s s'.
Proof.
  intros E. exists (st_procs s), []. rewrite app_nil_r. auto.
Qed.

Lemma procs_step_move s s' q i i' :
  st_procs s !! q = Some i -> inst_move c s i i' ->
  st_procs s' = <[q := i']> (st_procs s) -> procs_step c s s'.
Proof.
  intros Hq Hm E. exists (<[q := i']> (st_procs s)), [].
  rewrite app_nil_r. split; [assumption|]. split; [|auto].
  right. exists q, i, i'. auto.
Qed.

Lemma startProcess_procs r parent s s' :
  startProcess c r parent s = Next s' ->
  st_procs s' = st_procs s ++ [newInstance c r parent].
Proof.
  unfold startProcess. destruct (wgAdd (st_f s) 1); [|discriminate].
  intros [= <-]. reflexivity.
Qed.

Lemma act_procs_step l s s' : act c l s = Next s' -> procs_step c s s'.
Proof.
  destruct l as [| |d|p|p|p|p b]; simpl; unfold on_inst.
  - unfold main_step. destruct (st_main s) as [[|r rest]| |].
    + destruct (teardown (st_f s)); [|discriminate]. intros [= <-].
      apply procs_step_same. reflexivity.
    + intros H. apply startProcess_procs in H. simpl in H.
      exists (st_procs s), [newInstance c r None]. eauto 10.
    + destruct (wg (st_f s) =? 0); [|discriminate]. intros [= <-].
      apply procs_step_same. reflexivity.
    + discriminate.
  - unfold interrupt_step.
    destruct (if _ && _ then _ else _); [|discriminate].
    destruct (SignalShutdown _); [|discriminate]. intros [= <-].
    apply procs_step_same. reflexivity.
  - destruct (0 <? d); [|discriminate]. intros [= <-].
    apply procs_step_same. reflexivity.
  - destruct (st_procs s !! p) as [i|] eqn:Hp; [|discriminate].
    destruct (i_child i) eqn:Ch; try discriminate. intros [= <-].
    eapply procs_step_move; [exact Hp| |reflexivity]. constructor. exact Ch.
  - destruct (st_procs s !! p) as [i|] eqn:Hp; [|discriminate].
    destruct (i_child i) eqn:Ch; try discriminate. intros [= <-].
    eapply procs_step_move; [exact Hp| |reflexivity]. constructor. exact Ch.
  - destruct (st_procs s !! p) as [i|] eqn:Hp; [|discriminate].
    destruct (i_child i) eqn:Ch; try discriminate.
    destruct (i_finished i) eqn:F; simpl; [discriminate|]. intros [= <-].
    eapply procs_step_move; [exact Hp| |reflexivity]. constructor; assumption.
  - destruct (st_procs s !! p) as [i|] eqn:Hp; [|discriminate].
    unfold coord_step. destruct (i_pc i) eqn:PC, b; try discriminate.
    + destruct (i_finished i) eqn:F; [|discriminate].
      destruct (flagRestart c).
      * intros H. apply startProcess_procs in H. simpl in H.
        exists (<[p := with_pc i AtDeferred]> (st_procs s)),
               [newInstance c (ps_replica (i_ps i)) (Some p)].
        split; [assumption|]. split; [|eauto].
        right. exists p, i, (with_pc i AtDeferred).
        split; [assumption|]. split; [|reflexivity]. apply mv_natural; assumption.
      * destruct (SignalShutdown _); [|discriminate]. intros [= <-].
        eapply procs_step_move; [exact Hp| |reflexivity].
        apply mv_natural; assumption.
    + destruct (teardown (st_f s)) eqn:T; [|discriminate].
      destruct (osHaveSigTerm c) eqn:O; simpl; intros [= <-].
      * eapply procs_step_move; [exact Hp| |reflexivity].
        apply mv_sigterm; assumption.
      * eapply procs_step_move; [exact Hp| |reflexivity].
        apply mv_kill_now; assumption.
    + destruct (i_finished i) eqn:F; [|discriminate]. intros [= <-].
      eapply procs_step_move; [exact Hp| |reflexivity].
      apply mv_exited; assumption.
    + destruct (i_timer i) as [t0|] eqn:Tm; [|discriminate].
      destruct (Z.leb_spec (t0 + shutdownGraceTime) (st_clock s)); [|discriminate].
      intros [= <-].
      eapply procs_step_move; [exact Hp| |reflexivity].
      eapply mv_timer; eassumption.
    + destruct (teardownNow (st_f s)) eqn:Tn; [|discriminate]. intros [= <-].
      eapply procs_step_move; [exact Hp| |reflexivity].
      apply mv_urgent; assumption.
    + destruct (i_finished i) eqn:F; [|discriminate].
      destruct (wgAdd _ _); [|discriminate]. intros [= <-].
      eapply procs_step_move; [exact Hp| |reflexivity].
      apply mv_done; assumption.
Qed.

(** What an action does to the instance at index [p]. *)
Lemma act_lookup l s s' p i :
  act c l s = Next s' -> st_procs s !! p = Some i ->
  exists i', st_procs s' !! p = Some i' /\ (i' = i \/ inst_move c s i i').
Proof.
  intros H Hp. apply act_procs_step in H.
  destruct H as (procs1 & tail & -> & [->|(q & j & j' & Hq & Hm & ->)] & _).
  - exists i. split; [|auto]. apply lookup_app_l_Some. exact Hp.
  - destruct (decide (q = p)) as [->|Hne].
    + exists j'. split.
      * apply lookup_app_l_Some, list_lookup_insert_eq.
        eapply lookup_lt_Some. exact Hp.
      * right. congruence.
    + exists i. split; [|auto].
      apply lookup_app_l_Some. rewrite list_lookup_insert_ne by exact Hne.
      exact Hp.
Qed.

Lemma step_lookup l s s' p i :
  step c l s = Next s' -> st_procs s !! p = Some i ->
  exists i', st_procs s' !! p = Some i' /\ (i' = i \/ inst_move c s i i').
Proof.
  unfold step. destruct (st_main s); try discriminate; apply act_lookup.
Qed.

(** A property of an instance that no move breaks holds along every
    execution. *)
Lemma run_stable (P : Instance -> Prop) ls s s' p i :
  (forall s1 j j', inst_move c s1 j j' -> P j -> P j') ->
  run c ls s = Next s' -> st_procs s !! p = Some i -> P i ->
  exists i', st_procs s' !! p = Some i' /\ P i'.
Proof.
  intros HP. revert s i. induction ls as [|l ls IH]; intros s i; simpl.
  - intros [= <-]. eauto.
  - destruct (step c l s) as [s1| |] eqn:E; try discriminate.
    intros Hrun Hp Hi.
    destruct (step_lookup _ _ _ _ _ E Hp) as (i1 & Hp1 & [->|Hm]).
    + eapply IH; eassumption.
    + eapply IH; [eassumption|eassumption|]. eapply HP; eassumption.
Qed.

Lemma settled_stable k m s1 j j' :
  inst_move c s1 j j' ->
  settled j /\ i_kill j = k /\ i_sigterm j = m ->
  settled j' /\ i_kill j' = k /\ i_sigterm j' = m.
Proof.
  unfold settled. intros Hm (Hs & Hk & Ht).
  destruct Hm; simpl; try (destruct Hs; congruence); auto.
Qed.

(** The barriers are never untripped. *)
Lemma SignalShutdown_Some f f' :
  SignalShutdown f = Some f' ->
  (teardown f = true -> teardown f' = true) /\
  teardownNow f' = teardownNow f /\ wg f' = wg f.
Proof.
  unfold SignalShutdown. destruct (shutdown f); [intros [= <-]; auto|].
  unfold close. destruct (teardown f); [discriminate|].
  intros [= <-]. auto.
Qed.

Ltac fin := repeat split; intros; simpl in *; auto; try lia; try congruence.

Lemma act_teardown l s s' :
  act c l s = Next s' ->
  (teardown (st_f s) = true -> teardown (st_f s') = true) /\
  (teardownNow (st_f s) = true -> teardownNow (st_f s') = true) /\
  st_clock s <= st_clock s'.
Proof.
  destruct l as [| |d|p|p|p|p b]; simpl; unfold on_inst.
  - unfold main_step, startProcess, wgAdd.
    destruct (st_main s) as [[|r rest]| |]; try discriminate.
    + destruct (teardown (st_f s)) eqn:T; [|discriminate]. intros [= <-]. simpl.
      fin.
    + simpl. destruct (_ <? 0); [discriminate|]. intros [= <-]. simpl.
      fin.
    + destruct (wg (st_f s) =? 0); [|discriminate]. intros [= <-]. simpl.
      fin.
  - unfold interrupt_step.
    destruct (if _ && _ then _ else _) as [tn|] eqn:C; [|discriminate].
    destruct (SignalShutdown _) as [f2|] eqn:S; [|discriminate].
    intros [= <-]. simpl. apply SignalShutdown_Some in S. simpl in S.
    destruct S as (S1 & S2 & _). rewrite S2.
    split; [exact S1|]. split; [|lia].
    intros Tn. destruct (negb (st_first s) && negb (st_once s)).
    + unfold close in C. rewrite Tn in C. discriminate.
    + congruence.
  - destruct (0 <? d) eqn:D; [|discriminate]. intros [= <-]. simpl.
    apply Z.ltb_lt in D. fin.
  - destruct (st_procs s !! p) as [i|]; [|discriminate].
    destruct (i_child i); try discriminate. intros [= <-]. simpl.
    fin.
  - destruct (st_procs s !! p) as [i|]; [|discriminate].
    destruct (i_child i); try discriminate. intros [= <-]. simpl.
    fin.
  - destruct (st_procs s !! p) as [i|]; [|discriminate].
    destruct (i_child i); try discriminate.
    destruct (close _); [|discriminate]. intros [= <-]. simpl.
    fin.
  - destruct (st_procs s !! p) as [i|]; [|discriminate].
    unfold coord_step, startProcess, wgAdd.
    destruct (i_pc i), b; try discriminate;
      repeat match goal with
             | |- context [if ?b then _ else _] => destruct b eqn:?
             | |- context [match SignalShutdown ?f with _ => _ end] =>
                 destruct (SignalShutdown f) as [f2|] eqn:S;
                 [apply SignalShutdown_Some in S; destruct S as (S1 & S2 & _)|]
             | |- context [match i_timer ?i with _ => _ end] => destruct (i_timer i)
             end;
      try discriminate; intros [= <-]; simpl;
      fin.
Qed.

Lemma run_teardown ls s s' :
  run c ls s = Next s' ->
  (teardown (st_f s) = true -> teardown (st_f s') = true) /\
  (teardownNow (st_f s) = true -> teardownNow (st_f s') = true) /\
  st_clock s <= st_clock s'.
Proof.
  revert s. induction ls as [|l ls IH]; intros s; simpl.
  - intros [= <-]. repeat split; auto; lia.
  - destruct (step c l s) as [s1| |] eqn:E; try discriminate. intros Hrun.
    assert (A : act c l s = Next s1).
    { unfold step in E. destruct (st_main s); try discriminate; exact E. }
    apply act_teardown in A. apply IH in Hrun.
    destruct A as (A1 & A2 & A3), Hrun as (B1 & B2 & B3).
    repeat split; auto; lia.
Qed.

(** No action panics in a state the invariant holds in: no channel is
    closed twice and the [WaitGroup] counter never goes negative. *)
Lemma act_no_panic l s : Inv c s -> act c l s <> Panic.
Proof.
  intros I. pose proof (Inv_wg_nonneg c s I) as Wg.
  pose proof (inv_once c s I) as Ionce. pose proof (inv_now c s I) as Inow.
  destruct l as [| |d|p|p|p|p b]; simpl; unfold on_inst.
  - unfold main_step. destruct (st_main s) as [[|r rest]| |]; try discriminate.
    + destruct (teardown (st_f s)); discriminate.
    + rewrite startProcess_Next by (simpl; exact Wg). discriminate.
    + destruct (wg (st_f s) =? 0); discriminate.
  - unfold interrupt_step.
    replace (if negb (st_first s) && negb (st_once s)
             then close (teardownNow (st_f s))
             else Some (teardownNow (st_f s)))
      with (Some (st_once s || negb (st_first s)))
      by (rewrite Inow; destruct (st_first s), (st_once s); reflexivity).
    rewrite SignalShutdown_trips by exact Ionce. discriminate.
  - destruct (0 <? d); discriminate.
  - destruct (st_procs s !! p) as [i|]; [|discriminate].
    destruct (i_child i); discriminate.
  - destruct (st_procs s !! p) as [i|]; [|discriminate].
    destruct (i_child i); discriminate.
  - destruct (st_procs s !! p) as [i|]; [|discriminate].
    destruct (i_child i); try discriminate. destruct (close _); discriminate.
  - destruct (st_procs s !! p) as [i|] eqn:Hp; [|discriminate].
    unfold coord_step. destruct (i_pc i) eqn:PC, b; try discriminate.
    + destruct (i_finished i); [|discriminate]. destruct (flagRestart c).
      * rewrite startProcess_Next by (simpl; exact Wg). discriminate.
      * rewrite SignalShutdown_trips by exact Ionce. discriminate.
    + destruct (teardown (st_f s)); [|discriminate].
      destruct (negb (osHaveSigTerm c)); discriminate.
    + destruct (i_finished i); discriminate.
    + destruct (i_timer i); [|discriminate]. destruct (_ <=? _); discriminate.
    + destruct (teardownNow (st_f s)); discriminate.
    + destruct (i_finished i); [|discriminate].
      pose proof (running_count_lookup _ _ _ Hp) as Hr.
      unfold running in Hr. rewrite PC in Hr.
      rewrite wgAdd_ok by (rewrite (inv_wg c s I); lia). discriminate.
Qed.

Lemma step_no_panic l s : Inv c s -> step c l s <> Panic.
Proof.
  intros I. unfold step.
  destruct (st_main s); try discriminate; apply act_no_panic; exact I.
Qed.

Lemma run_no_panic ls s : Inv c s -> run c ls s <> Panic.
Proof.
  revert s. induction ls as [|l ls IH]; intros s I; simpl; [discriminate|].
  destruct (step c l s) as [s1| |] eqn:E; [|discriminate|].
  - apply IH. eapply step_Inv; eassumption.
  - exfalso. eapply step_no_panic; eassumption.
Qed.
End Frames.

Section Executions.
Variable c : Config.

Lemma run_app ls1 ls2 s :
  run c (ls1 ++ ls2) s =
    match run c ls1 s with
    | Next s1 => run c ls2 s1
    | o => o
    end.
Proof.
  revert s. induction ls1 as [|l ls IH]; intros s; simpl; [reflexivity|].
  destruct (step c l s); auto.
Qed.

Lemma drives_refl p s i : st_procs s !! p = Some i -> drives c p s s i.
Proof.
  intros H. exists []. repeat split. symmetry. apply list_insert_id. exact H.
Qed.

Lemma drives_trans p s s1 s2 i1 i2 :
  drives c p s s1 i1 -> drives c p s1 s2 i2 -> drives c p s s2 i2.
Proof.
  intros (l1 & R1 & M1 & P1) (l2 & R2 & M2 & P2).
  exists (l1 ++ l2). rewrite run_app, R1. split; [exact R2|].
  split; [congruence|]. rewrite P2, P1. apply list_insert_insert_eq.
Qed.

Lemma drives_step l p s s' i' :
  step c l s = Next s' -> st_main s' = st_main s ->
  st_procs s' = <[p := i']> (st_procs s) -> drives c p s s' i'.
Proof.
  intros E M P. exists [l]. simpl. rewrite E. auto.
Qed.

Lemma drives_lookup p s s' i i' :
  st_procs s !! p = Some i -> drives c p s s' i' -> st_procs s' !! p = Some i'.
Proof.
  intros H (ls & _ & _ & ->). apply list_lookup_insert_eq.
  eapply lookup_lt_Some. exact H.
Qed.

Lemma drives_Inv p s s' i' : Inv c s -> drives c p s s' i' -> Inv c s'.
Proof. intros I (ls & R & _). eapply run_Inv; eassumption. Qed.


Lemma step_running l s : st_main s <> Returned -> step c l s = act c l s.
Proof. unfold step. destruct (st_main s); congruence. Qed.

(** The child of [p] exits, is reaped, and [finished] is closed. *)
Lemma reap_drives p s i :
  st_main s <> Returned -> st_procs s !! p = Some i ->
  exists s1 i1, drives c p s s1 i1 /\ st_f s1 = st_f s /\
                i_finished i1 = true /\
                i_pc i1 = i_pc i /\ i_ps i1 = i_ps i /\
                i_kill i1 = i_kill i /\ i_sigterm i1 = i_sigterm i.
Proof.
  intros NR Hp.
  assert (A : forall s i, st_main s <> Returned -> st_procs s !! p = Some i ->
              i_child i = Reaped ->
              exists s1 i1, drives c p s s1 i1 /\ st_f s1 = st_f s /\
                i_finished i1 = true /\
                i_pc i1 = i_pc i /\ i_ps i1 = i_ps i /\
                i_kill i1 = i_kill i /\ i_sigterm i1 = i_sigterm i).
  { clear. intros s i NR Hp Ch. destruct (i_finished i) eqn:F.
    - exists s, i. split; [apply drives_refl; exact Hp|auto 10].
    - exists (set_inst s p (with_finished i)), (with_finished i).
      split; [|simpl; auto 10].
      eapply (drives_step (LCloseFinished p)); [|reflexivity..].
      rewrite step_running by exact NR. simpl. unfold on_inst.
      rewrite Hp, Ch, F. reflexivity. }
  assert (B : forall s i, st_main s <> Returned -> st_procs s !! p = Some i ->
              i_child i = Zombie ->
              exists s1 i1, drives c p s s1 i1 /\ st_f s1 = st_f s /\
                i_child i1 = Reaped /\
                i_pc i1 = i_pc i /\ i_ps i1 = i_ps i /\
                i_kill i1 = i_kill i /\ i_sigterm i1 = i_sigterm i).
  { clear. intros s i NR Hp Ch.
    exists (set_inst s p (with_child i Reaped)), (with_child i Reaped).
    split; [|simpl; auto 10].
    eapply (drives_step (LWaitReturn p)); [|reflexivity..].
    rewrite step_running by exact NR. simpl. unfold on_inst.
    rewrite Hp, Ch. reflexivity. }
  assert (C : forall s i, st_main s <> Returned -> st_procs s !! p = Some i ->
              i_child i = Alive ->
              exists s1 i1, drives c p s s1 i1 /\ st_f s1 = st_f s /\
                i_child i1 = Zombie /\
                i_pc i1 = i_pc i /\ i_ps i1 = i_ps i /\
                i_kill i1 = i_kill i /\ i_sigterm i1 = i_sigterm i).
  { clear. intros s i NR Hp Ch.
    exists (set_inst s p (with_child i Zombie)), (with_child i Zombie).
    split; [|simpl; auto 10].
    eapply (drives_step (LChildExit p)); [|reflexivity..].
    rewrite step_running by exact NR. simpl. unfold on_inst.
    rewrite Hp, Ch. reflexivity. }
  assert (NR' : forall s s1 i1, st_main s <> Returned -> drives c p s s1 i1 ->
                                st_main s1 <> Returned).
  { intros s0 s1 i1 N (ls & _ & M & _). congruence. }
  destruct (i_child i) eqn:Ch.
  - destruct (C s i NR Hp Ch) as (s1 & i1 & D1 & F1 & Ch1 & E1).
    pose proof (drives_lookup _ _ _ _ _ Hp D1) as Hp1.
    pose proof (NR' _ _ _ NR D1) as NR1.
    destruct (B s1 i1 NR1 Hp1 Ch1) as (s2 & i2 & D2 & F2 & Ch2 & E2).
    pose proof (drives_lookup _ _ _ _ _ Hp1 D2) as Hp2.
    pose proof (NR' _ _ _ NR1 D2) as NR2.
    destruct (A s2 i2 NR2 Hp2 Ch2) as (s3 & i3 & D3 & F3 & E3).
    exists s3, i3. split; [eapply drives_trans; [|exact D3];
                            eapply drives_trans; eassumption|].
    intuition congruence.
  - destruct (B s i NR Hp Ch) as (s2 & i2 & D2 & F2 & Ch2 & E2).
    pose proof (drives_lookup _ _ _ _ _ Hp D2) as Hp2.
    pose proof (NR' _ _ _ NR D2) as NR2.
    destruct (A s2 i2 NR2 Hp2 Ch2) as (s3 & i3 & D3 & F3 & E3).
    exists s3, i3. split; [eapply drives_trans; eassumption|].
    intuition congruence.
  - apply A; assumption.
Qed.






End Executions.

Section Restart.
Variable c : Config.

Lemma inst_move_ps s i i' : inst_move c s i i' -> i_ps i' = i_ps i.
Proof. destruct 1; reflexivity. Qed.

Lemma newInstance_same i parent parent' :
  i_ps i = newProcess c (ps_replica (i_ps i)) parent ->
  same_process i (newInstance c (ps_replica (i_ps i)) parent').
Proof. intros E. unfold same_process. rewrite E. simpl. auto. Qed.

(** With restart enabled and the barrier untripped, the replica of a
    coordinator at its outer [select] can be started once more. *)
Lemma relaunch_once s p i :
  Inv c s -> flagRestart c = true -> st_main s <> Returned ->
  st_procs s !! p = Some i -> i_pc i = AtSelect ->
  exists ls s' i1,
    run c ls s = Next s' /\
    st_procs s' = <[p := i1]> (st_procs s)
                  ++ [newInstance c (ps_replica (i_ps i)) (Some p)] /\
    st_main s' = st_main s /\
    teardown (st_f s') = teardown (st_f s).
Proof.
  intros I R NR Hp PC.
  destruct (reap_drives c p s i NR Hp)
    as (s1 & i1 & D1 & SF & F1 & PC1 & PS1 & _).
  pose proof (drives_lookup c _ _ _ _ _ Hp D1) as Hp1.
  pose proof (drives_Inv c _ _ _ _ I D1) as I1.
  destruct D1 as (ls & R1 & M1 & P1).
  assert (T1 : teardown (st_f s1) = teardown (st_f s)).
  { rewrite SF. reflexivity. }
  pose proof (Inv_wg_nonneg c s1 I1) as Wg.
  assert (E : step c (LCoord p OnFinished) s1
              = startProcess c (ps_replica (i_ps i1)) (Some p)
                             (set_inst s1 p (with_pc i1 AtDeferred))).
  { rewrite step_running by congruence. simpl. unfold on_inst, coord_step.
    rewrite Hp1, PC1, PC, F1, R. reflexivity. }
  rewrite startProcess_Next in E by (simpl; exact Wg).
  eexists (ls ++ [LCoord p OnFinished]), _, (with_pc i1 AtDeferred).
  rewrite run_app, R1. simpl. rewrite E. simpl.
  split; [reflexivity|]. split.
  - rewrite P1, list_insert_insert_eq, PS1. reflexivity.
  - split; [exact M1|exact T1].
Qed.
End Restart.

Section FanOut.
Variable concurrency : gmap string Z.


End FanOut.

Section Supervisor.
Variable c : Config.


Lemma wrap_int_small z : minInt <= z <= maxInt -> wrap_int z = z.
Proof.
  unfold minInt, maxInt, wrap_int. intros H.
  rewrite Z.mod_small by lia. lia.
Qed.

Lemma SignalShutdown_times_tripped n f :
  shutdown f = true -> SignalShutdown_times n f = Some f.
Proof.
  intros H. induction n as [|n IH]; simpl; [reflexivity|].
  unfold SignalShutdown. rewrite H. exact IH.
Qed.
End Supervisor.


(** C3: the process started for a replica [(idx, procNum)] of a template
    has port [flagPort + idx*100], whatever [procNum] is (two instances of
    one template index have one port), display name [Name.(procNum+1)], and
    that port as its [PORT] variable (the sums taken in Go's [int], so
    within its range). *)
Theorem startProcess_port_and_name (c : Config) (s : State) (p : nat) (i : Instance) :
  Reachable c s -> st_procs s !! p = Some i ->
  let r := ps_replica (i_ps i) in
  minInt <= r_idx r * 100 <= maxInt ->
  minInt <= flagPort c + r_idx r * 100 <= maxInt ->
  minInt <= r_procNum r + 1 <= maxInt ->
  ps_port (i_ps i) = flagPort c + r_idx r * 100 /\
  ps_procName (i_ps i)
  = Name (r_proc r) +:+ "." +:+ Strconv.Itoa (r_procNum r + 1) /\
  ps_Env (i_ps i) !! "PORT" = Some (Strconv.Itoa (flagPort c + r_idx r * 100)) /\
  forall q j, st_procs s !! q = Some j ->
              r_idx (ps_replica (i_ps j)) = r_idx r ->
              ps_port (i_ps j) = ps_port (i_ps i).
Proof.
  intros HR Hp r H1 H2 H3.
  pose proof (Reachable_Inv c s HR) as I.
  pose proof (Inv_lookup c s p i I Hp) as O.
  destruct (ok_ps _ _ _ _ O) as [parent E]. fold r in E.
  assert (P : portOf c (r_idx r) = flagPort c + r_idx r * 100).
  { unfold portOf, int_add, int_mul. rewrite (wrap_int_small (r_idx r * 100)) by exact H1.
    apply wrap_int_small. exact H2. }
  split; [rewrite E; simpl; exact P|]. split; [|split].
  - rewrite E. simpl. unfold procNameOf, int_add.
    rewrite wrap_int_small by exact H3. reflexivity.
  - rewrite E. simpl. rewrite P. apply lookup_insert_eq.
  - intros q j Hq Hidx.
    destruct (ok_ps _ _ _ _ (Inv_lookup c s q j I Hq)) as [parent' E'].
    rewrite E', E. simpl. rewrite Hidx. reflexivity.
Qed.

(** C7: in every state of an execution [SignalShutdown] trips the graceful
    barrier without a panic; called again, any number of times, it changes
    nothing; on a tripped barrier it changes nothing at all; and no action
    of any goroutine untrips the barrier or closes it a second time (which
    would panic). *)
Theorem SignalShutdown_idempotent (c : Config) (s : State) :
  Reachable c s ->
  exists f1,
    SignalShutdown (st_f s) = Some f1 /\
    teardown f1 = true /\
    teardownNow f1 = teardownNow (st_f s) /\ wg f1 = wg (st_f s) /\
    (teardown (st_f s) = true -> f1 = st_f s) /\
    SignalShutdown f1 = Some f1 /\
    (forall n, SignalShutdown_times (S n) (st_f s) = Some f1) /\
    (forall ls, run c ls s <> Panic) /\
    (forall ls s', run c ls s = Next s' -> teardown (st_f s) = true ->
                   teardown (st_f s') = true).
Proof.
  intros HR. pose proof (Reachable_Inv c s HR) as I.
  pose proof (inv_once c s I) as O.
  eexists. split; [apply SignalShutdown_trips; exact O|].
  simpl. repeat split.
  - intros T. destruct (st_f s) as [sh td tn w]. simpl in *. congruence.
  - intros n. simpl. rewrite SignalShutdown_trips by exact O.
    apply SignalShutdown_times_tripped. reflexivity.
  - intros ls. apply run_no_panic. exact I.
  - intros ls s' R. apply run_teardown in R. tauto.
Qed.

Section Supervisor2.
Variable c : Config.



(** Any number of further relaunches of the replica of [i]. *)
Lemma relaunch_many n : forall s p i,
  Inv c s -> flagRestart c = true -> teardown (st_f s) = false ->
  st_procs s !! p = Some i -> i_pc i = AtSelect ->
  exists ls s',
    run c ls s = Next s' /\ teardown (st_f s') = false /\
    length (st_procs s') = (length (st_procs s) + n)%nat /\
    forall q k, (length (st_procs s) <= q)%nat -> st_procs s' !! q = Some k ->
                same_process i k.
Proof.
  induction n as [|n IH]; intros s p i I R T Hp PC.
  - exists [], s. split; [reflexivity|]. split; [exact T|]. split; [lia|].
    intros q k Hq Hk. apply lookup_lt_Some in Hk. lia.
  - assert (NR : st_main s <> Returned).
    { intros M. pose proof (inv_main c s I) as Im.
      rewrite Im in T; [discriminate|]. intros pd. congruence. }
    destruct (relaunch_once c s p i I R NR Hp PC)
      as (l1 & s1 & i1 & R1 & P1 & M1 & T1).
    pose proof (run_Inv c _ _ _ I R1) as I1.
    set (j := newInstance c (ps_replica (i_ps i)) (Some p)) in *.
    set (L := length (st_procs s)).
    assert (L1 : length (st_procs s1) = S L).
    { rewrite P1, length_app, length_insert. simpl. unfold L. lia. }
    assert (Hj : st_procs s1 !! L = Some j).
    { rewrite P1, lookup_app_r; rewrite length_insert; [|unfold L; lia].
      unfold L. rewrite Nat.sub_diag. reflexivity. }
    assert (Sij : same_process i j).
    { destruct (ok_ps _ _ _ _ (Inv_lookup c s p i I Hp)) as [parent E].
      apply (newInstance_same c i parent). exact E. }
    destruct (IH s1 L j I1 R) as (l2 & s2 & R2 & T2 & L2 & Same);
      [congruence|exact Hj|reflexivity|].
    exists (l1 ++ l2), s2. rewrite run_app, R1.
    split; [exact R2|]. split; [exact T2|]. split; [lia|].
    intros q k Hq Hk. fold L in Hq.
    destruct (decide (q = L)) as [->|Hne].
    + destruct (run_stable c (fun x => i_ps x = i_ps j) l2 s1 s2 L j)
        as (k' & Hk' & E); [|exact R2|exact Hj|reflexivity|].
      * intros s3 x x' Hm Hx. rewrite (inst_move_ps c _ _ _ Hm). exact Hx.
      * assert (k' = k) by congruence. subst k'.
        unfold same_process in *. rewrite E. exact Sij.
    + assert (Sjk : same_process j k) by (apply (Same q k); [lia|exact Hk]).
      unfold same_process in *. intuition congruence.
Qed.
End Supervisor2.



(** C5: with restart enabled, the coordinator that takes its [<-finished]
    case while the graceful barrier is untripped starts the same replica
    again: one new instance, with the replica's key, display name, port and
    environment, its child alive and its coordinator at the outer [select].
    The barriers are as before and no other instance changes.  This can go
    on without end: for every [n] some execution from there relaunches the
    replica [n] more times, the barrier still untripped. *)
Theorem natural_exit_restarts_replica (c : Config) (s : State) (p : nat) (i : Instance) :
  Reachable c s -> flagRestart c = true ->
  st_procs s !! p = Some i -> i_pc i = AtSelect -> i_finished i = true ->
  teardown (st_f s) = false ->
  exists s' j,
    step c (LCoord p OnFinished) s = Next s' /\
    st_procs s' = <[p := with_pc i AtDeferred]> (st_procs s) ++ [j] /\
    same_process i j /\ ps_parent (i_ps j) = Some p /\
    i_child j = Alive /\ i_finished j = false /\ i_pc j = AtSelect /\
    teardown (st_f s') = false /\ teardownNow (st_f s') = teardownNow (st_f s) /\
    (forall q, q <> p -> (q < length (st_procs s))%nat ->
               st_procs s' !! q = st_procs s !! q) /\
    forall n, exists ls sn,
      run c ls s' = Next sn /\ teardown (st_f sn) = false /\
      length (st_procs sn) = (length (st_procs s') + n)%nat /\
      forall q k, (length (st_procs s) <= q)%nat -> st_procs sn !! q = Some k ->
                  same_process i k.
Proof.
  intros HR Re Hp PC F T. pose proof (Reachable_Inv c s HR) as I.
  assert (NR : st_main s <> Returned).
  { intros M. rewrite (inv_main c s I) in T; [discriminate|]. intros pd. congruence. }
  pose proof (Inv_wg_nonneg c s I) as Wg.
  assert (E : step c (LCoord p OnFinished) s
              = startProcess c (ps_replica (i_ps i)) (Some p)
                             (set_inst s p (with_pc i AtDeferred))).
  { rewrite step_running by exact NR. simpl. unfold on_inst, coord_step.
    rewrite Hp, PC, F, Re. reflexivity. }
  rewrite startProcess_Next in E by (simpl; exact Wg).
  set (j := newInstance c (ps_replica (i_ps i)) (Some p)) in *.
  assert (Sij : same_process i j).
  { destruct (ok_ps _ _ _ _ (Inv_lookup c s p i I Hp)) as [parent Ep].
    apply (newInstance_same c i parent). exact Ep. }
  eexists _, j. split; [exact E|]. simpl.
  split; [reflexivity|]. split; [exact Sij|].
  do 4 (split; [reflexivity|]). split; [exact T|]. split; [reflexivity|]. split.
  - intros q Hne Hq. rewrite lookup_app_l by (rewrite length_insert; exact Hq).
    apply list_lookup_insert_ne. congruence.
  - intros n.
    match type of E with _ = Next ?x => set (s1 := x) in * end.
    assert (I1 : Inv c s1) by (eapply step_Inv; eassumption).
    assert (L1 : length (st_procs s1) = S (length (st_procs s))).
    { unfold s1. simpl. rewrite length_app, length_insert. simpl. lia. }
    assert (Hj : st_procs s1 !! length (st_procs s) = Some j).
    { unfold s1. simpl. rewrite lookup_app_r; rewrite length_insert; [|lia].
      rewrite Nat.sub_diag. reflexivity. }
    destruct (relaunch_many c n s1 (length (st_procs s)) j I1 Re T Hj eq_refl)
      as (ls & sn & Rn & Tn & Ln & Same).
    exists ls, sn. split; [exact Rn|]. split; [exact Tn|]. split; [exact Ln|].
    intros q k Hq Hk. destruct (decide (q = length (st_procs s))) as [->|Hne].
    + destruct (run_stable c (fun x => i_ps x = i_ps j) ls s1 sn
                           (length (st_procs s)) j)
        as (k' & Hk' & Ek); [|exact Rn|exact Hj|reflexivity|].
      * intros s3 x x' Hm Hx. rewrite (inst_move_ps c _ _ _ Hm). exact Hx.
      * assert (k' = k) by congruence. subst k'.
        unfold same_process in *. rewrite Ek. exact Sij.
    + assert (Sjk : same_process j k) by (apply (Same q k); [lia|exact Hk]).
      unfold same_process in *. intuition congruence.
Qed.

Lemma parse_example :
  parseConcurrency "web=2,worker=1" = ({[ "web" := 2; "worker" := 1 ]}, None).
Proof. vm_compute. reflexivity. Qed.

Lemma example_planned cw cwk e restart sigterm :
  planned (exampleConfig cw cwk e restart sigterm) =
    [ {| r_idx := 0; r_procNum := 0; r_proc := {| Name := "web"; Command := cw |} |};
      {| r_idx := 0; r_procNum := 1; r_proc := {| Name := "web"; Command := cw |} |};
      {| r_idx := 1; r_procNum := 0;
         r_proc := {| Name := "worker"; Command := cwk |} |} ].
Proof. vm_compute. reflexivity. Qed.

(** The three calls of [runStart] in the example and the instances they
    leave. *)
Lemma example_run cw cwk e restart sigterm :
  let c := exampleConfig cw cwk e restart sigterm in
  exists s0 s,
    runStart c = inr s0 /\
    run c [LMain; LMain; LMain] s0 = Next s /\
    st_main s = InLoop [] /\
    map assignment (st_procs s) =
      [ ("web.1", 5000, Some "5000"); ("web.2", 5000, Some "5000");
        ("worker.1", 5100, Some "5100") ] /\
    st_out s = [ System "starting worker.1 on port 5100";
                 System "starting web.2 on port 5000";
                 System "starting web.1 on port 5000" ].
Proof.
  intros c.
  assert (R0 : runStart c = inr {| st_f := newForego; st_first := true;
                                   st_once := false; st_procs := [];
                                   st_main := InLoop (planned c);
                                   st_clock := 0; st_out := [] |}).
  { unfold runStart, planned. simpl flagConcurrency. rewrite parse_example.
    reflexivity. }
  pose (r1 := {| r_idx := 0; r_procNum := 0;
                 r_proc := {| Name := "web"; Command := cw |} |}).
  pose (r2 := {| r_idx := 0; r_procNum := 1;
                 r_proc := {| Name := "web"; Command := cw |} |}).
  pose (r3 := {| r_idx := 1; r_procNum := 0;
                 r_proc := {| Name := "worker"; Command := cwk |} |}).
  eexists _, {| st_f := {| shutdown := false; teardown := false;
                           teardownNow := false; wg := 3 |};
                st_first := true; st_once := false;
                st_procs := [newInstance c r1 None; newInstance c r2 None;
                             newInstance c r3 None];
                st_main := InLoop [];
                st_clock := 0;
                st_out := [ System "starting worker.1 on port 5100";
                            System "starting web.2 on port 5000";
                            System "starting web.1 on port 5000" ] |}.
  split; [exact R0|].
  split; [unfold c at 2; rewrite example_planned; vm_compute; reflexivity|].
  split; [reflexivity|]. split; [|reflexivity].
  cbn [st_procs map]. unfold assignment, newInstance, newProcess.
  cbn [i_ps ps_procName ps_port ps_Env].
  rewrite !lookup_insert_eq. vm_compute. reflexivity.
Qed.

(** C2 as amended: concurrency ["web=2,worker=1"] over the templates
    [web, worker] with base port 5000 starts exactly [web.1] on port 5000,
    [web.2] on port 5000 (not 5100: the offset is the template's index) and
    [worker.1] on port 5100; the [PORT] variable and the start announcement
    of each carry that port. *)
Theorem example_ports cw cwk e restart sigterm :
  let c := exampleConfig cw cwk e restart sigterm in
  exists s0 s,
    runStart c = inr s0 /\
    run c [LMain; LMain; LMain] s0 = Next s /\
    st_main s = InLoop [] /\
    map assignment (st_procs s) =
      [ ("web.1", 5000, Some "5000"); ("web.2", 5000, Some "5000");
        ("worker.1", 5100, Some "5100") ] /\
    st_out s = [ System "starting worker.1 on port 5100";
                 System "starting web.2 on port 5000";
                 System "starting web.1 on port 5000" ].
Proof. apply example_run. Qed.

(** The claim as the spec words it fails: [web.2] does not get port 5100. *)
Lemma web2_port_is_not_5100 :
  ~ (exists s0 s,
       runStart (exampleConfig "bin/web" "bin/worker" ∅ false true) = inr s0 /\
       run (exampleConfig "bin/web" "bin/worker" ∅ false true)
           [LMain; LMain; LMain] s0 = Next s /\
       map (fun i => (ps_procName (i_ps i), ps_port (i_ps i))) (st_procs s) =
         [ ("web.1", 5000); ("web.2", 5100); ("worker.1", 5100) ]).
Proof.
  intros (s0 & s & H0 & R & M).
  destruct (example_run "bin/web" "bin/worker" ∅ false true)
    as (s0' & s' & H0' & R' & _ & A & _).
  cbv zeta in *.
  rewrite H0 in H0'. injection H0' as <-.
  rewrite R in R'. injection R' as <-.
  assert (E : map (fun i => (ps_procName (i_ps i), ps_port (i_ps i))) (st_procs s)
              = map fst (map assignment (st_procs s))).
  { rewrite map_map. reflexivity. }
  rewrite E, A in M. discriminate M.
Qed.

(** The claim C9 as the spec words it fails: ["web=-3"] parses, to -3. *)
Lemma negative_count_is_accepted :
  parseConcurrency "web=-3" = ({[ "web" := -3 ]}, None) /\ ~ counts_nonnegative.
Proof.
  assert (E : parseConcurrency "web=-3" = ({[ "web" := -3 ]}, None)).
  { vm_compute. reflexivity. }
  split; [exact E|]. intros H.
  specialize (H _ _ E "web" (-3) (lookup_singleton_eq _ _)). simpl in H. lia.
Qed.

(** C9 as amended: a count parsed successfully lies within 16 signed bits,
    and may be negative; a template with a count below 1 gets no replica. *)
Theorem parsed_counts_are_int16 (value : string) (m : gmap string Z) :
  parseConcurrency value = (m, None) ->
  map_Forall (fun _ v => -32768 <= v <= 32767) m /\
  forall singleton idx proc,
    numProcsOf m proc <= 0 -> replicasOf m singleton idx proc = [].
Proof.
  intros H. split.
  - unfold parseConcurrency in H.
    destruct (String.eqb (Strings.TrimSpace value) EmptyString).
    + injection H as <-. apply map_Forall_empty.
    + eapply (parseParts_values (fun z => -32768 <= z <= 32767));
        [|apply map_Forall_empty|exact H].
      intros v z. apply ParseInt16_range.
  - intros singleton idx proc Hn. unfold replicasOf.
    destruct (numProcsOf m proc) as [|n|n]; try lia; reflexivity.
Qed.

(** C10: the count of a part [name=numeral] is parsed with
    [ParseInt(v, 10, 16)]: a numeral of an integer within
    [-32768, 32767] gives the mapping from the name to that integer; any
    other numeral is a range error, and a fatal one for [runStart]. *)
Theorem count_is_parsed_as_int16 (name : string) (sg : Sign) (ds : string) :
  plain_name name = true -> ds <> EmptyString -> all_digits ds = true ->
  let z := numeral_value sg ds in
  let value := name +:+ "=" +:+ numeral sg ds in
  (-32768 <= z <= 32767 -> parseConcurrency value = ({[ name := z ]}, None)) /\
  (~ -32768 <= z <= 32767 ->
     parseConcurrency value
     = (∅, Some (NumError "ParseInt" (numeral sg ds) ErrRange)) /\
     forall c, flagConcurrency c = value ->
               runStart c
               = inl (FatalError (NumError "ParseInt" (numeral sg ds) ErrRange))).
Proof.
  intros Hn Hne Hd z value. unfold plain_name in Hn. zbool.
  apply String.eqb_neq in H.
  assert (E : parseConcurrency value =
              if (-32768 <=? z) && (z <=? 32767) then ({[ name := z ]}, None)
              else (∅, Some (NumError "ParseInt" (numeral sg ds) ErrRange))).
  { unfold value. rewrite parseConcurrency_single; auto.
    - rewrite (ParseInt16_numeral sg ds Hne Hd). cbv zeta. fold z.
      destruct ((-32768 <=? z) && (z <=? 32767)); reflexivity.
    - apply numeral_nonempty. exact Hne.
    - apply numeral_plain. exact Hd.
    - apply numeral_Contains; auto.
    - apply numeral_Contains; auto. }
  split.
  - intros Hz. rewrite E.
    destruct (Z.leb_spec (-32768) z); [|lia].
    destruct (Z.leb_spec z 32767); [|lia]. reflexivity.
  - intros Hz.
    assert (E' : parseConcurrency value
                 = (∅, Some (NumError "ParseInt" (numeral sg ds) ErrRange))).
    { rewrite E. destruct (Z.leb_spec (-32768) z); [|reflexivity].
      destruct (Z.leb_spec z 32767); [lia|reflexivity]. }
    split; [exact E'|]. intros c Hc. unfold runStart. rewrite Hc, E'. reflexivity.
Qed.


(** * Instances of the theorems on the example *)

Lemma demo_runStart restart sigterm :
  runStart (demo restart sigterm) = inr (demo0 restart sigterm).
Proof.
  unfold runStart, demo, demo0, planned. simpl flagConcurrency.
  rewrite parse_example. reflexivity.
Defined.

Lemma demo_Reachable restart sigterm ls s :
  run (demo restart sigterm) ls (demo0 restart sigterm) = Next s ->
  Reachable (demo restart sigterm) s.
Proof.
  intros R. exists (demo0 restart sigterm), ls. split; [apply demo_runStart|exact R].
Defined.


Lemma after_run restart sigterm ls :
  match run (demo restart sigterm) ls (demo0 restart sigterm) with
  | Next _ => True
  | _ => False
  end ->
  run (demo restart sigterm) ls (demo0 restart sigterm)
  = Next (after restart sigterm ls).
Proof.
  unfold after.
  destruct (run (demo restart sigterm) ls (demo0 restart sigterm));
    [reflexivity|contradiction..].
Defined.

Lemma inst_at_lookup s p :
  (p < length (st_procs s))%nat -> st_procs s !! p = Some (inst_at s p).
Proof.
  intros H. unfold inst_at.
  destruct (st_procs s !! p) eqn:E; [reflexivity|].
  apply lookup_ge_None in E. lia.
Defined.

Lemma startProcess_port_and_name_witness :
  Reachable (demo false true) (after false true started) /\
  st_procs (after false true started) !! 1%nat
  = Some (inst_at (after false true started) 1) /\
  ps_port (i_ps (inst_at (after false true started) 1)) = 5000 /\
  ps_procName (i_ps (inst_at (after false true started) 1)) = "web.2" /\
  ps_Env (i_ps (inst_at (after false true started) 1)) !! "PORT" = Some "5000".
Proof.
  assert (R : Reachable (demo false true) (after false true started)).
  { apply (demo_Reachable false true started). apply after_run. vm_compute. exact I. }
  assert (L : st_procs (after false true started) !! 1%nat
              = Some (inst_at (after false true started) 1)).
  { apply inst_at_lookup. vm_compute. lia. }
  split; [exact R|]. split; [exact L|].
  destruct (startProcess_port_and_name (demo false true) (after false true started)
              1%nat (inst_at (after false true started) 1) R L)
    as (P & N & E & _); try (vm_compute; split; discriminate).
  split; [exact P|]. split; [exact N|exact E].
Defined.


Lemma natural_exit_restarts_replica_witness :
  Reachable (demo true true) (after true true web2_exited) /\
  flagRestart (demo true true) = true /\
  i_pc (inst_at (after true true web2_exited) 1) = AtSelect /\
  i_finished (inst_at (after true true web2_exited) 1) = true /\
  teardown (st_f (after true true web2_exited)) = false /\
  exists s' j, step (demo true true) (LCoord 1 OnFinished)
                    (after true true web2_exited) = Next s' /\
               st_procs s' !! 3%nat = Some j /\
               ps_procName (i_ps j) = "web.2" /\ ps_port (i_ps j) = 5000 /\
               teardown (st_f s') = false.
Proof.
  assert (R : Reachable (demo true true) (after true true web2_exited)).
  { apply (demo_Reachable true true web2_exited). apply after_run.
    vm_compute. exact I. }
  assert (L : st_procs (after true true web2_exited) !! 1%nat
              = Some (inst_at (after true true web2_exited) 1)).
  { apply inst_at_lookup. vm_compute. lia. }
  split; [exact R|]. do 4 (split; [vm_compute; reflexivity|]).
  destruct (natural_exit_restarts_replica (demo true true)
              (after true true web2_exited) 1%nat
              (inst_at (after true true web2_exited) 1) R)
    as (s' & j & E & P & (_ & Sn & Sp & _) & _ & _ & _ & _ & T & _);
    [vm_compute; reflexivity|exact L|vm_compute; reflexivity..|].
  exists s', j. split; [exact E|]. split.
  - assert (Len : length (st_procs (after true true web2_exited)) = 3%nat)
      by (vm_compute; reflexivity).
    rewrite P, lookup_app_r by (rewrite length_insert, Len; lia).
    rewrite length_insert, Len. reflexivity.
  - split; [rewrite Sn; vm_compute; reflexivity|].
    split; [rewrite Sp; vm_compute; reflexivity|exact T].
Defined.


Lemma SignalShutdown_idempotent_witness :
  Reachable (demo false true) (after false true [LMain]) /\
  exists f1, SignalShutdown (st_f (after false true [LMain])) = Some f1 /\
             teardown f1 = true /\ SignalShutdown f1 = Some f1.
Proof.
  assert (R : Reachable (demo false true) (after false true [LMain])).
  { apply (demo_Reachable false true [LMain]). apply after_run. vm_compute. exact I. }
  split; [exact R|].
  destruct (SignalShutdown_idempotent (demo false true) (after false true [LMain]) R)
    as (f1 & E & T & _ & _ & _ & E1 & _).
  exists f1. auto.
Defined.


Lemma parsed_counts_are_int16_witness :
  parseConcurrency "web=-3" = ({[ "web" := -3 ]}, None) /\
  map_Forall (fun (_ : string) v => -32768 <= v <= 32767)
             ({[ "web" := -3 ]} : gmap string Z).
Proof.
  assert (E : parseConcurrency "web=-3" = ({[ "web" := -3 ]}, None))
    by (vm_compute; reflexivity).
  split; [exact E|]. apply (parsed_counts_are_int16 "web=-3" _ E).
Defined.

Lemma count_is_parsed_as_int16_witness :
  plain_name "web" = true /\ "32768" <> EmptyString /\ all_digits "32768" = true /\
  parseConcurrency "web=32768" = (∅, Some (NumError "ParseInt" "32768" ErrRange)) /\
  parseConcurrency "web=32767" = ({[ "web" := 32767 ]}, None).
Proof.
  split; [reflexivity|]. split; [discriminate|]. split; [reflexivity|]. split.
  - destruct (count_is_parsed_as_int16 "web" NoSign "32768" eq_refl
                ltac:(discriminate) eq_refl) as (_ & H).
    apply H. vm_compute. intros [_ H1]. apply H1. reflexivity.
  - destruct (count_is_parsed_as_int16 "web" NoSign "32767" eq_refl
                ltac:(discriminate) eq_refl) as (H & _).
    apply H. vm_compute. split; discriminate.
Defined.

(** * Further properties *)

(** * Further properties of [parseConcurrency] *)

Section MoreSplit.
Import Strings.
Variable sep : ascii.

Lemma Split_app_sep a b :
  Split (a +:+ String sep b) sep = Split a sep ++ Split b sep.
Proof.
  induction a as [|c r IH].
  - rewrite append_nil. simpl. rewrite Ascii.eqb_refl. reflexivity.
  - rewrite append_cons. cbn [Split]. rewrite IH.
    destruct (Ascii.eqb c sep); [reflexivity|].
    pose proof (Split_nonempty sep r) as N.
    destruct (Split r sep) as [|p ps]; [congruence|reflexivity].
Qed.

Lemma Split_pieces s : Forall (fun p => Contains p sep = false) (Split s sep).
Proof.
  induction s as [|c r IH]; cbn [Split].
  - constructor; [reflexivity|constructor].
  - destruct (Ascii.eqb c sep) eqn:E.
    + constructor; [reflexivity|exact IH].
    + pose proof (Split_nonempty sep r) as N.
      destruct (Split r sep) as [|p ps]; [congruence|].
      inversion IH as [|? ? Hp Hps]; subst.
      constructor; [|exact Hps]. cbn [Contains]. rewrite E. exact Hp.
Qed.
End MoreSplit.

Section BlankBytes.
Import Strings.

(** No byte of a white-space rune is a plain byte. *)
Lemma AllSpace_Contains s x : AllSpace s -> plain x = true -> Contains s x = false.
Proof.
  intros H Hx. unfold plain in Hx. zbool.
  assert (N1 : forall a, space1 a = true -> Ascii.eqb a x = false).
  { intros a Ha. destruct (Ascii.eqb_spec a x) as [->|]; [congruence|reflexivity]. }
  assert (N2 : forall a, 128 <= byte_code a -> Ascii.eqb a x = false).
  { intros a Ha. destruct (Ascii.eqb_spec a x) as [->|]; [lia|reflexivity]. }
  induction H as [|a s A _ IH|a b s B _ IH|a b c s C _ IH]; cbn [Contains].
  - reflexivity.
  - rewrite (N1 a A). exact IH.
  - apply space2_codes in B. rewrite (N2 a), (N2 b) by lia. exact IH.
  - pose proof C as C'. apply space3_codes in C'.
    assert (128 <= byte_code b).
    { unfold space3 in C. cbv zeta in C. zbool; lia. }
    rewrite (N2 a), (N2 b), (N2 c) by lia. exact IH.
Qed.

Lemma Contains_not_AllSpace s x : plain x = true -> Contains s x = true -> ~ AllSpace s.
Proof. intros Hx Hc H. rewrite (AllSpace_Contains s x H Hx) in Hc. discriminate. Qed.
End BlankBytes.

Section Composition.

Lemma parseParts_app l1 l2 m :
  parseParts (l1 ++ l2) m =
    match parseParts l1 m with
    | (m1, None) => parseParts l2 m1
    | r => r
    end.
Proof.
  revert m. induction l1 as [|p ps IH]; intros m; simpl; [reflexivity|].
  destruct (parsePart m p); [reflexivity|apply IH].
Qed.

(** Whether a part is accepted does not depend on the mapping so far. *)
Lemma parsePart_union m0 m part :
  parsePart (m0 ∪ m) part =
    match parsePart m0 part with
    | inl e => inl e
    | inr m1 => inr (m1 ∪ m)
    end.
Proof.
  unfold parsePart. destruct (negb _); [reflexivity|].
  destruct (_ || _); [reflexivity|].
  destruct (Strconv.ParseInt _ 10 16) as [z [e|]]; [reflexivity|].
  rewrite insert_union_l. reflexivity.
Qed.

Lemma parseParts_union l m0 m :
  parseParts l (m0 ∪ m) =
    let '(m1, e) := parseParts l m0 in (m1 ∪ m, e).
Proof.
  revert m0. induction l as [|p ps IH]; intros m0; simpl; [reflexivity|].
  rewrite parsePart_union. destruct (parsePart m0 p); [reflexivity|apply IH].
Qed.

Lemma parseConcurrency_nonblank value :
  ~ AllSpace value ->
  parseConcurrency value = parseParts (Strings.Split value ",") ∅.
Proof.
  intros H. unfold parseConcurrency.
  destruct (String.eqb_spec (Strings.TrimSpace value) EmptyString) as [E|E]; [|reflexivity].
  apply TrimSpace_empty_iff in E. contradiction.
Qed.

Lemma comma_plain : plain "," = true.
Proof. reflexivity. Qed.

Lemma equals_plain : plain "=" = true.
Proof. reflexivity. Qed.

Lemma joined_nonblank a b : ~ AllSpace (a +:+ "," +:+ b).
Proof.
  apply (Contains_not_AllSpace _ "," comma_plain).
  rewrite Contains_app. change ("," +:+ b) with (String "," b).
  cbn [Strings.Contains]. rewrite Ascii.eqb_refl. apply orb_true_r.
Qed.

Lemma parseConcurrency_join a b :
  parseConcurrency (a +:+ "," +:+ b) =
    match parseParts (Strings.Split a ",") ∅ with
    | (ma, None) => parseParts (Strings.Split b ",") ma
    | r => r
    end.
Proof.
  rewrite parseConcurrency_nonblank by apply joined_nonblank.
  change ("," +:+ b) with (String "," b).
  rewrite Split_app_sep. apply parseParts_app.
Qed.

Lemma blank_part_rejected m part :
  AllSpace part -> exists e, parsePart m part = inl e.
Proof.
  intros H. unfold parsePart.
  rewrite (AllSpace_Contains part "=" H equals_plain). simpl. eauto.
Qed.
End Composition.

(** X1: specs compose at a comma.  If [a] and [b] are non-blank specs that
    parse to [ma] and [mb], then [a,b] parses to the union in which the
    counts of [b] override those of [a] (the last entry of a name wins).
    If [a] or [b] is empty or blank (a leading, trailing or doubled comma),
    [a,b] is an error, although a blank spec alone succeeds. *)
Theorem parseConcurrency_composes (a b : string) :
  (forall ma mb,
     ~ AllSpace a -> ~ AllSpace b ->
     parseConcurrency a = (ma, None) -> parseConcurrency b = (mb, None) ->
     parseConcurrency (a +:+ "," +:+ b) = (mb ∪ ma, None)) /\
  (AllSpace a \/ AllSpace b -> snd (parseConcurrency (a +:+ "," +:+ b)) <> None).
Proof.
  split.
  - intros ma mb Ha Hb Pa Pb.
    rewrite parseConcurrency_nonblank in Pa by exact Ha.
    rewrite parseConcurrency_nonblank in Pb by exact Hb.
    rewrite parseConcurrency_join, Pa.
    rewrite <- (map_empty_union ma), parseParts_union, Pb.
    rewrite map_empty_union. reflexivity.
  - intros H. rewrite parseConcurrency_join.
    destruct H as [H|H].
    + rewrite (Split_no_sep "," a (AllSpace_Contains a "," H comma_plain)).
      cbn [parseParts]. destruct (blank_part_rejected ∅ a H) as [e ->].
      simpl. discriminate.
    + destruct (parseParts (Strings.Split a ",") ∅) as [ma [e|]];
        [simpl; discriminate|].
      rewrite (Split_no_sep "," b (AllSpace_Contains b "," H comma_plain)).
      cbn [parseParts]. destruct (blank_part_rejected ma b H) as [e ->].
      simpl. discriminate.
Qed.

Section Padding.
Import Strings.

Lemma trim_lead_skip fwd a t :
  SpaceRunes fwd a -> trim_lead fwd (a +:+ t) = trim_lead fwd t.
Proof.
  induction 1 as [|x s A _ IH|x y s B _ IH|x y z s C _ IH];
    rewrite ?append_cons, ?append_nil.
  - reflexivity.
  - cbn [trim_lead]. rewrite A. exact IH.
  - assert (A : space1 x = false).
    { destruct fwd.
      - apply (space2_not_space1 x y B).
      - apply space2_codes in B.
        destruct (space1 x) eqn:E; [apply space1_code in E; lia|reflexivity]. }
    cbn [trim_lead]. rewrite A, B. exact IH.
  - assert (A : space1 x = false).
    { destruct fwd.
      - apply (space3_not_space1 x y z C).
      - apply space3_codes in C.
        destruct (space1 x) eqn:E; [apply space1_code in E; lia|reflexivity]. }
    assert (B : (if fwd then space2 x y else space2 y x) = false).
    { destruct fwd.
      - apply (space3_not_space2 x y z C).
      - pose proof C as C'. apply space3_codes in C'.
        destruct (space2 y x) eqn:E; [|reflexivity].
        apply space2_codes in E.
        unfold space3 in C. cbv zeta in C. zbool; lia. }
    cbn [trim_lead]. rewrite A, B, C. exact IH.
Qed.

Lemma SpaceRunes_app fwd s t :
  SpaceRunes fwd s -> SpaceRunes fwd t -> SpaceRunes fwd (s +:+ t).
Proof.
  intros Hs Ht. induction Hs; rewrite ?append_cons, ?append_nil.
  - exact Ht.
  - apply SpaceRunes_1; assumption.
  - apply SpaceRunes_2; assumption.
  - apply SpaceRunes_3; assumption.
Qed.

Lemma reverse_app s t : reverse (s +:+ t) = reverse t +:+ reverse s.
Proof.
  induction s as [|x s IH].
  - rewrite append_nil. change (reverse EmptyString) with EmptyString.
    induction (reverse t) as [|y u IHu]; [reflexivity|].
    rewrite append_cons, <- IHu. reflexivity.
  - rewrite append_cons, !reverse_cons, IH, append_assoc. reflexivity.
Qed.

Lemma AllSpace_reverse_runes s : AllSpace s -> SpaceRunes false (reverse s).
Proof.
  induction 1 as [|x s A _ IH|x y s B _ IH|x y z s C _ IH].
  - constructor.
  - rewrite reverse_cons. apply SpaceRunes_app; [exact IH|].
    apply SpaceRunes_1; [exact A|constructor].
  - rewrite !reverse_cons, append_assoc. apply SpaceRunes_app; [exact IH|].
    rewrite append_cons, append_nil. apply SpaceRunes_2; [exact B|constructor].
  - rewrite !reverse_cons, !append_assoc. apply SpaceRunes_app; [exact IH|].
    rewrite !append_cons, append_nil. apply SpaceRunes_3; [exact C|constructor].
Qed.

Lemma trimmed_first s : trimmed s = true -> trim_lead true s = s.
Proof.
  unfold trimmed. destruct s as [|x r]; [discriminate|].
  destruct (reverse (String x r)); [discriminate|].
  intros H. zbool. apply trim_lead_plain. assumption.
Qed.

Lemma trimmed_last s : trimmed s = true -> trim_lead false (reverse s) = reverse s.
Proof.
  unfold trimmed. destruct s as [|x r]; [discriminate|].
  destruct (reverse (String x r)); [discriminate|].
  intros H. zbool. apply trim_lead_plain. assumption.
Qed.

(** [TrimSpace] removes white space around a trimmed field, and that
    only. *)
Lemma TrimSpace_padded a s b :
  AllSpace a -> AllSpace b -> trimmed s = true -> TrimSpace (a +:+ s +:+ b) = s.
Proof.
  intros Ha Hb Hs. unfold TrimSpace.
  rewrite trim_lead_skip by (apply SpaceRunes_AllSpace; exact Ha).
  assert (E : trim_lead true (s +:+ b) = s +:+ b).
  { unfold trimmed in Hs. destruct s as [|x r]; [discriminate|].
    destruct (reverse (String x r)); [discriminate|]. zbool.
    rewrite append_cons. apply trim_lead_plain. assumption. }
  rewrite E, reverse_app.
  rewrite trim_lead_skip by (apply AllSpace_reverse_runes; exact Hb).
  rewrite (trimmed_last s Hs). apply reverse_involutive.
Qed.

Lemma TrimSpace_trimmed s : trimmed s = true -> TrimSpace s = s.
Proof.
  intros H. unfold TrimSpace.
  rewrite (trimmed_first s H), (trimmed_last s H). apply reverse_involutive.
Qed.

Lemma trimmed_nonempty s : trimmed s = true -> s <> EmptyString.
Proof. destruct s; [discriminate|congruence]. Qed.

Lemma trimmed_not_AllSpace s t : trimmed s = true -> ~ AllSpace (s +:+ t).
Proof.
  unfold trimmed. destruct s as [|x r]; [discriminate|].
  destruct (reverse (String x r)); [discriminate|].
  intros H. zbool. unfold plain in H. zbool.
  rewrite append_cons. intros A. inversion A as [|? ? S1|? ? ? S2|? ? ? ? S3]; subst.
  - congruence.
  - apply space2_codes in S2. lia.
  - apply space3_codes in S3. lia.
Qed.
End Padding.

Section OnePart.
Import Strings.

(** A spec without a comma is one part. *)
Lemma parseConcurrency_one_part part :
  ~ AllSpace part -> Contains part "," = false ->
  parseConcurrency part =
    match parsePart ∅ part with
    | inl e => (∅, Some e)
    | inr m => (m, None)
    end.
Proof.
  intros H C. rewrite parseConcurrency_nonblank by exact H.
  rewrite (Split_no_sep "," part C). cbn [parseParts].
  destruct (parsePart ∅ part); reflexivity.
Qed.

(** The loop body sees a part through its first two fields only, each
    trimmed. *)
Lemma parsePart_same_fields m p q :
  Contains p "=" = Contains q "=" ->
  nameOf p = nameOf q -> valueOf p = valueOf q ->
  parsePart m p = parsePart m q.
Proof.
  unfold nameOf, valueOf, parsePart. intros -> -> ->. reflexivity.
Qed.

Lemma Contains_eq_in f0 rest : Contains (f0 +:+ "=" +:+ rest) "=" = true.
Proof.
  rewrite Contains_app. change ("=" +:+ rest) with (String "=" rest).
  cbn [Contains]. rewrite Ascii.eqb_refl. apply orb_true_r.
Qed.

Lemma fields_of_part f0 f1 :
  Contains f0 "=" = false -> Contains f1 "=" = false ->
  Split (f0 +:+ "=" +:+ f1) "=" = [f0; f1].
Proof.
  intros H0 H1. change ("=" +:+ f1) with (String "=" f1).
  rewrite (Split_app "=" f0 f1 H0), (Split_no_sep "=" f1 H1). reflexivity.
Qed.

Lemma fields_of_part_more f0 f1 junk :
  Contains f0 "=" = false -> Contains f1 "=" = false ->
  Split (f0 +:+ "=" +:+ f1 +:+ "=" +:+ junk) "=" = f0 :: f1 :: Split junk "=".
Proof.
  intros H0 H1. change ("=" +:+ f1 +:+ "=" +:+ junk) with (String "=" (f1 +:+ String "=" junk)).
  rewrite (Split_app "=" f0 _ H0), (Split_app "=" f1 junk H1). reflexivity.
Qed.
End OnePart.

(** X2: white space around the name and around the count of a part is of
    no account: for fields that are themselves trimmed and hold no
    separator, the padded part parses as the bare one. *)
Theorem parseConcurrency_ignores_padding (a b c d name v : string) :
  AllSpace a -> AllSpace b -> AllSpace c -> AllSpace d ->
  trimmed name = true -> trimmed v = true ->
  no_seps name = true -> no_seps v = true ->
  parseConcurrency ((a +:+ name +:+ b) +:+ "=" +:+ (c +:+ v +:+ d))
  = parseConcurrency (name +:+ "=" +:+ v).
Proof.
  intros Ha Hb Hc Hd Tn Tv Sn Sv. unfold no_seps in Sn, Sv.
  apply andb_true_iff in Sn as [Nc Ne]. apply andb_true_iff in Sv as [Vc Ve].
  apply negb_true_iff in Nc, Ne, Vc, Ve.
  assert (P : forall x y z sep, plain sep = true -> AllSpace x -> AllSpace z ->
              Strings.Contains y sep = false ->
              Strings.Contains (x +:+ y +:+ z) sep = false).
  { intros x y z sep Hp Hx Hz Hy.
    rewrite !Contains_app, Hy, (AllSpace_Contains x sep Hx Hp),
      (AllSpace_Contains z sep Hz Hp). reflexivity. }
  rewrite !parseConcurrency_one_part.
  - rewrite (parsePart_same_fields ∅ _ (name +:+ "=" +:+ v)); [reflexivity| | |].
    + rewrite !Contains_eq_in. reflexivity.
    + unfold nameOf. rewrite !fields_of_part; auto using equals_plain.
      cbn [nth]. rewrite TrimSpace_padded by assumption.
      symmetry. apply TrimSpace_trimmed. exact Tn.
    + unfold valueOf. rewrite !fields_of_part; auto using equals_plain.
      cbn [nth]. rewrite TrimSpace_padded by assumption.
      symmetry. apply TrimSpace_trimmed. exact Tv.
  - apply (Contains_not_AllSpace _ "=" equals_plain), Contains_eq_in.
  - rewrite Contains_app, Nc. change ("=" +:+ v) with (String "=" v).
    cbn [Strings.Contains]. change (Ascii.eqb "=" ",") with false. exact Vc.
  - apply (Contains_not_AllSpace _ "=" equals_plain), Contains_eq_in.
  - rewrite Contains_app, (P a name b ","%char comma_plain Ha Hb Nc).
    change ("=" +:+ c +:+ v +:+ d) with (String "=" (c +:+ v +:+ d)).
    cbn [Strings.Contains]. change (Ascii.eqb "=" ",") with false.
    apply (P c v d ","%char comma_plain Hc Hd Vc).
Qed.

(** X3: of a part with more than one ["="] only the first two fields
    count: [name=count=junk] parses as [name=count], whatever [junk] is. *)
Theorem parseConcurrency_ignores_third_field (name v junk : string) :
  no_seps name = true -> no_seps v = true ->
  Strings.Contains junk "," = false ->
  parseConcurrency (name +:+ "=" +:+ v +:+ "=" +:+ junk)
  = parseConcurrency (name +:+ "=" +:+ v).
Proof.
  intros Sn Sv Jc. unfold no_seps in Sn, Sv.
  apply andb_true_iff in Sn as [Nc Ne]. apply andb_true_iff in Sv as [Vc Ve].
  apply negb_true_iff in Nc, Ne, Vc, Ve.
  rewrite !parseConcurrency_one_part.
  - rewrite (parsePart_same_fields ∅ _ (name +:+ "=" +:+ v)); [reflexivity| | |].
    + rewrite !Contains_eq_in. reflexivity.
    + unfold nameOf. rewrite fields_of_part_more, fields_of_part by assumption.
      reflexivity.
    + unfold valueOf. rewrite fields_of_part_more, fields_of_part by assumption.
      reflexivity.
  - apply (Contains_not_AllSpace _ "=" equals_plain), Contains_eq_in.
  - rewrite Contains_app, Nc. change ("=" +:+ v) with (String "=" v).
    cbn [Strings.Contains]. change (Ascii.eqb "=" ",") with false. exact Vc.
  - apply (Contains_not_AllSpace _ "=" equals_plain), Contains_eq_in.
  - rewrite Contains_app, Nc.
    change ("=" +:+ v +:+ "=" +:+ junk) with (String "=" (v +:+ String "=" junk)).
    cbn [Strings.Contains]. change (Ascii.eqb "=" ",") with false.
    rewrite Contains_app, Vc. cbn [Strings.Contains].
    change (Ascii.eqb "=" ",") with false. exact Jc.
Qed.

(** * Further properties of the loops of [runStart] *)

Section Loops.
Variable concurrency : gmap string Z.
Variable singleton : string.

Lemma replicasOf_elem idx proc r :
  In r (replicasOf concurrency singleton idx proc) <->
  passes singleton proc = true /\ r_idx r = idx /\ r_proc r = proc /\
  0 <= r_procNum r < numProcsOf concurrency proc.
Proof.
  unfold replicasOf. rewrite in_flat_map. fold (passes singleton proc). split.
  - intros (i & Hi & Hr). apply list_elem_of_In, elem_of_seqZ in Hi.
    destruct (passes singleton proc); [|destruct Hr].
    destruct Hr as [<-|[]]. simpl. repeat split; lia.
  - intros (Hp & Hidx & Hproc & Hn). exists (r_procNum r). split.
    + apply list_elem_of_In, elem_of_seqZ. lia.
    + rewrite Hp. left. destruct r; simpl in *; congruence.
Qed.

Lemma fanoutFrom_elem idx entries r :
  In r (fanoutFrom concurrency singleton idx entries) <->
  exists k proc,
    entries !! k = Some proc /\ passes singleton proc = true /\
    r_idx r = idx + Z.of_nat k /\ r_proc r = proc /\
    0 <= r_procNum r < numProcsOf concurrency proc.
Proof.
  revert idx. induction entries as [|proc rest IH]; intros idx; cbn [fanoutFrom].
  - split; [intros []|intros (k & p & H & _); destruct k; discriminate].
  - rewrite in_app_iff, replicasOf_elem, IH. split.
    + intros [(Hp & Hi & Hr & Hn)|(k & p & Hk & Hp & Hi & Hr & Hn)].
      * exists 0%nat, proc. repeat split; auto; lia.
      * exists (S k), p. repeat split; auto; lia.
    + intros ([|k] & p & Hk & Hp & Hi & Hr & Hn).
      * injection Hk as <-. left. repeat split; auto; lia.
      * right. exists k, p. repeat split; auto; lia.
Qed.

Lemma replicasOf_keys idx proc :
  map replica_key (replicasOf concurrency singleton idx proc)
  = if passes singleton proc then map (fun i => (idx, i)) (seqZ 0 (numProcsOf concurrency proc))
    else [].
Proof.
  unfold replicasOf. fold (passes singleton proc).
  induction (seqZ 0 (numProcsOf concurrency proc)) as [|i l IH]; cbn [flat_map map].
  - destruct (passes singleton proc); reflexivity.
  - rewrite map_app, IH. destruct (passes singleton proc); reflexivity.
Qed.

Lemma fanoutFrom_keys_NoDup idx entries :
  NoDup (map replica_key (fanoutFrom concurrency singleton idx entries)).
Proof.
  revert idx. induction entries as [|proc rest IH]; intros idx; cbn [fanoutFrom].
  - constructor.
  - rewrite map_app. apply NoDup_app. split; [|split].
    + rewrite replicasOf_keys. destruct (passes singleton proc); [|constructor].
      change (NoDup ((fun i => (idx, i)) <$> seqZ 0 (numProcsOf concurrency proc))).
      apply NoDup_fmap_2; [|apply NoDup_seqZ].
      intros x y [= ->]. reflexivity.
    + intros key H1 H2.
      apply list_elem_of_In, in_map_iff in H1 as (r1 & <- & R1).
      apply list_elem_of_In, in_map_iff in H2 as (r2 & E & R2).
      apply replicasOf_elem in R1 as (_ & I1 & _).
      apply fanoutFrom_elem in R2 as (k & p & _ & _ & I2 & _).
      unfold replica_key in E. injection E as E _. lia.
    + apply IH.
Qed.
End Loops.

(** X4: the [startProcess] calls of the loops of [runStart] are exactly
    the replicas [(idx, i)] with [idx] the position of a template in the
    Procfile (also under a filter: positions are not renumbered), the
    template passing the filter, and [0 <= i < count]; and no
    [ReplicaKey] is used for two calls. *)
Theorem fanout_replicas (concurrency : gmap string Z) (singleton : string)
        (entries : list ProcfileEntry) :
  (forall r, In r (fanout concurrency singleton entries) <->
     exists k proc,
       entries !! k = Some proc /\
       (singleton = EmptyString \/ singleton = Name proc) /\
       r_idx r = Z.of_nat k /\ r_proc r = proc /\
       0 <= r_procNum r < numProcsOf concurrency proc) /\
  NoDup (map replica_key (fanout concurrency singleton entries)).
Proof.
  split; [|apply fanoutFrom_keys_NoDup].
  intros r. unfold fanout. rewrite fanoutFrom_elem.
  split; intros (k & p & Hk & Hp & Hi & Hr & Hn); exists k, p;
    (split; [exact Hk|]); (split; [|split; [lia|auto]]).
  - unfold passes in Hp. apply orb_true_iff in Hp as [H|H];
      apply String.eqb_eq in H; auto.
  - unfold passes. apply orb_true_iff.
    destruct Hp as [->| ->]; [left|right]; apply String.eqb_refl.
Qed.

Section Filter.
Variable concurrency : gmap string Z.

Lemma replicasOf_length singleton idx proc :
  length (replicasOf concurrency singleton idx proc)
  = if passes singleton proc then Z.to_nat (numProcsOf concurrency proc) else 0%nat.
Proof.
  unfold replicasOf. fold (passes singleton proc).
  rewrite <- (length_seqZ 0 (numProcsOf concurrency proc)).
  induction (seqZ 0 (numProcsOf concurrency proc)) as [|x l IH];
    cbn [flat_map length].
  - destruct (passes singleton proc); reflexivity.
  - rewrite length_app, IH. destruct (passes singleton proc); reflexivity.
Qed.

Lemma fanoutFrom_filtered name idx entries :
  name <> EmptyString ->
  length (fanoutFrom concurrency name idx entries)
  = totalReplicas concurrency (named name entries).
Proof.
  intros Hne. revert idx.
  induction entries as [|proc rest IH]; intros idx; cbn [fanoutFrom]; [reflexivity|].
  rewrite length_app, replicasOf_length, IH. unfold named, passes. cbn [List.filter].
  apply String.eqb_neq in Hne. rewrite Hne. cbn [orb].
  destruct (String.eqb name (Name proc)); reflexivity.
Qed.

Lemma fanoutFrom_default idx entries :
  fanoutFrom ∅ EmptyString idx entries
  = imap (fun k proc => {| r_idx := idx + Z.of_nat k; r_procNum := 0;
                           r_proc := proc |}) entries.
Proof.
  revert idx. induction entries as [|proc rest IH]; intros idx; [reflexivity|].
  cbn [fanoutFrom]. rewrite imap_cons, IH.
  unfold replicasOf, numProcsOf. rewrite lookup_empty.
  change (seqZ 0 1) with [0]. cbn [flat_map String.eqb orb app].
  rewrite Z.add_0_r. f_equal. apply imap_ext. intros k x _. simpl.
  f_equal. lia.
Qed.
End Filter.

(** X5: [start name] runs the templates of that name only.  A malformed
    concurrency spec is fatal first; a name that no template has is fatal
    ("no such process"); else the loops start the replicas of the
    templates named [name] and of no other, each with the index of its
    template in the whole Procfile, as many as their counts say.  Further
    arguments are not looked at. *)
Theorem runStart_filter (c : Config) (name : string) (rest : list string) :
  args c = name :: rest ->
  (forall m e, parseConcurrency (flagConcurrency c) = (m, Some e) ->
               runStart c = inl (FatalError e)) /\
  (forall conc, parseConcurrency (flagConcurrency c) = (conc, None) ->
     (HasProcess (Entries c) name = false ->
      runStart c = inl (FatalOutput ("no such process: " +:+ name))) /\
     (HasProcess (Entries c) name = true ->
      exists s0,
        runStart c = inr s0 /\ st_procs s0 = [] /\ pending s0 = planned c /\
        (name <> EmptyString ->
         (forall r, In r (planned c) ->
            Name (r_proc r) = name /\
            Entries c !! Z.to_nat (r_idx r) = Some (r_proc r)) /\
         length (planned c) = totalReplicas conc (named name (Entries c))))).
Proof.
  intros Hargs. split.
  - intros m e P. unfold runStart. rewrite P. reflexivity.
  - intros conc P. split.
    + intros H. unfold runStart, singletonOf. rewrite P, Hargs. simpl.
      rewrite H. reflexivity.
    + intros H. eexists. split.
      * unfold runStart, singletonOf. rewrite P, Hargs. simpl.
        rewrite H. reflexivity.
      * split; [reflexivity|]. split.
        { unfold planned, singletonOf. rewrite P, Hargs. reflexivity. }
        intros Hne. unfold planned, singletonOf. rewrite P, Hargs. simpl. split.
        { intros r Hr.
          apply fanoutFrom_elem in Hr as (k & proc & Hk & Hp & Hi & Hproc & _).
          unfold passes in Hp. apply orb_true_iff in Hp as [E|E];
            apply String.eqb_eq in E; [contradiction|].
          split; [congruence|].
          replace (Z.to_nat (r_idx r)) with k by lia. congruence. }
        apply fanoutFrom_filtered. exact Hne.
Qed.

(** X6: with the default flags of [init] ([-c] empty, [-p 5000]) and no
    argument, [runStart] starts one replica per template, in the order of
    the Procfile: the template at position [k] as [Name.1] on port
    [5000 + 100*k]. *)
Theorem default_flags_one_replica_each (sigterm : bool)
        (entries : list ProcfileEntry) (e : gmap string string) :
  let c := defaultConfig sigterm entries e [] in
  exists s0,
    runStart c = inr s0 /\ st_procs s0 = [] /\
    pending s0 =
      imap (fun k proc => {| r_idx := Z.of_nat k; r_procNum := 0; r_proc := proc |})
           entries /\
    forall k proc, entries !! k = Some proc ->
      procNameOf proc 0 = Name proc +:+ ".1" /\
      (5000 + Z.of_nat k * 100 <= maxInt ->
       portOf c (Z.of_nat k) = 5000 + Z.of_nat k * 100).
Proof.
  intros c. eexists. split; [reflexivity|]. split; [reflexivity|]. split.
  - cbn [pending st_main]. unfold fanout. cbn [fst parseConcurrency singletonOf args c
      defaultConfig Entries].
    change (fst (parseConcurrency EmptyString)) with (∅ : gmap string Z).
    rewrite fanoutFrom_default. apply imap_ext. intros k x _. reflexivity.
  - intros k proc _. split; [reflexivity|].
    intros H. unfold portOf, int_add, int_mul. cbn [flagPort c defaultConfig].
    rewrite (wrap_int_small (Z.of_nat k * 100)) by (unfold minInt, maxInt in *; lia).
    apply wrap_int_small. unfold minInt, maxInt in *. lia.
Qed.

(** * Further properties of the supervisor *)

Section Rules.
Variable c : Config.

Lemma interrupt_step_Next s : Inv c s -> interrupt_step s = Next (interrupted s).
Proof.
  intros I. unfold interrupt_step.
  replace (if negb (st_first s) && negb (st_once s)
           then close (teardownNow (st_f s))
           else Some (teardownNow (st_f s)))
    with (Some (teardownNow (st_f s) || negb (st_first s)))
    by (rewrite (inv_now c s I); destruct (st_first s), (st_once s); reflexivity).
  rewrite SignalShutdown_trips by (apply (inv_once c s I)). reflexivity.
Qed.

(** Every action of an execution is one of the rules. *)
Lemma act_transition l s s' :
  Inv c s -> act c l s = Next s' -> transition c s s'.
Proof.
  intros I. pose proof (Inv_wg_nonneg c s I) as Wg.
  pose proof (inv_once c s I) as Ionce. pose proof (inv_now c s I) as Inow.
  destruct l as [| |d|p|p|p|p b]; simpl; unfold on_inst.
  - unfold main_step. destruct (st_main s) as [[|r rest]| |] eqn:M; try discriminate.
    + destruct (teardown (st_f s)) eqn:T; [|discriminate]. intros [= <-].
      apply tr_barrier; assumption.
    + rewrite startProcess_Next by (simpl; exact Wg). intros [= <-].
      apply (tr_start c s r rest M).
    + destruct (Z.eqb_spec (wg (st_f s)) 0); [|discriminate]. intros [= <-].
      apply tr_return; assumption.
  - rewrite interrupt_step_Next by exact I. intros [= <-]. apply tr_interrupt.
  - destruct (Z.ltb_spec 0 d); [|discriminate]. intros [= <-].
    apply tr_tick. assumption.
  - destruct (st_procs s !! p) as [i|] eqn:Hp; [|discriminate].
    destruct (i_child i) eqn:Ch; try discriminate. intros [= <-].
    apply tr_exit; assumption.
  - destruct (st_procs s !! p) as [i|] eqn:Hp; [|discriminate].
    destruct (i_child i) eqn:Ch; try discriminate. intros [= <-].
    apply tr_wait; assumption.
  - destruct (st_procs s !! p) as [i|] eqn:Hp; [|discriminate].
    destruct (i_child i) eqn:Ch; try discriminate.
    destruct (i_finished i) eqn:F; simpl; [discriminate|]. intros [= <-].
    apply tr_close; assumption.
  - destruct (st_procs s !! p) as [i|] eqn:Hp; [|discriminate].
    unfold coord_step. destruct (i_pc i) eqn:PC, b; try discriminate.
    + destruct (i_finished i) eqn:F; [|discriminate].
      destruct (flagRestart c) eqn:R.
      * rewrite startProcess_Next by (simpl; exact Wg). intros [= <-].
        apply (tr_restart c s p i); assumption.
      * rewrite SignalShutdown_trips by exact Ionce. intros [= <-].
        apply (tr_natural c s p i); assumption.
    + destruct (teardown (st_f s)) eqn:T; [|discriminate].
      destruct (osHaveSigTerm c) eqn:O; simpl; intros [= <-].
      * apply tr_sigterm; assumption.
      * apply tr_kill_now; assumption.
    + destruct (i_finished i) eqn:F; [|discriminate]. intros [= <-].
      apply tr_exited; assumption.
    + destruct (i_timer i) as [t0|] eqn:Tm; [|discriminate].
      destruct (Z.leb_spec (t0 + shutdownGraceTime) (st_clock s)); [|discriminate].
      intros [= <-]. eapply tr_timer; eassumption.
    + destruct (teardownNow (st_f s)) eqn:Tn; [|discriminate]. intros [= <-].
      apply tr_urgent; assumption.
    + destruct (i_finished i) eqn:F; [|discriminate].
      pose proof (running_count_lookup _ _ _ Hp) as Hr.
      unfold running in Hr. rewrite PC in Hr.
      rewrite wgAdd_ok by (rewrite (inv_wg c s I); lia). intros [= <-].
      apply (tr_done c s p i); assumption.
Qed.

Lemma step_transition l s s' :
  Inv c s -> step c l s = Next s' -> transition c s s'.
Proof.
  intros I. unfold step.
  destruct (st_main s); try discriminate; apply act_transition; exact I.
Qed.

(** A property that holds where [runStart] enters its loops and that no
    rule breaks holds in every reachable state. *)
Lemma reachable_ind (P : State -> Prop) :
  (forall s0, runStart c = inr s0 -> P s0) ->
  (forall s s', Reachable c s -> P s -> transition c s s' -> P s') ->
  forall s, Reachable c s -> P s.
Proof.
  intros H0 Hstep s (s0 & ls & R0 & Hrun).
  assert (G : forall ls s1 s2, Reachable c s1 -> P s1 -> run c ls s1 = Next s2 -> P s2).
  { clear ls Hrun. induction ls as [|l ls IH]; intros s1 s2 R1 P1; simpl.
    - intros [= <-]. exact P1.
    - destruct (step c l s1) as [s1'| |] eqn:E; try discriminate.
      assert (R1' : Reachable c s1').
      { destruct R1 as (sa & la & Ra & Rb). exists sa, (la ++ [l]).
        split; [exact Ra|]. rewrite run_app, Rb. simpl. rewrite E. reflexivity. }
      apply IH; [exact R1'|].
      eapply Hstep; [exact R1|exact P1|].
      eapply step_transition; [apply Reachable_Inv; exact R1|exact E]. }
  eapply G; [|apply H0; exact R0|exact Hrun].
  exists s0, []. auto.
Qed.

Lemma runStart_initial s0 :
  runStart c = inr s0 ->
  st_f s0 = newForego /\ st_first s0 = true /\ st_once s0 = false /\
  st_procs s0 = [] /\ st_clock s0 = 0 /\ st_out s0 = [] /\
  st_main s0 = InLoop (planned c).
Proof.
  unfold runStart, planned.
  destruct (parseConcurrency (flagConcurrency c)) as [conc [e|]]; simpl;
    [discriminate|].
  destruct (match args c with [] => false | _ => _ end); [discriminate|].
  intros [= <-]. simpl. auto 10.
Qed.
End Rules.

Section Interrupts.
Variable c : Config.

Lemma interrupts_inv s :
  Reachable c s ->
  st_first s = Nat.eqb (ctrl_c_lines (st_out s)) 0 /\
  teardownNow (st_f s) = Nat.leb 2 (ctrl_c_lines (st_out s)) /\
  ((1 <= ctrl_c_lines (st_out s))%nat -> teardown (st_f s) = true).
Proof.
  revert s. apply reachable_ind.
  - intros s0 H0. apply runStart_initial in H0 as (-> & -> & _ & _ & _ & -> & _).
    simpl. repeat split. lia.
  - intros s s' _ (F & N & T) Tr.
    destruct Tr; simpl; try (repeat split; assumption).
    + rewrite F, N. destruct (ctrl_c_lines (st_out s)) as [|[|n]]; simpl; auto.
Qed.
End Interrupts.

(** X7: [monitorInterrupt] handles every interrupt while the program runs,
    printing one line for each.  The first trips the graceful barrier and
    leaves the urgent one alone; the urgent barrier is tripped exactly when
    two or more interrupts have been handled. *)
Theorem interrupts_trip_barriers (c : Config) (s : State) :
  Reachable c s ->
  let n := ctrl_c_lines (st_out s) in
  (st_first s = true <-> n = 0%nat) /\
  (teardownNow (st_f s) = true <-> (2 <= n)%nat) /\
  ((1 <= n)%nat -> teardown (st_f s) = true) /\
  (st_main s <> Returned ->
   step c LInterrupt s = Next (interrupted s) /\
   ctrl_c_lines (st_out (interrupted s)) = S n /\
   teardown (st_f (interrupted s)) = true).
Proof.
  intros R n. destruct (interrupts_inv c s R) as (F & N & T). fold n in F, N, T.
  split; [|split; [|split]].
  - rewrite F. destruct n; simpl; split; congruence.
  - rewrite N. destruct n as [|[|k]]; simpl; split; intros; try congruence; lia.
  - exact T.
  - intros NR. split; [|split; reflexivity].
    pose proof (Reachable_Inv c s R) as I.
    unfold step. destruct (st_main s); try congruence; simpl;
      apply (interrupt_step_Next c); exact I.
Qed.

Section Changes.
Variable c : Config.

Lemma change_none s tail :
  (tail = [] \/
   (exists r rest, st_main s = InLoop (r :: rest) /\ tail = [newInstance c r None])) ->
  procs_change c s (st_procs s) tail.
Proof.
  intros H. split; [reflexivity|]. split; [eauto|]. split; [reflexivity|].
  destruct H; auto.
Qed.

Lemma change_move s p i i' :
  st_procs s !! p = Some i -> inst_move c s i i' ->
  length (<[p := i']> (st_procs s)) = length (st_procs s) /\
  (forall q j0, st_procs s !! q = Some j0 ->
     exists j, <[p := i']> (st_procs s) !! q = Some j /\
               (j = j0 \/ inst_move c s j0 j)) /\
  from_main (<[p := i']> (st_procs s)) = from_main (st_procs s).
Proof.
  intros Hp Hm. split; [apply length_insert|]. split.
  - intros q j0 Hq. destruct (decide (p = q)) as [->|Hne].
    + exists i'. split.
      * apply list_lookup_insert_eq. eapply lookup_lt_Some. exact Hq.
      * right. congruence.
    + exists j0. split; [|auto]. rewrite list_lookup_insert_ne by exact Hne. exact Hq.
  - apply (from_main_insert _ _ i); [exact Hp|]. apply (inst_move_ps c s). exact Hm.
Qed.

Lemma change_moved s p i i' :
  st_procs s !! p = Some i -> inst_move c s i i' ->
  procs_change c s (<[p := i']> (st_procs s)) [].
Proof.
  intros Hp Hm. destruct (change_move s p i i' Hp Hm) as (L & O & F).
  split; [exact L|]. split; [exact O|]. split; [exact F|]. auto.
Qed.

(** The instances after any rule. *)
Lemma transition_procs s s' :
  transition c s s' ->
  exists procs1 tail, st_procs s' = procs1 ++ tail /\ procs_change c s procs1 tail.
Proof.
  intros Tr. destruct Tr.
  - exists (st_procs s), [newInstance c r None]. split; [reflexivity|].
    apply change_none. right. eauto.
  - exists (st_procs s), []. split; [symmetry; apply app_nil_r|].
    apply change_none. auto.
  - exists (st_procs s), []. split; [symmetry; apply app_nil_r|].
    apply change_none. auto.
  - exists (st_procs s), []. split; [symmetry; apply app_nil_r|].
    apply change_none. auto.
  - exists (st_procs s), []. split; [symmetry; apply app_nil_r|].
    apply change_none. auto.
  - exists (<[p := with_child i Zombie]> (st_procs s)), []. split; [symmetry; apply app_nil_r|].
    eapply change_moved; [eassumption|]. apply mv_exit. assumption.
  - exists (<[p := with_child i Reaped]> (st_procs s)), []. split; [symmetry; apply app_nil_r|].
    eapply change_moved; [eassumption|]. apply mv_wait. assumption.
  - exists (<[p := with_finished i]> (st_procs s)), []. split; [symmetry; apply app_nil_r|].
    eapply change_moved; [eassumption|]. apply mv_close; assumption.
  - exists (<[p := with_pc i AtDeferred]> (st_procs s)),
           [newInstance c (ps_replica (i_ps i)) (Some p)].
    split; [reflexivity|].
    destruct (change_move s p i (with_pc i AtDeferred)) as (L & O & F);
      [assumption|apply mv_natural; assumption|].
    split; [exact L|]. split; [exact O|]. split; [exact F|].
    right. right. exists p, i. repeat split; auto.
    apply list_lookup_insert_eq. eapply lookup_lt_Some. eassumption.
  - exists (<[p := with_pc i AtDeferred]> (st_procs s)), [].
    split; [symmetry; apply app_nil_r|].
    eapply change_moved; [eassumption|]. apply mv_natural; assumption.
  - exists (<[p := killed i]> (st_procs s)), []. split; [symmetry; apply app_nil_r|].
    eapply change_moved; [eassumption|]. apply mv_kill_now; assumption.
  - exists (<[p := sigterm_sent i (st_clock s)]> (st_procs s)), []. split; [symmetry; apply app_nil_r|].
    eapply change_moved; [eassumption|]. apply mv_sigterm; assumption.
  - exists (<[p := with_pc i AtDeferred]> (st_procs s)), []. split; [symmetry; apply app_nil_r|].
    eapply change_moved; [eassumption|]. apply mv_exited; assumption.
  - exists (<[p := killed i]> (st_procs s)), []. split; [symmetry; apply app_nil_r|].
    eapply change_moved; [eassumption|]. eapply mv_timer; eassumption.
  - exists (<[p := killed i]> (st_procs s)), []. split; [symmetry; apply app_nil_r|].
    eapply change_moved; [eassumption|]. apply mv_urgent; assumption.
  - exists (<[p := with_pc i CoordDone]> (st_procs s)), []. split; [symmetry; apply app_nil_r|].
    eapply change_moved; [eassumption|]. apply mv_done; assumption.
Qed.

(** What no move of an instance undoes. *)
Lemma inst_move_finished s i i' :
  inst_move c s i i' -> i_finished i = true -> i_finished i' = true.
Proof. destruct 1; simpl; auto. Qed.

Lemma inst_move_over s i i' : inst_move c s i i' -> over i -> over i'.
Proof.
  intros Hm (F & S). split; [eapply inst_move_finished; eassumption|].
  destruct (settled_stable c (i_kill i) (i_sigterm i) s i i' Hm) as (S' & _); auto.
Qed.

Lemma inst_move_natural_exit s i i' :
  inst_move c s i i' -> natural_exit i -> natural_exit i'.
Proof.
  intros Hm (F & S & T & K). split; [eapply inst_move_finished; eassumption|].
  destruct (settled_stable c (i_kill i) (i_sigterm i) s i i' Hm)
    as (S' & K' & T'); [auto|].
  repeat split; congruence.
Qed.

(** An old instance looked up after the action. *)
Lemma change_old s procs1 tail q j :
  procs_change c s procs1 tail ->
  (procs1 ++ tail) !! q = Some j -> (q < length (st_procs s))%nat ->
  exists j0, st_procs s !! q = Some j0 /\ (j = j0 \/ inst_move c s j0 j).
Proof.
  intros (L & O & _) Hq Hlt.
  destruct (lookup_lt_is_Some_2 (st_procs s) q Hlt) as [j0 H0].
  destruct (O q j0 H0) as (j' & H' & M).
  rewrite lookup_app_l in Hq by lia. exists j0. split; [exact H0|]. congruence.
Qed.

Lemma change_new s procs1 tail q j :
  procs_change c s procs1 tail ->
  (procs1 ++ tail) !! q = Some j -> (length (st_procs s) <= q)%nat ->
  q = length (st_procs s) /\ tail = [j].
Proof.
  intros (L & _ & _ & T) Hq Hge.
  rewrite lookup_app_r in Hq by lia. rewrite L in Hq.
  destruct T as [->|[(r & rest & _ & ->)|(p & i & _ & _ & _ & _ & _ & ->)]].
  - rewrite lookup_nil in Hq. discriminate.
  - destruct (q - length (st_procs s))%nat as [|n] eqn:E; [|destruct n; discriminate].
    injection Hq as <-. split; [lia|reflexivity].
  - destruct (q - length (st_procs s))%nat as [|n] eqn:E; [|destruct n; discriminate].
    injection Hq as <-. split; [lia|reflexivity].
Qed.
End Changes.

Section Causes.
Variable c : Config.

Lemma transition_keeps (P : Instance -> Prop) s s' :
  (forall i i', inst_move c s i i' -> P i -> P i') ->
  transition c s s' ->
  (exists p i, st_procs s !! p = Some i /\ P i) ->
  exists p i, st_procs s' !! p = Some i /\ P i.
Proof.
  intros HP Tr (p & i & Hp & Hi).
  destruct (transition_procs c s s' Tr) as (procs1 & tail & -> & _ & O & _).
  destruct (O p i Hp) as (j & Hj & M). exists p, j.
  split; [apply lookup_app_l_Some; exact Hj|].
  destruct M as [->|M]; [exact Hi|]. eapply HP; eassumption.
Qed.

Lemma teardown_cause s :
  Reachable c s -> teardown (st_f s) = true ->
  st_first s = false \/
  (flagRestart c = false /\ exists p i, st_procs s !! p = Some i /\ natural_exit i).
Proof.
  revert s. apply (reachable_ind c (fun s => teardown (st_f s) = true ->
    st_first s = false \/
    (flagRestart c = false /\ exists p i, st_procs s !! p = Some i /\ natural_exit i))).
  - intros s0 H0. apply runStart_initial in H0 as (-> & _). discriminate.
  - intros s s' R IH Tr.
    assert (Keep : teardown (st_f s) = true ->
                   st_first s = false \/
                   (flagRestart c = false /\
                    exists p i, st_procs s' !! p = Some i /\ natural_exit i)).
    { intros T. destruct (IH T) as [F|(NoR & E)]; [left; exact F|].
      right. split; [exact NoR|].
      apply (transition_keeps natural_exit s s'); [|exact Tr|exact E].
      intros i i'. apply inst_move_natural_exit. }
    destruct Tr; try exact Keep.
    + intros _. left. reflexivity.
    + intros _. right. split; [assumption|].
      exists p, (with_pc i AtDeferred). split.
      * simpl. apply list_lookup_insert_eq. eapply lookup_lt_Some. eassumption.
      * pose proof (Inv_lookup c s p i (Reachable_Inv c s R) ltac:(eassumption)) as O.
        destruct (ok_select _ _ _ _ O ltac:(assumption)) as (Z & K & _).
        repeat split; auto. left. reflexivity.
Qed.
End Causes.

(** X8: the graceful barrier trips for two reasons only: an interrupt has
    been handled, or, with restart disabled, the coordinator of some
    process has seen it exit on its own.  With restart enabled nothing but
    an interrupt shuts the supervisor down. *)
Theorem teardown_has_a_cause (c : Config) (s : State) :
  Reachable c s -> teardown (st_f s) = true ->
  ((1 <= ctrl_c_lines (st_out s))%nat \/
   (flagRestart c = false /\
    exists p i, st_procs s !! p = Some i /\ natural_exit i)) /\
  (flagRestart c = true -> (1 <= ctrl_c_lines (st_out s))%nat).
Proof.
  intros R T. destruct (interrupts_inv c s R) as (F & _).
  assert (N : st_first s = false -> (1 <= ctrl_c_lines (st_out s))%nat).
  { rewrite F. destruct (ctrl_c_lines (st_out s)); simpl; [discriminate|lia]. }
  destruct (teardown_cause c s R T) as [H|(NoR & E)].
  - split; [left|intros _]; apply N; exact H.
  - split; [right; auto|]. congruence.
Qed.

Section Lineage.
Variable c : Config.

Lemma planned_keys_NoDup : NoDup (map replica_key (planned c)).
Proof. unfold planned, fanout. apply fanoutFrom_keys_NoDup. Qed.

Lemma same_process_ps i i' j j' :
  i_ps i' = i_ps i -> i_ps j' = i_ps j -> same_process i j -> same_process i' j'.
Proof. unfold same_process. intros -> ->. auto. Qed.

Lemma moved_ps s j0 j : j = j0 \/ inst_move c s j0 j -> i_ps j = i_ps j0.
Proof. intros [->|M]; [reflexivity|]. eapply inst_move_ps. exact M. Qed.

Lemma moved_over s j0 j : j = j0 \/ inst_move c s j0 j -> over j0 -> over j.
Proof. intros [->|M]; [auto|]. eapply inst_move_over. exact M. Qed.

Lemma from_main_keys_fresh s r rest j :
  Inv c s -> st_main s = InLoop (r :: rest) ->
  In (inst_key j) (map replica_key (from_main (st_procs s))) ->
  inst_key j <> replica_key r.
Proof.
  intros I M Hin E. pose proof (inv_planned c s I) as P.
  unfold pending in P. rewrite M in P.
  pose proof planned_keys_NoDup as N. rewrite <- P, map_app in N.
  apply NoDup_app in N as (_ & N & _).
  apply (N (inst_key j)); [apply list_elem_of_In; exact Hin|].
  rewrite E. simpl. left.
Qed.

Lemma lineage_step s s' :
  Reachable c s -> lineage c s -> transition c s s' -> lineage c s'.
Proof.
  intros R [L K V] Tr. pose proof (Reachable_Inv c s R) as I.
  destruct (transition_procs c s s' Tr) as (procs1 & tail & E & Ch).
  pose proof Ch as (Len & Old & FM & Tail).
  assert (Lt : forall q j, st_procs s' !! q = Some j ->
               (q < length (st_procs s))%nat \/
               (q = length (st_procs s) /\ tail = [j])).
  { intros q j Hq. rewrite E in Hq.
    destruct (Nat.lt_ge_cases q (length (st_procs s))) as [H|H]; [left; exact H|].
    right. eapply change_new; eassumption. }
  assert (OldOf : forall q j, st_procs s' !! q = Some j ->
                  (q < length (st_procs s))%nat ->
                  exists j0, st_procs s !! q = Some j0 /\
                             (j = j0 \/ inst_move c s j0 j)).
  { intros q j Hq H. rewrite E in Hq. eapply change_old; eassumption. }
  assert (Fwd : forall p i0, st_procs s !! p = Some i0 ->
                exists i, st_procs s' !! p = Some i /\
                          (i = i0 \/ inst_move c s i0 i)).
  { intros p i0 Hp. destruct (Old p i0 Hp) as (i & Hi & M).
    exists i. split; [rewrite E; apply lookup_app_l_Some; exact Hi|exact M]. }
  constructor.
  - (* parents *)
    intros q j p Hq Par. destruct (Lt q j Hq) as [H|(-> & Et)].
    + destruct (OldOf q j Hq H) as (j0 & H0 & M).
      rewrite (moved_ps s j0 j M) in Par.
      destruct (L q j0 p H0 Par) as (Re & Hpq & i0 & Hi0 & S & O).
      split; [exact Re|]. split; [exact Hpq|].
      destruct (Fwd p i0 Hi0) as (i & Hi & Mi). exists i.
      split; [exact Hi|]. split; [|eapply moved_over; eassumption].
      eapply same_process_ps; [eapply moved_ps; exact Mi
                              |eapply moved_ps; exact M|exact S].
    + destruct Tail as [->|[(r & rest & _ & ->)|(p0 & i0 & Hp0 & PC & F & Re & H1 & ->)]];
        try discriminate.
      * injection Et as <-. discriminate.
      * injection Et as <-. simpl in Par. injection Par as <-.
        split; [exact Re|]. split; [eapply lookup_lt_Some; exact Hp0|].
        exists (with_pc i0 AtDeferred).
        split; [rewrite E; apply lookup_app_l_Some; exact H1|]. split.
        -- destruct (ok_ps _ _ _ _ (Inv_lookup c s p0 i0 I Hp0)) as [parent Ep].
           apply (same_process_ps i0 _ (newInstance c (ps_replica (i_ps i0)) (Some p0)) _);
             [reflexivity|reflexivity|].
           apply (newInstance_same c i0 parent). exact Ep.
        -- split; [exact F|left; reflexivity].
  - (* keys *)
    intros q j Hq. rewrite E, from_main_app, map_app, FM. apply in_app_iff.
    destruct (Lt q j Hq) as [H|(-> & Et)].
    + destruct (OldOf q j Hq H) as (j0 & H0 & M). left.
      unfold inst_key. rewrite (moved_ps s j0 j M). apply (K q j0 H0).
    + destruct Tail as [->|[(r & rest & _ & ->)|(p0 & i0 & Hp0 & PC & F & Re & H1 & ->)]];
        try discriminate.
      * injection Et as <-. right. simpl. left. reflexivity.
      * injection Et as <-. left. apply (K p0 i0 Hp0).
  - (* the latest of a key *)
    intros p q i j Hpq Hp Hq Ek.
    destruct (Lt q j Hq) as [H|(-> & Et)].
    + destruct (OldOf q j Hq H) as (j0 & Hj0 & Mj).
      destruct (OldOf p i Hp ltac:(lia)) as (i0 & Hi0 & Mi).
      eapply moved_over; [exact Mi|].
      apply (V p q i0 j0 Hpq Hi0 Hj0).
      unfold inst_key in *. rewrite <- (moved_ps s i0 i Mi), <- (moved_ps s j0 j Mj).
      exact Ek.
    + destruct (OldOf p i Hp Hpq) as (i0 & Hi0 & Mi).
      assert (Ki : inst_key i = inst_key i0).
      { unfold inst_key. rewrite (moved_ps s i0 i Mi). reflexivity. }
      destruct Tail as [->|[(r & rest & M & ->)|(p0 & i00 & Hp0 & PC & F & Re & H1 & ->)]];
        try discriminate.
      * injection Et as <-. exfalso.
        apply (from_main_keys_fresh s r rest i0 I M (K p i0 Hi0)).
        rewrite <- Ki, Ek. reflexivity.
      * injection Et as <-.
        assert (Kj : inst_key (newInstance c (ps_replica (i_ps i00)) (Some p0))
                     = inst_key i00) by reflexivity.
        destruct (Nat.lt_trichotomy p p0) as [Hlt|[->|Hgt]].
        -- eapply moved_over; [exact Mi|].
           apply (V p p0 i0 i00 Hlt Hi0 Hp0). congruence.
        -- rewrite E, lookup_app_l in Hp by lia.
           assert (i = with_pc i00 AtDeferred) by congruence. subst i.
           split; [exact F|left; reflexivity].
        -- exfalso.
           destruct (V p0 p i00 i0 Hgt Hp0 Hi0 ltac:(congruence)) as (_ & [S|S]);
             congruence.
Qed.

Lemma reachable_lineage s : Reachable c s -> lineage c s.
Proof.
  revert s. apply reachable_ind.
  - intros s0 H0. apply runStart_initial in H0 as (_ & _ & _ & P & _).
    constructor; rewrite P; intros; rewrite lookup_nil in *; discriminate.
  - apply lineage_step.
Qed.

Lemma from_main_all l :
  Forall (fun i => ps_parent (i_ps i) = None) l ->
  from_main l = map (fun i => ps_replica (i_ps i)) l.
Proof.
  induction 1 as [|i l H _ IH]; simpl; [reflexivity|]. rewrite H, IH. reflexivity.
Qed.
End Lineage.

(** X9: an instance started by a restart was started by the coordinator of
    an earlier instance of the same replica (same key, name, port and
    environment) whose process had exited and been reaped, and only with
    restart enabled.  Of two instances of one [ReplicaKey] the earlier one
    is over: its child is reaped and its coordinator has left its
    [select]s.  So a replica never has two processes running at once. *)
Theorem replica_runs_one_process (c : Config) (s : State) :
  Reachable c s ->
  (forall q j p,
     st_procs s !! q = Some j -> ps_parent (i_ps j) = Some p ->
     flagRestart c = true /\ (p < q)%nat /\
     exists i, st_procs s !! p = Some i /\ same_process i j /\
               i_child i = Reaped /\ settled i) /\
  (forall p q i j,
     p <> q -> st_procs s !! p = Some i -> st_procs s !! q = Some j ->
     inst_key i = inst_key j ->
     (i_child i = Reaped /\ settled i) \/ (i_child j = Reaped /\ settled j)).
Proof.
  intros R. pose proof (Reachable_Inv c s R) as I.
  destruct (reachable_lineage c s R) as [L K V].
  assert (Ov : forall p i, st_procs s !! p = Some i -> over i ->
               i_child i = Reaped /\ settled i).
  { intros p i Hp (F & S). split; [|exact S].
    apply (ok_finished _ _ _ _ (Inv_lookup c s p i I Hp) F). }
  split.
  - intros q j p Hq Par. destruct (L q j p Hq Par) as (Re & Hpq & i & Hi & S & O).
    split; [exact Re|]. split; [exact Hpq|]. exists i.
    split; [exact Hi|]. split; [exact S|]. apply (Ov p i Hi O).
  - intros p q i j Hne Hp Hq Ek.
    destruct (Nat.lt_trichotomy p q) as [H|[H|H]]; [|contradiction|].
    + left. apply (Ov p i Hp). apply (V p q i j H Hp Hq Ek).
    + right. apply (Ov q j Hq). apply (V q p j i H Hq Hp). congruence.
Qed.

(** X10: with restart disabled [runStart] is the only caller of
    [startProcess]: the instances are those of the calls its loops have
    made so far, in their order, one per [ReplicaKey], never more than
    planned. *)
Theorem no_restart_no_further_process (c : Config) (s : State) :
  Reachable c s -> flagRestart c = false ->
  Forall (fun i => ps_parent (i_ps i) = None) (st_procs s) /\
  map (fun i => ps_replica (i_ps i)) (st_procs s) ++ pending s = planned c /\
  NoDup (map inst_key (st_procs s)) /\
  (length (st_procs s) <= length (planned c))%nat.
Proof.
  intros R NoR. pose proof (Reachable_Inv c s R) as I.
  destruct (reachable_lineage c s R) as [L _ _].
  assert (A : Forall (fun i => ps_parent (i_ps i) = None) (st_procs s)).
  { apply Forall_lookup. intros q j Hq.
    destruct (ps_parent (i_ps j)) as [p|] eqn:Par; [|reflexivity].
    destruct (L q j p Hq Par) as (Re & _). congruence. }
  pose proof (inv_planned c s I) as P. rewrite (from_main_all _ A) in P.
  split; [exact A|]. split; [exact P|]. split.
  - pose proof (planned_keys_NoDup c) as N. rewrite <- P, map_app in N.
    apply NoDup_app in N as (N & _). rewrite map_map in N. exact N.
  - rewrite <- P, length_app, length_map. lia.
Qed.

Section Signals.
Variable c : Config.

Lemma inst_ok_untripped f clk i :
  inst_ok c f clk i -> teardown f = false ->
  i_sigterm i = 0%nat /\ i_kill i = 0%nat /\ i_pc i <> AtGraceSelect.
Proof.
  intros O T.
  assert (S0 : i_sigterm i = 0%nat).
  { destruct (ok_bounds _ _ _ _ O) as (B & _).
    destruct (i_sigterm i) as [|[|n]] eqn:E; [reflexivity| |lia].
    destruct (ok_sigterm _ _ _ _ O E) as (T' & _). congruence. }
  split; [exact S0|]. split.
  - destruct (ok_bounds _ _ _ _ O) as (_ & B).
    destruct (i_kill i) as [|[|n]] eqn:E; [reflexivity| |lia].
    destruct (ok_direct _ _ _ _ O S0 E) as (T' & _). congruence.
  - intros PC. destruct (ok_grace _ _ _ _ O PC) as (S1 & _). congruence.
Qed.

Lemma inst_ok_platform f clk i :
  inst_ok c f clk i ->
  (osHaveSigTerm c = false -> i_sigterm i = 0%nat /\ i_pc i <> AtGraceSelect) /\
  (osHaveSigTerm c = true -> i_kill i = 1%nat -> i_sigterm i = 1%nat).
Proof.
  intros O.
  assert (B : forall n, (n <= 1)%nat -> n = 0%nat \/ n = 1%nat) by (intros; lia).
  destruct (ok_bounds _ _ _ _ O) as (Bs & _). split.
  - intros P.
    assert (S0 : i_sigterm i = 0%nat).
    { destruct (B _ Bs) as [E|E]; [exact E|].
      destruct (ok_sigterm _ _ _ _ O E) as (_ & P' & _). congruence. }
    split; [exact S0|]. intros PC.
    destruct (ok_grace _ _ _ _ O PC) as (S1 & _). congruence.
  - intros P K. destruct (B _ Bs) as [E|E]; [|exact E].
    destruct (ok_direct _ _ _ _ O E K) as (_ & P'). congruence.
Qed.
End Signals.

(** X11: while the graceful barrier is untripped no coordinator has sent
    its process a signal, and none is in the inner [select]: SIGTERM and
    the forced kill are sent only after [<-f.teardown]. *)
Theorem no_signal_before_teardown (c : Config) (s : State) (p : nat) (i : Instance) :
  Reachable c s -> st_procs s !! p = Some i -> teardown (st_f s) = false ->
  i_sigterm i = 0%nat /\ i_kill i = 0%nat /\ i_pc i <> AtGraceSelect.
Proof.
  intros R Hp T. pose proof (Reachable_Inv c s R) as I.
  eapply inst_ok_untripped; [|exact T]. eapply Inv_lookup; eassumption.
Qed.

(** X12: on a platform without SIGTERM ([!osHaveSigTerm]) no coordinator
    sends SIGTERM or enters the inner [select]: the process is killed at
    once, at most once.  On a platform with SIGTERM a forced kill is sent
    only after the SIGTERM. *)
Theorem kill_follows_platform (c : Config) (s : State) (p : nat) (i : Instance) :
  Reachable c s -> st_procs s !! p = Some i ->
  (i_kill i <= 1)%nat /\
  (osHaveSigTerm c = false -> i_sigterm i = 0%nat /\ i_pc i <> AtGraceSelect) /\
  (osHaveSigTerm c = true -> i_kill i = 1%nat -> i_sigterm i = 1%nat).
Proof.
  intros R Hp. pose proof (Reachable_Inv c s R) as I.
  pose proof (Inv_lookup c s p i I Hp) as O.
  split; [apply (ok_bounds _ _ _ _ O)|]. eapply inst_ok_platform. exact O.
Qed.

(** X13: the counter of [f.wg] is the number of coordination goroutines
    that have not run [f.wg.Done()]: it is never negative, and while one of
    them is not done the counter is positive and [runStart] has not
    returned. *)
Theorem wg_counts_coordinators (c : Config) (s : State) :
  Reachable c s ->
  wg (st_f s) = running_count (st_procs s) /\
  0 <= wg (st_f s) <= Z.of_nat (length (st_procs s)) /\
  (forall p i, st_procs s !! p = Some i -> i_pc i <> CoordDone ->
     1 <= wg (st_f s) /\ st_main s <> Returned).
Proof.
  intros R. pose proof (Reachable_Inv c s R) as I.
  pose proof (inv_wg c s I) as W. split; [exact W|].
  assert (U : forall l, running_count l <= Z.of_nat (length l)).
  { induction l as [|x l IH]; simpl length; simpl running_count; [lia|].
    unfold running. destruct (i_pc x); lia. }
  split.
  - split; [eapply Inv_wg_nonneg; exact I|]. rewrite W. apply U.
  - intros p i Hp PC.
    assert (1 <= wg (st_f s)).
    { rewrite W. pose proof (running_count_lookup _ _ _ Hp) as H.
      unfold running in H. destruct (i_pc i); congruence || lia. }
    split; [assumption|]. intros M. pose proof (inv_returned c s I M). lia.
Qed.

Section Growth.
Variable c : Config.

Lemma grown_refl i : grown i i.
Proof. unfold grown. repeat split; auto. Qed.

Lemma inst_move_grown s i j j' : inst_move c s j j' -> grown i j -> grown i j'.
Proof.
  unfold grown. intros M (P & Ch & F & PC & St & K).
  destruct M; simpl; repeat split; auto; try lia;
    repeat match goal with
           | H : i_child _ = _ |- _ => rewrite H in *
           | H : i_pc _ = _ |- _ => rewrite H in *
           end; simpl in *; lia.
Qed.
End Growth.

(** X14: an instance stays where it is in the list of instances and only
    advances, from any state on: its [Process] (replica, name, port,
    environment) never changes, a child that exited is not alive again,
    [finished] is not reopened, the coordinator never returns to a
    [select] it left, and the signals sent are not taken back. *)
Theorem instances_only_advance (c : Config) (ls : list Label) (s s' : State)
        (p : nat) (i : Instance) :
  run c ls s = Next s' -> st_procs s !! p = Some i ->
  exists i', st_procs s' !! p = Some i' /\ grown i i'.
Proof.
  intros R Hp.
  apply (run_stable c (grown i) ls s s' p i); [|exact R|exact Hp|apply grown_refl].
  intros s1 j j'. apply inst_move_grown.
Qed.

Section Output.
Variable c : Config.

Lemma lines_of_insert (extra : list Out) l p i i' :
  l !! p = Some i -> lines_of i' ≡ₚ extra ++ lines_of i ->
  flat_map lines_of (<[p := i']> l) ≡ₚ extra ++ flat_map lines_of l.
Proof.
  intros Hp E. revert p Hp.
  induction l as [|x l IH]; intros [|p]; cbn -[lines_of]; try discriminate.
  - intros [= ->]. rewrite E. rewrite <- app_assoc. reflexivity.
  - intros Hp. rewrite (IH p Hp).
    rewrite !app_assoc. apply Permutation_app_tail, Permutation_app_comm.
Qed.

Lemma lines_of_same l p i i' :
  l !! p = Some i -> lines_of i' = lines_of i ->
  flat_map lines_of (<[p := i']> l) ≡ₚ flat_map lines_of l.
Proof.
  intros Hp E. apply (lines_of_insert [] l p i i' Hp). rewrite E. reflexivity.
Qed.

Lemma lines_of_killed i : lines_of (killed i) ≡ₚ [killingLine i] ++ lines_of i.
Proof.
  unfold lines_of. simpl.
  change (killingLine (killed i)) with (killingLine i).
  change (sigtermLine (killed i)) with (sigtermLine i).
  rewrite <- Permutation_middle.
  apply perm_swap.
Qed.

Lemma lines_of_sigterm i now :
  lines_of (sigterm_sent i now) ≡ₚ [sigtermLine i] ++ lines_of i.
Proof.
  unfold lines_of. simpl.
  change (killingLine (sigterm_sent i now)) with (killingLine i).
  change (sigtermLine (sigterm_sent i now)) with (sigtermLine i).
  apply perm_swap.
Qed.

Lemma output_inv s :
  Reachable c s ->
  List.filter is_System (st_out s)
    ≡ₚ main_lines (st_main s) ++ flat_map lines_of (st_procs s).
Proof.
  revert s. apply reachable_ind.
  - intros s0 H0. apply runStart_initial in H0 as (_ & _ & _ & -> & _ & -> & ->).
    reflexivity.
  - intros s s' _ IH Tr. destruct Tr; simpl.
    + rewrite H in IH. simpl in IH. rewrite flat_map_app. simpl.
      rewrite IH. apply Permutation_cons_append.
    + rewrite H in IH. simpl in IH. rewrite IH. reflexivity.
    + rewrite H in IH. exact IH.
    + exact IH.
    + exact IH.
    + rewrite lines_of_same by (eassumption || reflexivity). exact IH.
    + rewrite lines_of_same by (eassumption || reflexivity). exact IH.
    + rewrite lines_of_same by (eassumption || reflexivity). exact IH.
    + rewrite flat_map_app. simpl.
      rewrite lines_of_same by (eassumption || reflexivity).
      rewrite IH, app_assoc. apply Permutation_cons_append.
    + rewrite lines_of_same by (eassumption || reflexivity). exact IH.
    + rewrite (lines_of_insert [killingLine i]) by (eassumption || apply lines_of_killed).
      rewrite IH. simpl. apply Permutation_middle.
    + rewrite (lines_of_insert [sigtermLine i]) by (eassumption || apply lines_of_sigterm).
      rewrite IH. simpl. apply Permutation_middle.
    + rewrite lines_of_same by (eassumption || reflexivity). exact IH.
    + rewrite (lines_of_insert [killingLine i]) by (eassumption || apply lines_of_killed).
      rewrite IH. simpl. apply Permutation_middle.
    + rewrite (lines_of_insert [killingLine i]) by (eassumption || apply lines_of_killed).
      rewrite IH. simpl. apply Permutation_middle.
    + rewrite lines_of_same by (eassumption || reflexivity). exact IH.
Qed.

Lemma stdout_inv s :
  Reachable c s ->
  Forall (fun o => is_System o = false -> o = Stdout "      | ctrl-c detected")
         (st_out s).
Proof.
  revert s. apply reachable_ind.
  - intros s0 H0. apply runStart_initial in H0 as (_ & _ & _ & _ & _ & -> & _).
    constructor.
  - intros s s' _ IH Tr. destruct Tr; simpl; try exact IH;
      constructor; (exact IH || (simpl; intros; congruence)).
Qed.
End Output.

(** X15: every line written is accounted for.  The [of.SystemOutput] lines
    are, up to their order: one [starting <name> on port <port>] line per
    instance started, one [sending SIGTERM to <name>] line per SIGTERM
    sent, one [Killing <name>] line per forced kill, and [shutting down]
    once [runStart] is past [<-f.teardown].  The only other lines are the
    [ctrl-c detected] lines of [monitorInterrupt]. *)
Theorem output_lines_accounted (c : Config) (s : State) :
  Reachable c s ->
  List.filter is_System (st_out s)
    ≡ₚ main_lines (st_main s) ++ flat_map lines_of (st_procs s) /\
  Forall (fun o => is_System o = false -> o = Stdout "      | ctrl-c detected")
         (st_out s).
Proof.
  intros R. split; [apply (output_inv c)|apply (stdout_inv c)]; exact R.
Qed.

(** * Instances of the further properties on the example *)

Lemma after_Reachable restart sigterm ls :
  match run (demo restart sigterm) ls (demo0 restart sigterm) with
  | Next _ => True
  | _ => False
  end ->
  Reachable (demo restart sigterm) (after restart sigterm ls).
Proof.
  intros H. apply (demo_Reachable restart sigterm ls). apply after_run. exact H.
Defined.

Lemma parseConcurrency_composes_witness :
  ~ AllSpace "web=2" /\ ~ AllSpace "worker=1" /\
  parseConcurrency ("web=2" +:+ "," +:+ "worker=1")
  = ({[ "worker" := 1 ]} ∪ {[ "web" := 2 ]}, None) /\
  snd (parseConcurrency ("web=2" +:+ "," +:+ EmptyString)) <> None.
Proof.
  assert (A : ~ AllSpace "web=2").
  { intros H. apply TrimSpace_AllSpace in H. vm_compute in H. discriminate H. }
  assert (B : ~ AllSpace "worker=1").
  { intros H. apply TrimSpace_AllSpace in H. vm_compute in H. discriminate H. }
  split; [exact A|]. split; [exact B|].
  destruct (parseConcurrency_composes "web=2" "worker=1") as (H & _).
  split.
  - apply (H _ _ A B); vm_compute; reflexivity.
  - destruct (parseConcurrency_composes "web=2" EmptyString) as (_ & H').
    apply H'. right. constructor.
Defined.

Lemma parseConcurrency_ignores_padding_witness :
  AllSpace " " /\ AllSpace EmptyString /\
  trimmed "web" = true /\ trimmed "2" = true /\
  no_seps "web" = true /\ no_seps "2" = true /\
  parseConcurrency ((" " +:+ "web" +:+ EmptyString) +:+ "=" +:+
                    (EmptyString +:+ "2" +:+ " "))
  = parseConcurrency ("web" +:+ "=" +:+ "2").
Proof.
  assert (A : AllSpace " ") by (apply AllSpace_1; [reflexivity|constructor]).
  assert (B : AllSpace EmptyString) by constructor.
  split; [exact A|]. split; [exact B|]. do 4 (split; [reflexivity|]).
  apply (parseConcurrency_ignores_padding " " EmptyString EmptyString " " "web" "2");
    (assumption || reflexivity).
Defined.

Lemma parseConcurrency_ignores_third_field_witness :
  no_seps "web" = true /\ no_seps "2" = true /\
  Strings.Contains "x=y" "," = false /\
  parseConcurrency ("web" +:+ "=" +:+ "2" +:+ "=" +:+ "x=y")
  = parseConcurrency ("web" +:+ "=" +:+ "2").
Proof.
  do 3 (split; [reflexivity|]).
  apply (parseConcurrency_ignores_third_field "web" "2" "x=y"); reflexivity.
Defined.

Lemma runStart_filter_witness :
  args (demo_only "worker") = ["worker"] /\
  HasProcess (Entries (demo_only "worker")) "worker" = true /\
  HasProcess (Entries (demo_only "job")) "job" = false /\
  (exists s0, runStart (demo_only "worker") = inr s0 /\
              length (planned (demo_only "worker")) = 1%nat) /\
  runStart (demo_only "job") = inl (FatalOutput ("no such process: " +:+ "job")).
Proof.
  split; [reflexivity|]. split; [reflexivity|]. split; [reflexivity|]. split.
  - destruct (runStart_filter (demo_only "worker") "worker" [] eq_refl) as (_ & H).
    destruct (H _ parse_example) as (_ & H2).
    destruct (H2 eq_refl) as (s0 & R & _ & _ & H3).
    destruct (H3 ltac:(discriminate)) as (_ & L).
    exists s0. split; [exact R|]. rewrite L. vm_compute. reflexivity.
  - destruct (runStart_filter (demo_only "job") "job" [] eq_refl) as (_ & H).
    destruct (H _ parse_example) as (H1 & _). apply H1. reflexivity.
Defined.

Lemma interrupts_trip_barriers_witness :
  Reachable (demo false true) (after false true one_interrupt) /\
  teardown (st_f (after false true one_interrupt)) = true /\
  (teardownNow (st_f (after false true one_interrupt)) = true <->
   (2 <= ctrl_c_lines (st_out (after false true one_interrupt)))%nat).
Proof.
  assert (R : Reachable (demo false true) (after false true one_interrupt)).
  { apply after_Reachable. vm_compute. exact I. }
  split; [exact R|].
  destruct (interrupts_trip_barriers (demo false true) (after false true one_interrupt) R)
    as (_ & N & T & _).
  split; [apply T; vm_compute; lia|exact N].
Defined.

Lemma teardown_has_a_cause_witness :
  Reachable (demo false true) (after false true web2_finished) /\
  teardown (st_f (after false true web2_finished)) = true /\
  ((1 <= ctrl_c_lines (st_out (after false true web2_finished)))%nat \/
   (flagRestart (demo false true) = false /\
    exists p i, st_procs (after false true web2_finished) !! p = Some i /\
                natural_exit i)).
Proof.
  assert (R : Reachable (demo false true) (after false true web2_finished)).
  { apply after_Reachable. vm_compute. exact I. }
  assert (T : teardown (st_f (after false true web2_finished)) = true)
    by (vm_compute; reflexivity).
  split; [exact R|]. split; [exact T|].
  apply (teardown_has_a_cause (demo false true) (after false true web2_finished) R T).
Defined.

Lemma replica_runs_one_process_witness :
  Reachable (demo true true) (after true true web2_finished) /\
  st_procs (after true true web2_finished) !! 3%nat
  = Some (inst_at (after true true web2_finished) 3) /\
  ps_parent (i_ps (inst_at (after true true web2_finished) 3)) = Some 1%nat /\
  exists i, st_procs (after true true web2_finished) !! 1%nat = Some i /\
            same_process i (inst_at (after true true web2_finished) 3) /\
            i_child i = Reaped /\ settled i.
Proof.
  assert (R : Reachable (demo true true) (after true true web2_finished)).
  { apply after_Reachable. vm_compute. exact I. }
  assert (L : st_procs (after true true web2_finished) !! 3%nat
              = Some (inst_at (after true true web2_finished) 3)).
  { apply inst_at_lookup. vm_compute. lia. }
  assert (P : ps_parent (i_ps (inst_at (after true true web2_finished) 3)) = Some 1%nat)
    by (vm_compute; reflexivity).
  split; [exact R|]. split; [exact L|]. split; [exact P|].
  destruct (replica_runs_one_process (demo true true) (after true true web2_finished) R)
    as (H & _).
  destruct (H _ _ _ L P) as (_ & _ & i & Hi). exists i. exact Hi.
Defined.

Lemma no_restart_no_further_process_witness :
  Reachable (demo false true) (after false true shutdown_run) /\
  flagRestart (demo false true) = false /\
  Forall (fun i => ps_parent (i_ps i) = None) (st_procs (after false true shutdown_run)) /\
  (length (st_procs (after false true shutdown_run))
   <= length (planned (demo false true)))%nat.
Proof.
  assert (R : Reachable (demo false true) (after false true shutdown_run)).
  { apply after_Reachable. vm_compute. exact I. }
  split; [exact R|]. split; [reflexivity|].
  destruct (no_restart_no_further_process (demo false true)
              (after false true shutdown_run) R eq_refl) as (A & _ & _ & B).
  split; [exact A|exact B].
Defined.

Lemma no_signal_before_teardown_witness :
  Reachable (demo false true) (after false true started) /\
  st_procs (after false true started) !! 0%nat
  = Some (inst_at (after false true started) 0) /\
  teardown (st_f (after false true started)) = false /\
  i_sigterm (inst_at (after false true started) 0) = 0%nat /\
  i_kill (inst_at (after false true started) 0) = 0%nat.
Proof.
  assert (R : Reachable (demo false true) (after false true started)).
  { apply after_Reachable. vm_compute. exact I. }
  assert (L : st_procs (after false true started) !! 0%nat
              = Some (inst_at (after false true started) 0)).
  { apply inst_at_lookup. vm_compute. lia. }
  assert (T : teardown (st_f (after false true started)) = false)
    by (vm_compute; reflexivity).
  split; [exact R|]. split; [exact L|]. split; [exact T|].
  destruct (no_signal_before_teardown (demo false true) (after false true started)
              0%nat _ R L T) as (A & B & _).
  split; [exact A|exact B].
Defined.

Lemma kill_follows_platform_witness :
  Reachable (demo false false) (after false false web1_sigterm) /\
  st_procs (after false false web1_sigterm) !! 0%nat
  = Some (inst_at (after false false web1_sigterm) 0) /\
  osHaveSigTerm (demo false false) = false /\
  i_sigterm (inst_at (after false false web1_sigterm) 0) = 0%nat /\
  (i_kill (inst_at (after false false web1_sigterm) 0) <= 1)%nat.
Proof.
  assert (R : Reachable (demo false false) (after false false web1_sigterm)).
  { apply after_Reachable. vm_compute. exact I. }
  assert (L : st_procs (after false false web1_sigterm) !! 0%nat
              = Some (inst_at (after false false web1_sigterm) 0)).
  { apply inst_at_lookup. vm_compute. lia. }
  split; [exact R|]. split; [exact L|]. split; [reflexivity|].
  destruct (kill_follows_platform (demo false false) (after false false web1_sigterm)
              0%nat _ R L) as (K & H & _).
  destruct (H eq_refl) as (S0 & _). split; [exact S0|exact K].
Defined.

Lemma wg_counts_coordinators_witness :
  Reachable (demo false true) (after false true started) /\
  wg (st_f (after false true started))
  = running_count (st_procs (after false true started)) /\
  0 <= wg (st_f (after false true started)).
Proof.
  assert (R : Reachable (demo false true) (after false true started)).
  { apply after_Reachable. vm_compute. exact I. }
  split; [exact R|].
  destruct (wg_counts_coordinators (demo false true) (after false true started) R)
    as (W & (B & _) & _).
  split; [exact W|exact B].
Defined.

Lemma instances_only_advance_witness :
  run (demo false true) [LInterrupt] (after false true started)
  = Next (after false true one_interrupt) /\
  st_procs (after false true started) !! 1%nat
  = Some (inst_at (after false true started) 1) /\
  exists i', st_procs (after false true one_interrupt) !! 1%nat = Some i' /\
             grown (inst_at (after false true started) 1) i'.
Proof.
  assert (R1 : run (demo false true) [LInterrupt] (after false true started)
               = Next (after false true one_interrupt))
    by (vm_compute; reflexivity).
  assert (L : st_procs (after false true started) !! 1%nat
              = Some (inst_at (after false true started) 1)).
  { apply inst_at_lookup. vm_compute. lia. }
  split; [exact R1|]. split; [exact L|].
  apply (instances_only_advance (demo false true) [LInterrupt]
           (after false true started) (after false true one_interrupt) 1%nat _ R1 L).
Defined.

Lemma output_lines_accounted_witness :
  Reachable (demo false true) (after false true shutdown_run) /\
  List.filter is_System (st_out (after false true shutdown_run))
    ≡ₚ main_lines (st_main (after false true shutdown_run)) ++
       flat_map lines_of (st_procs (after false true shutdown_run)).
Proof.
  assert (R : Reachable (demo false true) (after false true shutdown_run)).
  { apply after_Reachable. vm_compute. exact I. }
  split; [exact R|].
  destruct (output_lines_accounted (demo false true) (after false true shutdown_run) R)
    as (P & _).
  exact P.
Defined.
